(** * NATS Streaming subscriber of watermill: configuration, delivery
      pipeline and shutdown

    A model of [message/infrastructure/nats/subscriber.go].  The
    configuration functions are plain functions on a record.  The methods of
    [StreamingSubscriber] run in goroutines that share the subscriber's
    fields, channels, wait groups and the broker connection; each method is
    written as a program over the operations it performs on that shared
    state, and a machine interleaves the goroutines one operation at a
    time. *)

From Stdlib Require Import ZArith String Lia.
From stdpp Require Import base option list strings.

Open Scope Z_scope.

(** ** Values of the Go program *)

(** A Go [error] value that is not nil; [option error] is a Go [error]. *)
Definition error := string.

(** [errors.New]. *)
Definition errors_New (msg : string) : error := msg.

(** [errors.Wrap]: nil stays nil, a cause is prefixed with the message. *)
Definition errors_Wrap (err : option error) (msg : string) : option error :=
  match err with
  | None => None
  | Some cause => Some (msg +:+ ": " +:+ cause)
  end.

(** [time.Duration] counts nanoseconds in an int64. *)
Definition Duration := Z.
Definition Second : Duration := 1000000000.

(** [context.Context] values the subscriber meets: the background context,
    a scope the caller made (and may cancel), and the children that
    [context.WithCancel] derives.  The nil context is not among them: the
    callers of [Subscribe] are taken to pass a context they made. *)
Inductive Context : Type :=
| Background
| Scope (n : nat)
| WithCancelOf (parent : Context) (uid : nat).

(** [*stan.Msg], the broker's message. *)
Record StanMsg : Type := { Sequence : nat; Data : string }.

(** [*message.Message]. *)
Record Message : Type := { UUID : string; Payload : string; msg_ctx : Context }.

(** [msg.SetContext(ctx)]. *)
Definition SetContext (msg : Message) (ctx : Context) : Message :=
  {| UUID := UUID msg; Payload := Payload msg; msg_ctx := ctx |}.

(** [stan.Option] and [stan.SubscriptionOption]: the options the subscriber
    builds itself, and opaque ones the user passes in. *)
Inductive StanOption : Type :=
| NatsURL (url : string)
| CustomOption (tag : nat).

Inductive SubscriptionOption : Type :=
| SetManualAckMode
| AckWait (t : Duration)
| DurableNameOption (name : string)
| CustomSubscriptionOption (tag : nat).

(** The [Unmarshaler] interface: its one method [Unmarshal]. *)
Definition UnmarshalerT := StanMsg -> Message + error.

(** ** Configuration *)

Record StreamingSubscriberConfig : Type := {
  ClusterID : string;
  ClientID : string;
  QueueGroup : string;
  DurableName : string;
  SubscribersCount : Z;
  CloseTimeout : Duration;
  AckWaitTimeout : Duration;
  StanOptions : list StanOption;
  StanSubscriptionOptions : list SubscriptionOption;
  Unmarshaler : option UnmarshalerT
}.

Definition string_is_empty (s : string) : bool :=
  match s with EmptyString => true | String _ _ => false end.

(** [func (c *StreamingSubscriberConfig) setDefaults()]: the receiver is
    updated in place, here the updated record is returned. *)
Definition setDefaults (c : StreamingSubscriberConfig) : StreamingSubscriberConfig :=
  let count := if SubscribersCount c <=? 0 then 1 else SubscribersCount c in
  let closeT := if CloseTimeout c <=? 0 then Second * 30 else CloseTimeout c in
  let ackT := if AckWaitTimeout c <=? 0 then Second * 30 else AckWaitTimeout c in
  let opts := StanSubscriptionOptions c ++ [SetManualAckMode; AckWait ackT] in
  let opts :=
    if string_is_empty (DurableName c) then opts
    else opts ++ [DurableNameOption (DurableName c)] in
  {| ClusterID := ClusterID c;
     ClientID := ClientID c;
     QueueGroup := QueueGroup c;
     DurableName := DurableName c;
     SubscribersCount := count;
     CloseTimeout := closeT;
     AckWaitTimeout := ackT;
     StanOptions := StanOptions c;
     StanSubscriptionOptions := opts;
     Unmarshaler := Unmarshaler c |}.

(** [func (c *StreamingSubscriberConfig) Validate() error]. *)
Definition Validate (c : StreamingSubscriberConfig) : option error :=
  match Unmarshaler c with
  | None => Some (errors_New "StreamingSubscriberConfig.Unmarshaler is missing")
  | Some _ =>
    if string_is_empty (QueueGroup c) && (1 <? SubscribersCount c)
    then Some (errors_New
      ("to set StreamingSubscriberConfig.SubscribersCount " +:+
       "you need to also set StreamingSubscriberConfig.QueueGroup, " +:+
       "in other case you will receive duplicated messages"))
    else None
  end.

(** ** Operations of a goroutine *)

Definition ChanId := nat.
Definition SubId := nat.

Inductive Level : Type := LTrace | LDebug | LInfo | LError.

(** [watermill.LogFields]. *)
Inductive LogValue : Type := LInt (z : Z) | LStr (s : string).
Definition LogFields := list (string * LogValue).

(** The two wait groups of the subscriber. *)
Inductive WaitGroupName : Type := WgOutputs | WgProcessing.

(** The cases of the three [select] statements. *)
Inductive Branch : Type :=
| BClosing      (* <-s.closing *)
| BCtxDone      (* <-ctx.Done() *)
| BSend         (* output <- msg *)
| BAcked        (* <-msg.Acked() *)
| BNacked       (* <-msg.Nacked() *)
| BTimeout.     (* <-time.After(...) *)

(** What a method hands back to its caller. *)
Inductive Value : Type :=
| VUnit
| VError (err : option error)
| VChan (out : option ChanId) (err : option error)
| VSubscriber (sub : option StreamingSubscriberConfig) (err : option error).

(** One operation on the shared state, indexed by the type of its answer. *)
Inductive Op : Type -> Type :=
(* s.logger *)
| Log (lvl : Level) (msg : string) (err : option error) (fields : LogFields) : Op unit
(* s.subsLock *)
| Lock : Op unit
| Unlock : Op unit
(* s.closed, s.subs *)
| ReadClosed : Op bool
| SetClosed : Op unit
| AppendSub (sub : SubId) : Op unit
(* channels *)
| MakeChan : Op ChanId
| CloseClosing : Op unit
| CloseChan (c : ChanId) : Op unit
(* s.outputsWg, s.processingMessagesWg *)
| WgAdd (wg : WaitGroupName) (delta : Z) : Op unit
| WaitGroupTimeout (wg : WaitGroupName) (timeout : Duration) : Op bool
(* select statements *)
| SelectClosingOrDone (ctx : Context) : Op Branch
| SelectSendOrClosing (output : ChanId) (msg : Message) : Op Branch
| SelectResolution (msg : Message) (timeout : Duration) : Op Branch
(* context *)
| WithCancel (parent : Context) : Op Context
| CancelCtx (ctx : Context) : Op unit
(* the broker client *)
| Connect (cluster client : string) (opts : list StanOption) : Op (option error)
| SubClose (sub : SubId) : Op (option error)
| ConnClose : Op (option error)
| Ack (m : StanMsg) : Op (option error)
(* s.config.Unmarshaler *)
| Unmarshal (u : UnmarshalerT) (m : StanMsg) : Op (Message + error)
(* a run-time panic of the goroutine itself *)
| Crash (msg : string) : Op unit.

(** A goroutine: what is left of its body.  [Do o k] performs [o] and goes
    on with [k] applied to the answer, [Go child k] is the [go] statement,
    [StanSubscribe] is [conn.Subscribe] ([qgroup = None]) or
    [conn.QueueSubscribe] with the callback the broker will run. *)
Inductive Proc : Type :=
| Return (v : Value)
| Do {X : Type} (o : Op X) (k : X -> Proc)
| Go (child : Proc) (k : Proc)
| StanSubscribe (topic : string) (qgroup : option string)
    (cb : StanMsg -> Proc) (opts : list SubscriptionOption)
    (k : SubId + error -> Proc).

Declare Scope proc_scope.
Delimit Scope proc_scope with proc.
Bind Scope proc_scope with Proc.

Notation "x <- o ;; k" := (Do o (fun x => k))
  (at level 100, o at next level, right associativity) : proc_scope.
Notation "o ;; k" := (Do o (fun _ => k))
  (at level 100, right associativity) : proc_scope.
Notation "'go' child ;; k" := (Go child k)
  (at level 100, child at next level, right associativity) : proc_scope.

Open Scope proc_scope.

(** ** The shared state *)

(** A subscription as the broker holds it. *)
Record Subscription : Type := {
  sub_topic : string;
  sub_group : option string;
  sub_cb : StanMsg -> Proc;
  sub_opts : list SubscriptionOption;
  sub_open : bool
}.

(** The fields of [StreamingSubscriber] ([subs], [subsLock], [closed],
    [closing], the two wait groups), the channels made so far ([true] once
    closed), the cancelled contexts, and the broker's side of [conn]. *)
Record State : Type := {
  subs : list SubId;
  subsLock : bool;
  closed : bool;
  closing : bool;
  outputsWg : Z;
  processingMessagesWg : Z;
  chans : list bool;
  ctx_next : nat;
  ctx_cancelled : list nat;
  scopes_cancelled : list nat;
  conn_open : bool;
  broker_subs : list Subscription
}.

Definition set_subs (v : list SubId) (s : State) : State :=
  Build_State v (subsLock s) (closed s) (closing s) (outputsWg s)
    (processingMessagesWg s) (chans s) (ctx_next s) (ctx_cancelled s)
    (scopes_cancelled s) (conn_open s) (broker_subs s).

Definition set_subsLock (v : bool) (s : State) : State :=
  Build_State (subs s) v (closed s) (closing s) (outputsWg s)
    (processingMessagesWg s) (chans s) (ctx_next s) (ctx_cancelled s)
    (scopes_cancelled s) (conn_open s) (broker_subs s).

Definition set_closed (v : bool) (s : State) : State :=
  Build_State (subs s) (subsLock s) v (closing s) (outputsWg s)
    (processingMessagesWg s) (chans s) (ctx_next s) (ctx_cancelled s)
    (scopes_cancelled s) (conn_open s) (broker_subs s).

Definition set_closing (v : bool) (s : State) : State :=
  Build_State (subs s) (subsLock s) (closed s) v (outputsWg s)
    (processingMessagesWg s) (chans s) (ctx_next s) (ctx_cancelled s)
    (scopes_cancelled s) (conn_open s) (broker_subs s).

Definition set_outputsWg (v : Z) (s : State) : State :=
  Build_State (subs s) (subsLock s) (closed s) (closing s) v
    (processingMessagesWg s) (chans s) (ctx_next s) (ctx_cancelled s)
    (scopes_cancelled s) (conn_open s) (broker_subs s).

Definition set_processingMessagesWg (v : Z) (s : State) : State :=
  Build_State (subs s) (subsLock s) (closed s) (closing s) (outputsWg s) v
    (chans s) (ctx_next s) (ctx_cancelled s) (scopes_cancelled s)
    (conn_open s) (broker_subs s).

Definition set_chans (v : list bool) (s : State) : State :=
  Build_State (subs s) (subsLock s) (closed s) (closing s) (outputsWg s)
    (processingMessagesWg s) v (ctx_next s) (ctx_cancelled s)
    (scopes_cancelled s) (conn_open s) (broker_subs s).

Definition set_ctx_next (v : nat) (s : State) : State :=
  Build_State (subs s) (subsLock s) (closed s) (closing s) (outputsWg s)
    (processingMessagesWg s) (chans s) v (ctx_cancelled s)
    (scopes_cancelled s) (conn_open s) (broker_subs s).

Definition set_ctx_cancelled (v : list nat) (s : State) : State :=
  Build_State (subs s) (subsLock s) (closed s) (closing s) (outputsWg s)
    (processingMessagesWg s) (chans s) (ctx_next s) v (scopes_cancelled s)
    (conn_open s) (broker_subs s).

Definition set_scopes_cancelled (v : list nat) (s : State) : State :=
  Build_State (subs s) (subsLock s) (closed s) (closing s) (outputsWg s)
    (processingMessagesWg s) (chans s) (ctx_next s) (ctx_cancelled s) v
    (conn_open s) (broker_subs s).

Definition set_conn_open (v : bool) (s : State) : State :=
  Build_State (subs s) (subsLock s) (closed s) (closing s) (outputsWg s)
    (processingMessagesWg s) (chans s) (ctx_next s) (ctx_cancelled s)
    (scopes_cancelled s) v (broker_subs s).

Definition set_broker_subs (v : list Subscription) (s : State) : State :=
  Build_State (subs s) (subsLock s) (closed s) (closing s) (outputsWg s)
    (processingMessagesWg s) (chans s) (ctx_next s) (ctx_cancelled s)
    (scopes_cancelled s) (conn_open s) v.

(** A freshly constructed subscriber: nothing subscribed, the connection
    open, [closing] made and not closed. *)
Definition initial_state : State :=
  {| subs := []; subsLock := false; closed := false; closing := false;
     outputsWg := 0; processingMessagesWg := 0; chans := [];
     ctx_next := 0%nat; ctx_cancelled := []; scopes_cancelled := [];
     conn_open := true; broker_subs := [] |}.

(** [<-ctx.Done()] is ready: the context or one of its ancestors is
    cancelled. *)
Fixpoint ctx_done (s : State) (ctx : Context) : bool :=
  match ctx with
  | Background => false
  | Scope n => bool_decide (n ∈ scopes_cancelled s)
  | WithCancelOf parent uid =>
    bool_decide (uid ∈ ctx_cancelled s) || ctx_done s parent
  end.

(** The cancel function of a context. *)
Definition cancel (ctx : Context) (s : State) : State :=
  match ctx with
  | Background => s
  | Scope n => set_scopes_cancelled (n :: scopes_cancelled s) s
  | WithCancelOf _ uid => set_ctx_cancelled (uid :: ctx_cancelled s) s
  end.

Definition wg_counter (wg : WaitGroupName) (s : State) : Z :=
  match wg with
  | WgOutputs => outputsWg s
  | WgProcessing => processingMessagesWg s
  end.

Definition set_wg_counter (wg : WaitGroupName) (v : Z) (s : State) : State :=
  match wg with
  | WgOutputs => set_outputsWg v s
  | WgProcessing => set_processingMessagesWg v s
  end.

(** ** One step of a goroutine *)

(** What the world outside the goroutine contributes to the step: nothing,
    the failure of an external call, or the case of a [select] that fires
    (the consumer receiving, acking or nacking, a timer). *)
Inductive Resp : Type :=
| Proceed
| Fail (e : error)
| Pick (b : Branch).

(** What a step leaves in the log of the run. *)
Inductive Event : Type :=
| EvLog (lvl : Level) (msg : string) (err : option error) (fields : LogFields)
| EvLock
| EvUnlock
| EvReadClosed (b : bool)
| EvSetClosed
| EvAppendSub (sub : SubId)
| EvMakeChan (c : ChanId)
| EvCloseClosing
| EvCloseChan (c : ChanId)
| EvWgAdd (wg : WaitGroupName) (delta : Z)
| EvWaitGroupTimeout (wg : WaitGroupName) (timeout : Duration) (timedOut : bool)
| EvUnblocked (ctx : Context) (b : Branch)
| EvSelect (b : Branch)
| EvSend (c : ChanId) (msg : Message)
| EvWithCancel (ctx : Context)
| EvCancelCtx (ctx : Context)
| EvConnect (cluster client : string) (opts : list StanOption) (res : option error)
| EvSubscribe (topic : string) (qgroup : option string) (res : SubId + error)
| EvSubClose (sub : SubId) (res : option error)
| EvConnClose (res : option error)
| EvAck (m : StanMsg) (res : option error)
| EvUnmarshal (m : StanMsg) (res : Message + error)
| EvGo.

Inductive Outcome (X : Type) : Type :=
| Blocked
| Crashed (msg : string)
| Done (x : X) (s : State) (ev : Event).
Arguments Blocked {X}.
Arguments Crashed {X} msg.
Arguments Done {X} x s ev.

(** An external call returns the error the world chose, or succeeds. *)
Definition call_result (r : Resp) : option error :=
  match r with Fail e => Some e | _ => None end.

(** Modelled from the spec: [internalSync.WaitGroupTimeout] of the package
    [internal/sync] is not among the sources.  The spec has [Close] "wait,
    bounded by the configured close timeout, for all output-stream watchers
    to finish" and, "if the bound elapses first, proceed anyway".  The wait
    is over ([false]) once the counter is zero; the bound elapsing ends it
    with [true]; otherwise the caller stays blocked. *)
Definition WaitGroupTimeout_result (counter : Z) (r : Resp) : option bool :=
  match r with
  | Pick BTimeout => Some true
  | _ => if counter =? 0 then Some false else None
  end.

Definition close_sub (sub : SubId) (s : State) : State :=
  match broker_subs s !! sub with
  | Some b =>
    set_broker_subs
      (<[sub := {| sub_topic := sub_topic b; sub_group := sub_group b;
                   sub_cb := sub_cb b; sub_opts := sub_opts b;
                   sub_open := false |}]> (broker_subs s)) s
  | None => s
  end.

(** What one operation does to the shared state.  The logger is taken to
    be a working one, not nil, so that logging always goes through.  What a
    failed [conn.Close] leaves of the connection is the client library's
    affair: here the connection stays as it was and the broker may go on
    delivering, which leaves out no run of the subscriber. *)
Definition exec_op {X : Type} (o : Op X) (r : Resp) (s : State) : Outcome X :=
  match o in Op X return Outcome X with
  | Log lvl msg err fields => Done tt s (EvLog lvl msg err fields)
  | Lock =>
    if subsLock s then Blocked else Done tt (set_subsLock true s) EvLock
  | Unlock =>
    if subsLock s then Done tt (set_subsLock false s) EvUnlock
    else Crashed "sync: unlock of unlocked mutex"
  | ReadClosed => Done (closed s) s (EvReadClosed (closed s))
  | SetClosed => Done tt (set_closed true s) EvSetClosed
  | AppendSub sub => Done tt (set_subs (subs s ++ [sub]) s) (EvAppendSub sub)
  | MakeChan =>
    let c := length (chans s) in
    Done c (set_chans (chans s ++ [false]) s) (EvMakeChan c)
  | CloseClosing =>
    if closing s then Crashed "close of closed channel"
    else Done tt (set_closing true s) EvCloseClosing
  | CloseChan c =>
    match chans s !! c with
    | Some false => Done tt (set_chans (<[c := true]> (chans s)) s) (EvCloseChan c)
    | Some true => Crashed "close of closed channel"
    | None => Crashed "close of nil channel"
    end
  | WgAdd wg delta =>
    let v := wg_counter wg s + delta in
    if v <? 0 then Crashed "sync: negative WaitGroup counter"
    else Done tt (set_wg_counter wg v s) (EvWgAdd wg delta)
  | WaitGroupTimeout wg timeout =>
    match WaitGroupTimeout_result (wg_counter wg s) r with
    | Some timedOut => Done timedOut s (EvWaitGroupTimeout wg timeout timedOut)
    | None => Blocked
    end
  | SelectClosingOrDone ctx =>
    match r with
    | Pick BClosing =>
      if closing s then Done BClosing s (EvUnblocked ctx BClosing) else Blocked
    | Pick BCtxDone =>
      if ctx_done s ctx then Done BCtxDone s (EvUnblocked ctx BCtxDone) else Blocked
    | _ => Blocked
    end
  | SelectSendOrClosing output msg =>
    match r with
    | Pick BSend =>
      match chans s !! output with
      | Some false => Done BSend s (EvSend output msg)
      | Some true => Crashed "send on closed channel"
      | None => Blocked
      end
    | Pick BClosing => if closing s then Done BClosing s (EvSelect BClosing) else Blocked
    | _ => Blocked
    end
  | SelectResolution msg timeout =>
    match r with
    | Pick BAcked => Done BAcked s (EvSelect BAcked)
    | Pick BNacked => Done BNacked s (EvSelect BNacked)
    | Pick BTimeout => Done BTimeout s (EvSelect BTimeout)
    | Pick BClosing => if closing s then Done BClosing s (EvSelect BClosing) else Blocked
    | _ => Blocked
    end
  | WithCancel parent =>
    let ctx := WithCancelOf parent (ctx_next s) in
    Done ctx (set_ctx_next (S (ctx_next s)) s) (EvWithCancel ctx)
  | CancelCtx ctx => Done tt (cancel ctx s) (EvCancelCtx ctx)
  | Connect cluster client opts =>
    Done (call_result r) s (EvConnect cluster client opts (call_result r))
  | SubClose sub =>
    match call_result r with
    | Some e => Done (Some e) s (EvSubClose sub (Some e))
    | None => Done None (close_sub sub s) (EvSubClose sub None)
    end
  | ConnClose =>
    match call_result r with
    | Some e => Done (Some e) s (EvConnClose (Some e))
    | None => Done None (set_conn_open false s) (EvConnClose None)
    end
  | Ack m => Done (call_result r) s (EvAck m (call_result r))
  | Unmarshal u m => Done (u m) s (EvUnmarshal m (u m))
  | Crash msg => Crashed msg
  end.

Inductive ThreadOutcome : Type :=
| TBlocked
| TCrashed (msg : string)
| TStepped (s : State) (p : Proc) (spawned : list Proc) (ev : Event).

(** One step of the goroutine whose remaining body is [p]. *)
Definition exec (r : Resp) (s : State) (p : Proc) : ThreadOutcome :=
  match p with
  | Return _ => TBlocked
  | Do o k =>
    match exec_op o r s with
    | Blocked => TBlocked
    | Crashed msg => TCrashed msg
    | Done x s' ev => TStepped s' (k x) [] ev
    end
  | Go child k => TStepped s k [child] EvGo
  | StanSubscribe topic qgroup cb opts k =>
    match call_result r with
    | Some e => TStepped s (k (inr e)) [] (EvSubscribe topic qgroup (inr e))
    | None =>
      let sub := length (broker_subs s) in
      let b := {| sub_topic := topic; sub_group := qgroup; sub_cb := cb;
                  sub_opts := opts; sub_open := true |} in
      TStepped (set_broker_subs (broker_subs s ++ [b]) s) (k (inl sub)) []
               (EvSubscribe topic qgroup (inl sub))
    end
  end.

(** What a logged operation did to the shared state, and what the state
    must have been for it to happen; [exec_op] is read back through these
    two in the proofs. *)
Definition apply_event (ev : Event) (s : State) : State :=
  match ev with
  | EvLock => set_subsLock true s
  | EvUnlock => set_subsLock false s
  | EvSetClosed => set_closed true s
  | EvAppendSub sub => set_subs (subs s ++ [sub]) s
  | EvMakeChan _ => set_chans (chans s ++ [false]) s
  | EvCloseClosing => set_closing true s
  | EvCloseChan c => set_chans (<[c := true]> (chans s)) s
  | EvWgAdd wg delta => set_wg_counter wg (wg_counter wg s + delta) s
  | EvWithCancel _ => set_ctx_next (S (ctx_next s)) s
  | EvCancelCtx ctx => cancel ctx s
  | EvSubClose sub None => close_sub sub s
  | EvConnClose None => set_conn_open false s
  | _ => s
  end.

Definition enabled (ev : Event) (s : State) : Prop :=
  match ev with
  | EvLock => subsLock s = false
  | EvUnlock => subsLock s = true
  | EvReadClosed b => b = closed s
  | EvMakeChan c => c = length (chans s)
  | EvCloseClosing => closing s = false
  | EvCloseChan c => chans s !! c = Some false
  | EvWgAdd wg delta => 0 <= wg_counter wg s + delta
  | EvWaitGroupTimeout wg _ timedOut =>
    timedOut = false -> wg_counter wg s = 0
  | EvUnblocked ctx b =>
    (b = BClosing /\ closing s = true) \/ (b = BCtxDone /\ ctx_done s ctx = true)
  | EvSelect b => b = BClosing -> closing s = true
  | EvSend c _ => chans s !! c = Some false
  | EvWithCancel ctx => exists parent, ctx = WithCancelOf parent (ctx_next s)
  | _ => True
  end.

(** ** The methods of [StreamingSubscriber] *)

(** [NewStreamingSubscriber]; the subscriber it builds is its configuration
    over [initial_state]. *)
Definition NewStreamingSubscriber (config : StreamingSubscriberConfig) : Proc :=
  let config := setDefaults config in
  match Validate config with
  | Some err => Return (VSubscriber None (Some err))
  | None =>
    err <- Connect (ClusterID config) (ClientID config) (StanOptions config) ;;
    match err with
    | Some e =>
      Return (VSubscriber None (errors_Wrap (Some e) "cannot connect to NATS"))
    | None => Return (VSubscriber (Some config) None)
    end
  end.

(** [processMessage], the body of the callback given to the broker.  The
    two deferred calls run, last registered first, on every return after
    their [defer] statement. *)
Definition processMessage (cfg : StreamingSubscriberConfig) (ctx : Context)
    (m : StanMsg) (output : ChanId) (logFields : LogFields) : Proc :=
  isClosed <- ReadClosed ;;
  if isClosed then Return VUnit else
  WgAdd WgProcessing 1 ;;
  let deferred_Done := (WgAdd WgProcessing (-1) ;; Return VUnit) in
  Log LTrace "Received message" None logFields ;;
  match Unmarshaler cfg with
  | None =>
    Crash "runtime error: invalid memory address or nil pointer dereference" ;;
    deferred_Done
  | Some unmarshaler =>
    res <- Unmarshal unmarshaler m ;;
    match res with
    | inr err =>
      Log LError "Cannot unmarshal message" (Some err) logFields ;;
      deferred_Done
    | inl msg =>
      ctx' <- WithCancel ctx ;;
      let msg := SetContext msg ctx' in
      let deferred_cancelCtx := (CancelCtx ctx' ;; deferred_Done) in
      let messageLogFields := logFields ++ [("message_uuid", LStr (UUID msg))] in
      Log LTrace "Unmarshaled message" None messageLogFields ;;
      fired <- SelectSendOrClosing output msg ;;
      match fired with
      | BSend =>
        Log LTrace "Message sent to consumer" None messageLogFields ;;
        fired <- SelectResolution msg (AckWaitTimeout cfg) ;;
        match fired with
        | BAcked =>
          err <- Ack m ;;
          match err with
          | Some e =>
            Log LError "Cannot send ack" (Some e) messageLogFields ;;
            Log LTrace "Message Acked" None messageLogFields ;;
            deferred_cancelCtx
          | None =>
            Log LTrace "Message Acked" None messageLogFields ;;
            deferred_cancelCtx
          end
        | BNacked =>
          Log LTrace "Message Nacked" None messageLogFields ;;
          deferred_cancelCtx
        | BTimeout =>
          Log LTrace "Ack timeouted" None messageLogFields ;;
          deferred_cancelCtx
        | _ =>
          Log LTrace "Closing, message discarded before ack" None messageLogFields ;;
          deferred_cancelCtx
        end
      | _ =>
        Log LTrace "Closing, message discarded" None messageLogFields ;;
        deferred_cancelCtx
      end
    end
  end.

(** [subscribe]: the broker call, queue or plain; [k] is what the caller
    does with the two results. *)
Definition subscribe (cfg : StreamingSubscriberConfig) (ctx : Context)
    (output : ChanId) (topic : string) (subscriberLogFields : LogFields)
    (k : SubId + error -> Proc) : Proc :=
  if negb (string_is_empty (QueueGroup cfg)) then
    StanSubscribe topic (Some (QueueGroup cfg))
      (fun m => processMessage cfg ctx m output subscriberLogFields)
      (StanSubscriptionOptions cfg) k
  else
    StanSubscribe topic None
      (fun m => processMessage cfg ctx m output subscriberLogFields)
      (StanSubscriptionOptions cfg) k.

(** The goroutine that [Subscribe] starts after each successful broker
    call. *)
Definition watcher (sub : SubId) (ctx : Context) (output : ChanId)
    (subscriberLogFields : LogFields) : Proc :=
  SelectClosingOrDone ctx ;;
  err <- SubClose sub ;;
  match err with
  | Some e =>
    Log LError "Cannot close subscriber" (Some e) subscriberLogFields ;;
    CloseChan output ;;
    WgAdd WgOutputs (-1) ;;
    Return VUnit
  | None =>
    CloseChan output ;;
    WgAdd WgOutputs (-1) ;;
    Return VUnit
  end.

(** The [for] loop of [Subscribe] from index [i], with [todo] iterations
    left. *)
Fixpoint Subscribe_loop (cfg : StreamingSubscriberConfig) (ctx : Context)
    (topic : string) (output : ChanId) (todo : nat) (i : Z) : Proc :=
  match todo with
  | O => Return (VChan (Some output) None)
  | S todo' =>
    let subscriberLogFields := [("subscriber_num", LInt i); ("topic", LStr topic)] in
    Log LDebug "Starting subscriber" None subscriberLogFields ;;
    subscribe cfg ctx output topic subscriberLogFields (fun res =>
      match res with
      | inr err => Return (VChan None (errors_Wrap (Some err) "cannot subscribe"))
      | inl sub =>
        go watcher sub ctx output subscriberLogFields ;;
        Lock ;;
        AppendSub sub ;;
        Unlock ;;
        Subscribe_loop cfg ctx topic output todo' (i + 1)
      end)
  end.

(** [Subscribe]. *)
Definition Subscribe (cfg : StreamingSubscriberConfig) (ctx : Context)
    (topic : string) : Proc :=
  output <- MakeChan ;;
  WgAdd WgOutputs 1 ;;
  Subscribe_loop cfg ctx topic output (Z.to_nat (SubscribersCount cfg)) 0.

(** [SubscribeInitialize]. *)
Definition SubscribeInitialize (cfg : StreamingSubscriberConfig)
    (topic : string) : Proc :=
  output <- MakeChan ;;
  subscribe cfg Background output topic [] (fun res =>
    match res with
    | inr err => Return (VError (errors_Wrap (Some err) "cannot initialize subscribe"))
    | inl sub =>
      err <- SubClose sub ;;
      Return (VError (errors_Wrap err "cannot close after subscribe initialize"))
    end).

(** [Close]: [Unlock] is deferred first and so runs last; the [Info] line
    is deferred only once the call got past the [closed] test. *)
Definition Close (cfg : StreamingSubscriberConfig) : Proc :=
  Lock ;;
  isClosed <- ReadClosed ;;
  if isClosed then (Unlock ;; Return (VError None)) else
  SetClosed ;;
  Log LDebug "Closing subscriber" None [] ;;
  let deferred result :=
    (Log LInfo "StreamingSubscriber closed" None [] ;;
     Unlock ;;
     Return (VError result)) in
  let result : option error := None in
  CloseClosing ;;
  _ <- WaitGroupTimeout WgOutputs (CloseTimeout cfg) ;;
  err <- ConnClose ;;
  match err with
  | Some e => deferred (errors_Wrap (Some e) "cannot close conn")
  | None => deferred result
  end.

(** ** The machine: goroutines interleaved *)

(** A call the application makes on the subscriber. *)
Inductive Method : Type :=
| CallSubscribe (ctx : Context) (topic : string)
| CallSubscribeInitialize (topic : string)
| CallClose.

Definition method_body (cfg : StreamingSubscriberConfig) (c : Method) : Proc :=
  match c with
  | CallSubscribe ctx topic => Subscribe cfg ctx topic
  | CallSubscribeInitialize topic => SubscribeInitialize cfg topic
  | CallClose => Close cfg
  end.

(** How a goroutine came to run: the application called a method, another
    goroutine ran a [go] statement, or the broker ran the callback of a
    subscription on a message. *)
Inductive Entry : Type :=
| EntryCall (c : Method)
| EntryGo (parent : nat)
| EntryCallback (sub : SubId) (m : StanMsg).

Record Goroutine : Type := { entry : Entry; body : Proc }.

(** The goroutines by number, the log of the run with the goroutine of each
    entry, and the panic that ended the program, if any. *)
Record Machine : Type := {
  store : State;
  pool : list Goroutine;
  trace : list (nat * Event);
  panicked : option string
}.

Definition boot : Machine :=
  {| store := initial_state; pool := []; trace := []; panicked := None |}.

Inductive Action : Type :=
| Call (c : Method)                (* the application calls a method, in a goroutine *)
| CancelScope (n : nat)            (* the caller cancels the scope it passed *)
| Deliver (sub : SubId) (m : StanMsg)   (* the broker runs a subscription's callback *)
| Step (tid : nat) (r : Resp).     (* goroutine [tid] performs its next operation *)

Definition spawn (e : Entry) (p : Proc) (m : Machine) : Machine :=
  {| store := store m; pool := pool m ++ [{| entry := e; body := p |}];
     trace := trace m; panicked := panicked m |}.

(** One action of the machine; [None] when the action cannot happen.  A
    panic in any goroutine ends the program. *)
Definition step (cfg : StreamingSubscriberConfig) (a : Action) (m : Machine)
    : option Machine :=
  match panicked m with
  | Some _ => None
  | None =>
    match a with
    | Call c => Some (spawn (EntryCall c) (method_body cfg c) m)
    | CancelScope n =>
      Some {| store := cancel (Scope n) (store m); pool := pool m;
              trace := trace m; panicked := None |}
    | Deliver sub msg =>
      match broker_subs (store m) !! sub with
      | Some b =>
        if sub_open b && conn_open (store m)
        then Some (spawn (EntryCallback sub msg) (sub_cb b msg) m) else None
      | None => None
      end
    | Step tid r =>
      match pool m !! tid with
      | None => None
      | Some g =>
        match exec r (store m) (body g) with
        | TBlocked => None
        | TCrashed msg =>
          Some {| store := store m; pool := pool m; trace := trace m;
                  panicked := Some msg |}
        | TStepped s' p' spawned ev =>
          Some {| store := s';
                  pool := <[tid := {| entry := entry g; body := p' |}]> (pool m)
                          ++ ((fun c => {| entry := EntryGo tid; body := c |}) <$> spawned);
                  trace := trace m ++ [(tid, ev)];
                  panicked := None |}
        end
      end
    end
  end.

Fixpoint run (cfg : StreamingSubscriberConfig) (acts : list Action)
    (m : Machine) : option Machine :=
  match acts with
  | [] => Some m
  | a :: acts' =>
    match step cfg a m with
    | Some m' => run cfg acts' m'
    | None => None
    end
  end.

(** The log entries of one goroutine. *)
Definition events_of (tid : nat) (tr : list (nat * Event)) : list Event :=
  snd <$> filter (fun te => fst te = tid) tr.

(** ** One goroutine on its own *)

(** The goroutine takes its steps one by one while the rest of the program
    does what it likes in between: each step is given the answer of the
    world and the shared state of that moment.  The result is the log of
    the goroutine and what is left of its body. *)
Fixpoint run_goroutine (steps : list (Resp * State)) (p : Proc)
    : option (list Event * Proc) :=
  match steps with
  | [] => Some ([], p)
  | (r, s) :: steps' =>
    match exec r s p with
    | TStepped _ p' _ ev =>
      match run_goroutine steps' p' with
      | Some (evs, q) => Some (ev :: evs, q)
      | None => None
      end
    | _ => None
    end
  end.

(** The messages a goroutine put up for delivery in such a run: the operand
    of each [output <- msg] case of a [select] it came to and got past,
    whichever case fired. *)
Definition offer_of (p : Proc) : list (ChanId * Message) :=
  match p with
  | Do o _ =>
    match o with
    | SelectSendOrClosing output msg => [(output, msg)]
    | _ => []
    end
  | _ => []
  end.

Fixpoint offered (steps : list (Resp * State)) (p : Proc)
    : list (ChanId * Message) :=
  match steps with
  | [] => []
  | (r, s) :: steps' =>
    match exec r s p with
    | TStepped _ p' _ _ => offer_of p ++ offered steps' p'
    | _ => []
    end
  end.

(** Counting in a log. *)
Definition is_ack (ev : Event) : bool :=
  match ev with EvAck _ _ => true | _ => false end.
Definition is_send (ev : Event) : bool :=
  match ev with EvSend _ _ => true | _ => false end.
Definition is_conn_close (ev : Event) : bool :=
  match ev with EvConnClose _ => true | _ => false end.
Definition is_close_chan (c : ChanId) (ev : Event) : bool :=
  match ev with EvCloseChan c' => bool_decide (c' = c) | _ => false end.

Definition count (f : Event -> bool) (evs : list Event) : nat :=
  length (filter (fun ev => f ev = true) evs).

Definition is_select (ev : Event) : bool :=
  match ev with EvSelect _ => true | _ => false end.

(** The broker acks, the sends on an output channel and the [select] cases
    fired in a log, in order. *)
Definition acks (evs : list Event) : list Event :=
  filter (fun ev => is_ack ev = true) evs.
Definition sends (evs : list Event) : list Event :=
  filter (fun ev => is_send ev = true) evs.
Definition selects (evs : list Event) : list Event :=
  filter (fun ev => is_select ev = true) evs.

Definition is_outputs_add (ev : Event) : bool :=
  match ev with EvWgAdd WgOutputs _ => true | _ => false end.

(** The [Add] and [Done] calls on the outputs wait group in a log. *)
Definition outputs_adds (evs : list Event) : list Event :=
  filter (fun ev => is_outputs_add ev = true) evs.

(** ** Sample data *)

(** An unmarshaler that rejects the empty payload. *)
Definition sample_unmarshaler : UnmarshalerT :=
  fun m =>
    if string_is_empty (Data m) then inr "empty payload"
    else inl {| UUID := "uuid"; Payload := Data m; msg_ctx := Background |}.

(** A configuration as a user writes it: everything unset but the
    identities, the queue group, the durable name and the unmarshaler. *)
Definition sample_config (workers : Z) (group : string) : StreamingSubscriberConfig :=
  {| ClusterID := "cluster"; ClientID := "client"; QueueGroup := group;
     DurableName := "durable"; SubscribersCount := workers;
     CloseTimeout := 0; AckWaitTimeout := 0; StanOptions := [];
     StanSubscriptionOptions := [CustomSubscriptionOption 7];
     Unmarshaler := Some sample_unmarshaler |}.

Definition good_msg : StanMsg := {| Sequence := 1; Data := "payload" |}.
Definition bad_msg : StanMsg := {| Sequence := 2; Data := "" |}.

(** ** The machine's moves, one constructor per kind of move *)

Definition update (tid : nat) (g : Goroutine) (p : Proc) (l : list Goroutine)
    : list Goroutine :=
  <[tid := {| entry := entry g; body := p |}]> l.

Inductive transition (cfg : StreamingSubscriberConfig) (m : Machine)
    : Machine -> Prop :=
| T_call c :
  transition cfg m (spawn (EntryCall c) (method_body cfg c) m)
| T_cancel n :
  transition cfg m
    {| store := cancel (Scope n) (store m); pool := pool m;
       trace := trace m; panicked := None |}
| T_deliver sub msg b :
  broker_subs (store m) !! sub = Some b ->
  sub_open b = true ->
  conn_open (store m) = true ->
  transition cfg m (spawn (EntryCallback sub msg) (sub_cb b msg) m)
| T_crash tid g r msg :
  pool m !! tid = Some g ->
  exec r (store m) (body g) = TCrashed msg ->
  transition cfg m
    {| store := store m; pool := pool m; trace := trace m;
       panicked := Some msg |}
| T_do tid g X (o : Op X) k r x s' ev :
  pool m !! tid = Some g ->
  body g = Do o k ->
  exec_op o r (store m) = Done x s' ev ->
  transition cfg m
    {| store := s'; pool := update tid g (k x) (pool m);
       trace := trace m ++ [(tid, ev)]; panicked := None |}
| T_go tid g child k :
  pool m !! tid = Some g ->
  body g = Go child k ->
  transition cfg m
    {| store := store m;
       pool := update tid g k (pool m) ++ [{| entry := EntryGo tid; body := child |}];
       trace := trace m ++ [(tid, EvGo)]; panicked := None |}
| T_subscribe_fail tid g topic qgroup cb opts k e :
  pool m !! tid = Some g ->
  body g = StanSubscribe topic qgroup cb opts k ->
  transition cfg m
    {| store := store m; pool := update tid g (k (inr e)) (pool m);
       trace := trace m ++ [(tid, EvSubscribe topic qgroup (inr e))];
       panicked := None |}
| T_subscribe_ok tid g topic qgroup cb opts k :
  pool m !! tid = Some g ->
  body g = StanSubscribe topic qgroup cb opts k ->
  transition cfg m
    {| store :=
         set_broker_subs
           (broker_subs (store m)
            ++ [{| sub_topic := topic; sub_group := qgroup; sub_cb := cb;
                   sub_opts := opts; sub_open := true |}]) (store m);
       pool := update tid g (k (inl (length (broker_subs (store m))))) (pool m);
       trace := trace m
                ++ [(tid, EvSubscribe topic qgroup
                            (inl (length (broker_subs (store m)))))];
       panicked := None |}.

(** ** Where goroutines come from *)

(** Callbacks handed to the broker are [processMessage] closures, and [go]
    only ever starts a watcher. *)
Definition is_callback (cfg : StreamingSubscriberConfig) (cb : StanMsg -> Proc) : Prop :=
  exists ctx out fields, cb = fun m => processMessage cfg ctx m out fields.

Definition is_watcher (p : Proc) : Prop :=
  exists sub ctx out fields, p = watcher sub ctx out fields.

Fixpoint wf_body (cfg : StreamingSubscriberConfig) (p : Proc) : Prop :=
  match p with
  | Return _ => True
  | Do o k => forall x, wf_body cfg (k x)
  | Go child k => is_watcher child /\ wf_body cfg k
  | StanSubscribe _ _ cb _ k => is_callback cfg cb /\ forall res, wf_body cfg (k res)
  end.

Definition started_as (cfg : StreamingSubscriberConfig) (e : Entry) (p0 : Proc) : Prop :=
  match e with
  | EntryCall c => p0 = method_body cfg c
  | EntryGo _ => is_watcher p0
  | EntryCallback _ msg => exists ctx out fields, p0 = processMessage cfg ctx msg out fields
  end.

(** Every goroutine's log is a run of the program it started as, and its
    body is what that run left. *)
Definition history_inv (cfg : StreamingSubscriberConfig) (m : Machine) : Prop :=
  (forall tid ev, (tid, ev) ∈ trace m -> (tid < length (pool m))%nat) /\
  (forall b, b ∈ broker_subs (store m) -> is_callback cfg (sub_cb b)) /\
  (forall tid g, pool m !! tid = Some g ->
     wf_body cfg (body g) /\
     exists p0 steps,
       started_as cfg (entry g) p0 /\
       run_goroutine steps p0 = Some (events_of tid (trace m), body g)).

Definition topic_acts : list Action :=
  Call (CallSubscribe (Scope 0) "topic") :: replicate 8 (Step 0 Proceed).

(** One worker subscribes, the broker delivers a message, the consumer
    receives it and acks. *)
Definition acked_acts : list Action :=
  topic_acts ++ [Deliver 0%nat good_msg] ++ replicate 6 (Step 2 Proceed)
  ++ [Step 2 (Pick BSend); Step 2 Proceed; Step 2 (Pick BAcked)]
  ++ replicate 4 (Step 2 Proceed).

(** The same with a message the unmarshaler rejects. *)
Definition rejected_acts : list Action :=
  topic_acts ++ [Deliver 0%nat bad_msg] ++ replicate 6 (Step 2 Proceed).

(** [Close] called on a fresh subscriber and run to its end. *)
Definition close_acts : list Action :=
  Call CallClose :: replicate 9 (Step 0 Proceed).

(** The subscribers of the sample runs: one worker and no queue group,
    and two workers in a queue group. *)
Definition one_worker : StreamingSubscriberConfig := setDefaults (sample_config 1 "").
Definition two_workers : StreamingSubscriberConfig := setDefaults (sample_config 2 "group").

(** A [Subscribe] call gets through two turns of its loop; the caller
    cancels the scope; the watcher of each of the two workers wakes up,
    closes its subscription and goes on to close the output channel. *)
Definition double_close_acts : list Action :=
  Call (CallSubscribe (Scope 0) "topic") :: replicate 14 (Step 0 Proceed)
  ++ [CancelScope 0]
  ++ [Step 1 (Pick BCtxDone); Step 1 Proceed; Step 1 Proceed]
  ++ [Step 2 (Pick BCtxDone); Step 2 Proceed; Step 2 Proceed].

(** One worker is subscribed and has a message at the point of handing it
    to the consumer; the caller cancels the scope and the watcher closes the
    output channel; then the consumer is ready to receive. *)
Definition send_after_close_acts (msg : StanMsg) : list Action :=
  Call (CallSubscribe (Scope 0) "topic") :: replicate 8 (Step 0 Proceed)
  ++ [Deliver 0%nat msg] ++ replicate 6 (Step 2 Proceed)
  ++ [CancelScope 0]
  ++ [Step 1 (Pick BCtxDone); Step 1 Proceed; Step 1 Proceed]
  ++ [Step 2 (Pick BSend)].

(** A [Subscribe] call whose first broker call fails. *)
Definition failed_first_acts : list Action :=
  Call (CallSubscribe (Scope 0) "topic") :: replicate 3 (Step 0 Proceed)
  ++ [Step 0 (Fail "no broker")].

(** [Close] afterwards: at the wait only the timer can fire. *)
Definition close_after_failure_acts : list Action :=
  Call CallClose :: replicate 5 (Step 1 Proceed)
  ++ [Step 1 (Pick BTimeout)] ++ replicate 3 (Step 1 Proceed).

(** A second [Close] after that one. *)
Definition close_again_acts : list Action :=
  Call CallClose :: replicate 3 (Step 2 Proceed).

(** The machine a list of actions leaves, from [boot]. *)
Definition machine_after (cfg : StreamingSubscriberConfig) (acts : list Action) : Machine :=
  default boot (run cfg acts boot).

(** ** Invariants of the machine *)

(** A cancel function that ran has left its context cancelled. *)
Definition cancel_inv (m : Machine) : Prop :=
  forall tid parent uid,
    (tid, EvCancelCtx (WithCancelOf parent uid)) ∈ trace m ->
    uid ∈ ctx_cancelled (store m).

Definition is_close_closing (ev : Event) : bool :=
  match ev with EvCloseClosing => true | _ => false end.

(** [close(s.closing)] ran at most once, and did if the channel is closed. *)
Definition closing_inv (m : Machine) : Prop :=
  count is_close_closing (snd <$> trace m)
  = if closing (store m) then 1%nat else 0%nat.

(** ** Protocols of goroutines *)

(** A protocol sorts goroutines into kinds and says, for a goroutine of a
    kind, which logged operations it may perform and of which kind it is
    afterwards, which kinds a [go] statement gives the child and the parent,
    and in which kinds it may return.  Callbacks and method calls start in
    fixed kinds. *)
Record Protocol (K : Type) : Type := {
  on_event : K -> Event -> option K;
  on_go : K -> option (K * K);
  on_subscribe : K -> SubId + error -> option K;
  of_callback : K;
  of_method : Method -> K;
  may_return : K -> Prop
}.
Arguments on_event {K} _ _ _.
Arguments on_go {K} _ _.
Arguments on_subscribe {K} _ _ _.
Arguments of_callback {K} _.
Arguments of_method {K} _ _.
Arguments may_return {K} _ _.

(** The body [p] of a goroutine of kind [kd] keeps to the protocol, whatever
    the operations answer. *)
Fixpoint follows {K : Type} (P : Protocol K) (kd : K) (p : Proc) : Prop :=
  match p with
  | Return _ => may_return P kd
  | Do o k =>
    forall r s x s' ev, exec_op o r s = Done x s' ev ->
      exists kd', on_event P kd ev = Some kd' /\ follows P kd' (k x)
  | Go child k =>
    exists kc kk, on_go P kd = Some (kc, kk) /\ follows P kc child /\ follows P kk k
  | StanSubscribe _ _ cb _ k =>
    (forall m, follows P (of_callback P) (cb m)) /\
    (forall res, exists kd', on_subscribe P kd res = Some kd' /\ follows P kd' (k res))
  end.

(** An assignment of kinds to the goroutines of a machine. *)
Definition kinded {K : Type} (P : Protocol K) (m : Machine) (kds : list K) : Prop :=
  Forall2 (fun g kd => follows P kd (body g)) (pool m) kds /\
  (forall b msg, b ∈ broker_subs (store m) -> follows P (of_callback P) (sub_cb b msg)).

(** The moves of the machine together with the kinds. *)
Inductive kinded_step {K : Type} (P : Protocol K) (cfg : StreamingSubscriberConfig)
    (m : Machine) (kds : list K) : Machine -> list K -> Prop :=
| KS_call c :
  kinded_step P cfg m kds
    (spawn (EntryCall c) (method_body cfg c) m) (kds ++ [of_method P c])
| KS_cancel n :
  kinded_step P cfg m kds
    {| store := cancel (Scope n) (store m); pool := pool m;
       trace := trace m; panicked := None |} kds
| KS_deliver sub msg b :
  broker_subs (store m) !! sub = Some b ->
  sub_open b = true ->
  conn_open (store m) = true ->
  kinded_step P cfg m kds
    (spawn (EntryCallback sub msg) (sub_cb b msg) m) (kds ++ [of_callback P])
| KS_crash msg :
  kinded_step P cfg m kds
    {| store := store m; pool := pool m; trace := trace m;
       panicked := Some msg |} kds
| KS_do tid g kd kd' ev p' :
  pool m !! tid = Some g ->
  kds !! tid = Some kd ->
  enabled ev (store m) ->
  on_event P kd ev = Some kd' ->
  kinded_step P cfg m kds
    {| store := apply_event ev (store m); pool := update tid g p' (pool m);
       trace := trace m ++ [(tid, ev)]; panicked := None |}
    (<[tid := kd']> kds)
| KS_go tid g kd kc kk child k :
  pool m !! tid = Some g ->
  kds !! tid = Some kd ->
  body g = Go child k ->
  on_go P kd = Some (kc, kk) ->
  kinded_step P cfg m kds
    {| store := store m;
       pool := update tid g k (pool m) ++ [{| entry := EntryGo tid; body := child |}];
       trace := trace m ++ [(tid, EvGo)]; panicked := None |}
    (<[tid := kk]> kds ++ [kc])
| KS_subscribe_fail tid g kd kd' topic qgroup e p' :
  pool m !! tid = Some g ->
  kds !! tid = Some kd ->
  on_subscribe P kd (inr e) = Some kd' ->
  kinded_step P cfg m kds
    {| store := store m; pool := update tid g p' (pool m);
       trace := trace m ++ [(tid, EvSubscribe topic qgroup (inr e))];
       panicked := None |}
    (<[tid := kd']> kds)
| KS_subscribe_ok tid g kd kd' topic qgroup cb opts p' :
  pool m !! tid = Some g ->
  kds !! tid = Some kd ->
  on_subscribe P kd (inl (length (broker_subs (store m)))) = Some kd' ->
  kinded_step P cfg m kds
    {| store :=
         set_broker_subs
           (broker_subs (store m)
            ++ [{| sub_topic := topic; sub_group := qgroup; sub_cb := cb;
                   sub_opts := opts; sub_open := true |}]) (store m);
       pool := update tid g p' (pool m);
       trace := trace m
                ++ [(tid, EvSubscribe topic qgroup
                            (inl (length (broker_subs (store m)))))];
       panicked := None |}
    (<[tid := kd']> kds).

(** How many goroutines have a kind that [f] counts. *)
Fixpoint tally {K : Type} (f : K -> nat) (kds : list K) : nat :=
  match kds with
  | [] => 0%nat
  | kd :: kds' => (f kd + tally f kds')%nat
  end.

(** ** The protocol of the mutex and the [closed] flag *)

Inductive LockKind : Type :=
| LkFree          (* not a Close call, not holding the lock *)
| LkHeld          (* not a Close call, holding the lock *)
| LkCloseCalled   (* a Close call that has not taken the lock yet *)
| LkCloseLocked   (* ... holding the lock, before it tests the flag *)
| LkCloseUnset    (* ... holding the lock, having found the flag unset *)
| LkCloseSet      (* ... holding the lock, having set the flag *)
| LkCloseSeen     (* ... holding the lock, the flag set and the connection closed *)
| LkCloseDone.    (* ... having released the lock *)

Definition lock_on_event (kd : LockKind) (ev : Event) : option LockKind :=
  match kd, ev with
  | LkFree, EvLock => Some LkHeld
  | LkFree, (EvUnlock | EvSetClosed | EvConnClose _) => None
  | LkFree, _ => Some LkFree
  | LkHeld, EvUnlock => Some LkFree
  | LkHeld, (EvLock | EvSetClosed | EvConnClose _) => None
  | LkHeld, _ => Some LkHeld
  | LkCloseCalled, EvLock => Some LkCloseLocked
  | LkCloseLocked, EvReadClosed true => Some LkCloseSeen
  | LkCloseLocked, EvReadClosed false => Some LkCloseUnset
  | LkCloseUnset, EvSetClosed => Some LkCloseSet
  | LkCloseSet, (EvLog _ _ _ _ | EvCloseClosing | EvWaitGroupTimeout _ _ _) =>
    Some LkCloseSet
  | LkCloseSet, EvConnClose _ => Some LkCloseSeen
  | LkCloseSeen, EvLog _ _ _ _ => Some LkCloseSeen
  | LkCloseSeen, EvUnlock => Some LkCloseDone
  | _, _ => None
  end.

Definition lock_protocol : Protocol LockKind :=
  {| on_event := lock_on_event;
     on_go := fun kd => match kd with LkFree => Some (LkFree, LkFree) | _ => None end;
     on_subscribe := fun kd _ => match kd with LkFree => Some LkFree | _ => None end;
     of_callback := LkFree;
     of_method := fun c => match c with CallClose => LkCloseCalled | _ => LkFree end;
     may_return := fun kd => kd = LkFree \/ kd = LkCloseDone |}.

(** Kinds that hold the mutex, and the stages of a [Close] call. *)
Definition lk_holds (kd : LockKind) : nat :=
  match kd with
  | LkHeld | LkCloseLocked | LkCloseUnset | LkCloseSet | LkCloseSeen => 1%nat
  | _ => 0%nat
  end.
Definition lk_locked (kd : LockKind) : nat :=
  match kd with LkCloseLocked => 1%nat | _ => 0%nat end.
Definition lk_unset (kd : LockKind) : nat :=
  match kd with LkCloseUnset => 1%nat | _ => 0%nat end.
Definition lk_set (kd : LockKind) : nat :=
  match kd with LkCloseSet => 1%nat | _ => 0%nat end.
Definition lk_past (kd : LockKind) : nat :=
  match kd with LkCloseSeen | LkCloseDone => 1%nat | _ => 0%nat end.

(** How often [conn.Close] was called. *)
Definition conn_closes (m : Machine) : nat :=
  count is_conn_close (snd <$> trace m).

(** At most one goroutine holds the mutex, and only while it is locked; the
    connection is closed once, by the one [Close] call that set the flag;
    a [Close] call that is past the flag test has seen the connection
    closed. *)
Definition lock_inv (m : Machine) (kds : list LockKind) : Prop :=
  (tally lk_holds kds <= if subsLock (store m) then 1 else 0)%nat /\
  (conn_closes m + tally lk_set kds = if closed (store m) then 1 else 0)%nat /\
  (closed (store m) = true -> tally lk_unset kds = 0%nat) /\
  ((1 <= tally lk_past kds)%nat -> conn_closes m = 1%nat) /\
  (forall tid g kd,
     pool m !! tid = Some g -> kds !! tid = Some kd ->
     entry g = EntryCall CallClose -> kd <> LkFree /\ kd <> LkHeld).

(** [Close] on a fresh subscriber, run to its end, and then [Close] again. *)
Definition close_twice_acts : list Action :=
  close_acts ++ Call CallClose :: replicate 3 (Step 1 Proceed).

(** ** The protocol of the outputs wait group and the output channels *)

Inductive WgKind : Type :=
| WkInert               (* leaves the outputs wait group and the output channels alone *)
| WkCalled              (* a Subscribe call that has not made its channel yet *)
| WkMade (c : ChanId)   (* ... having made channel [c], before [Add(1)] *)
| WkLoop (c : ChanId)   (* ... in its loop or returned, after [Add(1)] *)
| WkWatch (c : ChanId)  (* a watcher that has not closed [c] yet *)
| WkOwes.               (* a watcher that has closed its channel, before [Done()] *)

Definition wg_on_event (cfg : StreamingSubscriberConfig) (kd : WgKind) (ev : Event)
    : option WgKind :=
  match kd, ev with
  | WkInert, (EvCloseChan _ | EvWgAdd WgOutputs _) => None
  | WkInert, EvWaitGroupTimeout wg timeout _ =>
    match wg with
    | WgOutputs => if timeout =? CloseTimeout cfg then Some WkInert else None
    | WgProcessing => None
    end
  | WkInert, _ => Some WkInert
  | WkCalled, EvMakeChan c => Some (WkMade c)
  | WkMade c, EvWgAdd WgOutputs 1 => Some (WkLoop c)
  | WkLoop c, (EvLog _ _ _ _ | EvLock | EvAppendSub _ | EvUnlock) => Some (WkLoop c)
  | WkWatch c, (EvUnblocked _ _ | EvSubClose _ _ | EvLog _ _ _ _) => Some (WkWatch c)
  | WkWatch c, EvCloseChan c' => if bool_decide (c' = c) then Some WkOwes else None
  | WkOwes, EvWgAdd WgOutputs (-1) => Some WkInert
  | _, _ => None
  end.

Definition wg_protocol (cfg : StreamingSubscriberConfig) : Protocol WgKind :=
  {| on_event := wg_on_event cfg;
     on_go := fun kd =>
       match kd with WkLoop c => Some (WkWatch c, WkLoop c) | _ => None end;
     on_subscribe := fun kd _ =>
       match kd with
       | WkInert => Some WkInert
       | WkLoop c => Some (WkLoop c)
       | _ => None
       end;
     of_callback := WkInert;
     of_method := fun c =>
       match c with CallSubscribe _ _ => WkCalled | _ => WkInert end;
     may_return := fun kd => kd = WkInert \/ exists c, kd = WkLoop c |}.

(** The channel in a kind, and the kinds of the call that made it. *)
Definition wk_chan (kd : WgKind) : option ChanId :=
  match kd with
  | WkMade c | WkLoop c | WkWatch c => Some c
  | _ => None
  end.

Definition wk_owner (kd : WgKind) (c : ChanId) : Prop :=
  kd = WkMade c \/ kd = WkLoop c.

(** What the wait group counter still holds for a goroutine: one for a
    call whose channel is open, one for a watcher about to call [Done]. *)
Definition wk_owed (chs : list bool) (kd : WgKind) : nat :=
  match kd with
  | WkOwes => 1%nat
  | WkLoop c => match chs !! c with Some false => 1%nat | _ => 0%nat end
  | _ => 0%nat
  end.

(** The channels in kinds exist; a channel has one making call; a watcher
    was started by the call that made its channel; a channel is open until
    its call has started a goroutine; a Subscribe call has a kind of a
    call. *)
Definition wg_shape (es : list Entry) (chs : list bool) (kds : list WgKind) : Prop :=
  (forall i kd c, kds !! i = Some kd -> wk_chan kd = Some c -> (c < length chs)%nat) /\
  (forall i j ki kj c,
     kds !! i = Some ki -> kds !! j = Some kj ->
     wk_owner ki c -> wk_owner kj c -> i = j) /\
  (forall j c, kds !! j = Some (WkWatch c) ->
     exists i, es !! j = Some (EntryGo i) /\ kds !! i = Some (WkLoop c)) /\
  (forall i kd c, kds !! i = Some kd -> wk_owner kd c ->
     chs !! c = Some false \/ exists j, es !! j = Some (EntryGo i)) /\
  (forall i ctx topic kd,
     es !! i = Some (EntryCall (CallSubscribe ctx topic)) -> kds !! i = Some kd ->
     kd = WkCalled \/ exists c, wk_owner kd c).

Definition wg_inv (cfg : StreamingSubscriberConfig) (m : Machine) (kds : list WgKind)
    : Prop :=
  wg_shape (entry <$> pool m) (chans (store m)) kds /\
  Z.of_nat (tally (wk_owed (chans (store m))) kds) <= outputsWg (store m) /\
  (forall tid wg timeout timedOut,
     (tid, EvWaitGroupTimeout wg timeout timedOut) ∈ trace m ->
     wg = WgOutputs /\ timeout = CloseTimeout cfg).

(** A call that has returned and started no goroutine. *)
Definition childless (m : Machine) (t : nat) (g : Goroutine) : Prop :=
  pool m !! t = Some g /\
  (exists v, body g = Return v) /\
  forall j gj, pool m !! j = Some gj -> entry gj <> EntryGo t.

(** ** The protocol of the broker subscriptions *)

#[global] Instance Context_eq_dec : EqDecision Context.
Proof. solve_decision. Defined.

Inductive SubKind : Type :=
| SkPlain                                   (* makes and closes no subscription *)
| SkClose                                   (* a Close call before close(s.closing) *)
| SkClosing                                 (* ... having closed s.closing *)
| SkInit                                    (* SubscribeInitialize before its broker call *)
| SkInitOwns (sub : SubId)                  (* ... about to close the subscription it made *)
| SkCall (ctx : Context)                    (* a Subscribe call with scope [ctx], between workers *)
| SkStarting (ctx : Context) (sub : SubId)  (* ... about to start the watcher of [sub] *)
| SkWatch (ctx : Context) (sub : SubId)     (* the watcher of [sub], at its select *)
| SkWoken (ctx : Context) (sub : SubId)     (* ... past its select, about to close [sub] *)
| SkClosed (ctx : Context).                 (* ... having closed its subscription *)

Definition sub_on_event (kd : SubKind) (ev : Event) : option SubKind :=
  match kd, ev with
  | SkPlain, (EvSubClose _ _ | EvUnblocked _ _ | EvCloseClosing | EvConnClose _) => None
  | SkPlain, _ => Some SkPlain
  | SkClose, (EvLock | EvReadClosed _ | EvSetClosed | EvLog _ _ _ _ | EvUnlock) =>
    Some SkClose
  | SkClose, EvCloseClosing => Some SkClosing
  | SkClosing, (EvWaitGroupTimeout _ _ _ | EvConnClose _ | EvLog _ _ _ _ | EvUnlock) =>
    Some SkClosing
  | SkInit, EvMakeChan _ => Some SkInit
  | SkInitOwns sub, EvSubClose sub' _ =>
    if bool_decide (sub' = sub) then Some SkPlain else None
  | SkCall ctx, (EvMakeChan _ | EvWgAdd _ _ | EvLog _ _ _ _ | EvLock
                 | EvAppendSub _ | EvUnlock) => Some (SkCall ctx)
  | SkWatch ctx sub, EvUnblocked ctx' _ =>
    if bool_decide (ctx' = ctx) then Some (SkWoken ctx sub) else None
  | SkWoken ctx sub, EvSubClose sub' _ =>
    if bool_decide (sub' = sub) then Some (SkClosed ctx) else None
  | SkClosed ctx, (EvLog _ _ _ _ | EvCloseChan _ | EvWgAdd _ _) => Some (SkClosed ctx)
  | _, _ => None
  end.

Definition sub_protocol : Protocol SubKind :=
  {| on_event := sub_on_event;
     on_go := fun kd =>
       match kd with
       | SkStarting ctx sub => Some (SkWatch ctx sub, SkCall ctx)
       | _ => None
       end;
     on_subscribe := fun kd res =>
       match kd, res with
       | SkInit, inl sub => Some (SkInitOwns sub)
       | SkInit, inr _ => Some SkPlain
       | SkCall ctx, inl sub => Some (SkStarting ctx sub)
       | SkCall ctx, inr _ => Some (SkCall ctx)
       | _, _ => None
       end;
     of_callback := SkPlain;
     of_method := fun c =>
       match c with
       | CallSubscribe ctx _ => SkCall ctx
       | CallSubscribeInitialize _ => SkInit
       | CallClose => SkClose
       end;
     may_return := fun kd =>
       kd = SkPlain \/ kd = SkClose \/ kd = SkClosing \/
       (exists ctx, kd = SkCall ctx) \/ (exists ctx, kd = SkClosed ctx) |}.

(** The subscription a goroutine is about to start a watcher for, watches
    or is about to close; the scope of a Subscribe call; the kinds of the
    watcher of a subscription. *)
Definition sk_sub (kd : SubKind) : option SubId :=
  match kd with
  | SkInitOwns sub | SkStarting _ sub | SkWatch _ sub | SkWoken _ sub => Some sub
  | _ => None
  end.

Definition sk_call (kd : SubKind) : option Context :=
  match kd with
  | SkCall ctx | SkStarting ctx _ => Some ctx
  | _ => None
  end.

Definition sk_watches (kd : SubKind) (ctx : Context) (sub : SubId) : Prop :=
  kd = SkWatch ctx sub \/ kd = SkWoken ctx sub \/ kd = SkClosed ctx.

Definition sk_woken (kd : SubKind) (ctx : Context) : Prop :=
  (exists sub, kd = SkWoken ctx sub) \/ kd = SkClosed ctx.

Definition sub_is_open (s : State) (sub : SubId) : Prop :=
  exists b, broker_subs s !! sub = Some b /\ sub_open b = true.

(** The broker delivers to the subscription: the test of [Deliver]. *)
Definition sub_is_live (s : State) (sub : SubId) : Prop :=
  exists b, broker_subs s !! sub = Some b /\ sub_open b && conn_open s = true.

(** The connection is closed only after the closing signal; a watcher past
    its select has seen the closing signal or its scope cancelled; the
    subscription of a watcher still at its select is open; a subscription
    is in the hands of one goroutine; every subscription a Subscribe call
    made has its watcher, started or about to be. *)
Definition sub_inv (m : Machine) (kds : list SubKind) : Prop :=
  (conn_open (store m) = false -> closing (store m) = true) /\
  (forall i, kds !! i = Some SkClosing -> closing (store m) = true) /\
  (forall i kd ctx, kds !! i = Some kd -> sk_woken kd ctx ->
     closing (store m) = true \/ ctx_done (store m) ctx = true) /\
  (forall i ctx sub,
     kds !! i = Some (SkStarting ctx sub) \/ kds !! i = Some (SkWatch ctx sub) ->
     sub_is_open (store m) sub) /\
  (forall i kd sub, kds !! i = Some kd -> sk_sub kd = Some sub ->
     (sub < length (broker_subs (store m)))%nat) /\
  (forall i j ki kj sub,
     kds !! i = Some ki -> kds !! j = Some kj ->
     sk_sub ki = Some sub -> sk_sub kj = Some sub -> i = j) /\
  (forall i g ctx topic kd,
     pool m !! i = Some g -> entry g = EntryCall (CallSubscribe ctx topic) ->
     kds !! i = Some kd -> sk_call kd = Some ctx) /\
  (forall t topic qg sub kd ctx,
     (t, EvSubscribe topic qg (inl sub)) ∈ trace m ->
     kds !! t = Some kd -> sk_call kd = Some ctx ->
     kd = SkStarting ctx sub \/
     exists j kj, kds !! j = Some kj /\ sk_watches kj ctx sub) /\
  (forall t ev, (t, ev) ∈ trace m -> (t < length kds)%nat).

(** What was appended to [s.subs] is in it. *)
Definition subs_inv (m : Machine) : Prop :=
  forall tid sub, (tid, EvAppendSub sub) ∈ trace m -> sub ∈ subs (store m).

(** A [Subscribe] call with two workers whose second broker call fails. *)
Definition failed_second_acts : list Action :=
  Call (CallSubscribe (Scope 0) "topic") :: replicate 9 (Step 0 Proceed)
  ++ [Step 0 (Fail "no broker")].

(* ================================================================== *)
(** * Definitions for the further properties *)

(** ** More sample runs *)

(** The world of a goroutine on its own that always answers "go on", over
    a fresh subscriber. *)
Definition quiet_steps (n : nat) : list (Resp * State) :=
  replicate n (Proceed, initial_state).

(** ** Reading a log *)

(** The subscriptions a goroutine made at the broker, and the ones it
    appended to [s.subs], in the order of its log. *)
Fixpoint subscribed (evs : list Event) : list SubId :=
  match evs with
  | [] => []
  | EvSubscribe _ _ (inl sub) :: evs' => sub :: subscribed evs'
  | _ :: evs' => subscribed evs'
  end.

Fixpoint registered (evs : list Event) : list SubId :=
  match evs with
  | [] => []
  | EvAppendSub sub :: evs' => sub :: registered evs'
  | _ :: evs' => registered evs'
  end.

Definition is_go (ev : Event) : bool :=
  match ev with EvGo => true | _ => false end.

(** The numbers in the "Starting subscriber" lines of a log. *)
Fixpoint started_nums (evs : list Event) : list Z :=
  match evs with
  | [] => []
  | EvLog LDebug "Starting subscriber" None (("subscriber_num", LInt i) :: _) :: evs' =>
    i :: started_nums evs'
  | _ :: evs' => started_nums evs'
  end.

(** [i; i+1; ...], [n] numbers. *)
Fixpoint Zseq (i : Z) (n : nat) : list Z :=
  match n with
  | O => []
  | S n' => i :: Zseq (i + 1) n'
  end.

(** [conn.QueueSubscribe] with the configured group, or [conn.Subscribe]. *)
Definition queue_of (cfg : StreamingSubscriberConfig) : option string :=
  if string_is_empty (QueueGroup cfg) then None else Some (QueueGroup cfg).

Definition is_subscribe_with (topic : string) (qg : option string) (ev : Event) : bool :=
  match ev with
  | EvSubscribe topic' qg' _ => bool_decide (topic' = topic) && bool_decide (qg' = qg)
  | _ => true
  end.

(** A [Subscribe] call with two workers, run to its end. *)
Definition two_topic_acts : list Action :=
  Call (CallSubscribe (Scope 0) "topic") :: replicate 14 (Step 0 Proceed).

(** A subscription whose [Close] succeeded is closed at the broker. *)
Definition closed_inv (m : Machine) : Prop :=
  forall t sub, (t, EvSubClose sub None) ∈ trace m ->
    exists b, broker_subs (store m) !! sub = Some b /\ sub_open b = false.

(** [SubscribeInitialize] with a broker that does as asked. *)
Definition initialize_acts : list Action :=
  Call (CallSubscribeInitialize "topic") :: replicate 3 (Step 0 Proceed).

(** ** How a call wires its workers *)

(** A body that neither subscribes nor starts a goroutine. *)
Fixpoint plain (p : Proc) : Prop :=
  match p with
  | Return _ => True
  | Do _ k => forall x, plain (k x)
  | Go _ _ => False
  | StanSubscribe _ _ _ _ _ => False
  end.

(** In what is left of a call with scope [ctx] and channel [out], every
    broker call is in the configured queue group and with the configured
    options, every callback handed to the broker is [processMessage] on
    [ctx] and [out], and every goroutine started is the watcher, on [ctx] and [out], of a
    subscription made by then ([made], or made further up in the body);
    [watch] is whether the call starts goroutines at all. *)
Fixpoint wired (cfg : StreamingSubscriberConfig) (ctx : Context) (out : ChanId)
    (watch : bool) (made : SubId -> Prop) (p : Proc) : Prop :=
  match p with
  | Return _ => True
  | Do _ k => forall x, wired cfg ctx out watch made (k x)
  | Go child k =>
    watch = true /\
    (exists sub fields, child = watcher sub ctx out fields /\ made sub) /\
    wired cfg ctx out watch made k
  | StanSubscribe _ qg cb opts k =>
    qg = queue_of cfg /\ opts = StanSubscriptionOptions cfg /\
    (exists fields, cb = fun m => processMessage cfg ctx m out fields) /\
    forall res, wired cfg ctx out watch (fun s => made s \/ res = inl s) (k res)
  end.

(** The scope a call subscribes with, and whether it starts watchers. *)
Definition call_scope (e : Entry) : option (Context * bool) :=
  match e with
  | EntryCall (CallSubscribe ctx _) => Some (ctx, true)
  | EntryCall (CallSubscribeInitialize _) => Some (Background, false)
  | _ => None
  end.

(** What goroutine [t] is tied to: a subscribing call to the channel it
    made first; a callback to the subscription it was delivered on; a
    watcher to the call that started it, to that call's scope and channel
    and to one of that call's subscriptions. *)
Definition wiring (cfg : StreamingSubscriberConfig) (m : Machine) (t : nat)
    (g : Goroutine) : Prop :=
  match entry g with
  | EntryCall CallClose => plain (body g)
  | EntryCall c =>
    (events_of t (trace m) = [] /\ body g = method_body cfg c) \/
    exists ctx watch out,
      call_scope (entry g) = Some (ctx, watch) /\
      head (events_of t (trace m)) = Some (EvMakeChan out) /\
      wired cfg ctx out watch (fun s => s ∈ subscribed (events_of t (trace m))) (body g)
  | EntryCallback sub msg =>
    plain (body g) /\
    exists b steps,
      broker_subs (store m) !! sub = Some b /\
      run_goroutine steps (sub_cb b msg) = Some (events_of t (trace m), body g)
  | EntryGo parent =>
    plain (body g) /\
    exists gp ctx topic out sub fields steps,
      pool m !! parent = Some gp /\
      entry gp = EntryCall (CallSubscribe ctx topic) /\
      head (events_of parent (trace m)) = Some (EvMakeChan out) /\
      sub ∈ subscribed (events_of parent (trace m)) /\
      run_goroutine steps (watcher sub ctx out fields)
      = Some (events_of t (trace m), body g)
  end.

Definition wiring_inv (cfg : StreamingSubscriberConfig) (m : Machine) : Prop :=
  (forall t g, pool m !! t = Some g -> wiring cfg m t g) /\
  (forall t topic qg sub,
     (t, EvSubscribe topic qg (inl sub)) ∈ trace m ->
     exists b g ctx watch out fields,
       broker_subs (store m) !! sub = Some b /\
       pool m !! t = Some g /\
       call_scope (entry g) = Some (ctx, watch) /\
       head (events_of t (trace m)) = Some (EvMakeChan out) /\
       sub_cb b = fun msg => processMessage cfg ctx msg out fields).

(** The subscriptions at the broker are as the configuration says. *)
Definition options_inv (cfg : StreamingSubscriberConfig) (m : Machine) : Prop :=
  forall (sub : SubId) b, broker_subs (store m) !! sub = Some b ->
    sub_group b = queue_of cfg /\ sub_opts b = StanSubscriptionOptions cfg.

(** One worker is subscribed, the caller cancels the scope, and the
    watcher runs to its end. *)
Definition watcher_done_acts : list Action :=
  topic_acts ++ [CancelScope 0; Step 1 (Pick BCtxDone)] ++ replicate 3 (Step 1 Proceed).

(** One worker is subscribed; a [Close] call gets as far as setting
    [closed]; then the broker delivers one more message. *)
Definition closing_acts : list Action :=
  topic_acts ++ Call CallClose :: replicate 3 (Step 2 Proceed).

Definition late_delivery_acts : list Action :=
  [Deliver 0%nat good_msg; Step 3 Proceed].

(** ** The protocol of the processing wait group *)

Inductive BusyKind : Type :=
| BkOther   (* a method call or a watcher *)
| BkIdle    (* a callback before [Add(1)] or after [Done()] *)
| BkBusy.   (* a callback between [Add(1)] and [Done()] *)

Definition busy_on_event (kd : BusyKind) (ev : Event) : option BusyKind :=
  match kd, ev with
  | BkOther, (EvWgAdd WgProcessing _ | EvSend _ _) => None
  | BkOther, _ => Some BkOther
  | BkIdle, EvReadClosed _ => Some BkIdle
  | BkIdle, EvWgAdd WgProcessing 1 => Some BkBusy
  | BkBusy, EvWgAdd WgProcessing (-1) => Some BkIdle
  | BkBusy, (EvLog _ _ _ _ | EvUnmarshal _ _ | EvWithCancel _ | EvSend _ _
             | EvSelect _ | EvAck _ _ | EvCancelCtx _) => Some BkBusy
  | _, _ => None
  end.

Definition busy_protocol : Protocol BusyKind :=
  {| on_event := busy_on_event;
     on_go := fun kd => match kd with BkOther => Some (BkOther, BkOther) | _ => None end;
     on_subscribe := fun kd _ => match kd with BkOther => Some BkOther | _ => None end;
     of_callback := BkIdle;
     of_method := fun _ => BkOther;
     may_return := fun kd => kd = BkOther \/ kd = BkIdle |}.

Definition bk_busy (kd : BusyKind) : nat :=
  match kd with BkBusy => 1%nat | _ => 0%nat end.

Definition is_processing_add (ev : Event) : bool :=
  match ev with EvWgAdd WgProcessing 1 => true | _ => false end.
Definition is_processing_done (ev : Event) : bool :=
  match ev with EvWgAdd WgProcessing (-1) => true | _ => false end.

(** A goroutine with this log is between [processingMessagesWg.Add(1)]
    and the deferred [Done()]. *)
Definition in_flight (evs : list Event) : bool :=
  (count is_processing_done evs <? count is_processing_add evs)%nat.

Definition callbacks_in_flight (m : Machine) : nat :=
  length (filter (fun t => in_flight (events_of t (trace m)) = true)
                 (seq 0 (length (pool m)))).

Definition busy_inv (m : Machine) (kds : list BusyKind) : Prop :=
  processingMessagesWg (store m) = Z.of_nat (tally bk_busy kds) /\
  (forall i g kd, pool m !! i = Some g -> kds !! i = Some kd -> kd <> BkOther ->
     exists sub msg, entry g = EntryCallback sub msg) /\
  (forall i kd, kds !! i = Some kd ->
     count is_processing_add (events_of i (trace m))
     = (count is_processing_done (events_of i (trace m)) + bk_busy kd)%nat) /\
  (forall t ev, (t, ev) ∈ trace m -> (t < length kds)%nat).

(** One worker is subscribed and the callback of a delivered message has
    called [Add(1)]. *)
Definition in_flight_acts : list Action :=
  topic_acts ++ [Deliver 0%nat good_msg; Step 2 Proceed; Step 2 Proceed].

(** ** The protocol of the mutex and of the stages of [Close] *)

Inductive GateKind : Type :=
| GkFree        (* outside [Close], not holding the mutex *)
| GkHeld        (* [Subscribe] between [Lock] and [Unlock] *)
| GkClose       (* a [Close] call before [Lock] *)
| GkLocked      (* ... holding the mutex, before the test of [closed] *)
| GkUnset       (* ... having found [closed] unset *)
| GkSet         (* ... having set [closed], before [close(s.closing)] *)
| GkSignalled   (* ... having closed [s.closing], before [conn.Close] *)
| GkPast.       (* ... past [conn.Close] or having found [closed] set *)

Definition gate_on_event (kd : GateKind) (ev : Event) : option GateKind :=
  match kd, ev with
  | GkFree, EvLock => Some GkHeld
  | GkFree, (EvUnlock | EvSetClosed | EvCloseClosing | EvAppendSub _
             | EvConnClose _) => None
  | GkFree, _ => Some GkFree
  | GkHeld, EvAppendSub _ => Some GkHeld
  | GkHeld, EvUnlock => Some GkFree
  | GkClose, EvLock => Some GkLocked
  | GkLocked, EvReadClosed true => Some GkPast
  | GkLocked, EvReadClosed false => Some GkUnset
  | GkUnset, EvSetClosed => Some GkSet
  | GkSet, EvLog _ _ _ _ => Some GkSet
  | GkSet, EvCloseClosing => Some GkSignalled
  | GkSignalled, EvWaitGroupTimeout _ _ _ => Some GkSignalled
  | GkSignalled, EvConnClose _ => Some GkPast
  | GkPast, EvLog _ _ _ _ => Some GkPast
  | GkPast, EvUnlock => Some GkFree
  | _, _ => None
  end.

Definition gate_protocol : Protocol GateKind :=
  {| on_event := gate_on_event;
     on_go := fun kd => match kd with GkFree => Some (GkFree, GkFree) | _ => None end;
     on_subscribe := fun kd _ => match kd with GkFree => Some GkFree | _ => None end;
     of_callback := GkFree;
     of_method := fun c => match c with CallClose => GkClose | _ => GkFree end;
     may_return := fun kd => kd = GkFree |}.

Definition gk_holds (kd : GateKind) : nat :=
  match kd with GkFree | GkClose => 0%nat | _ => 1%nat end.
Definition gk_unset (kd : GateKind) : nat :=
  match kd with GkUnset => 1%nat | _ => 0%nat end.
Definition gk_set (kd : GateKind) : nat :=
  match kd with GkSet => 1%nat | _ => 0%nat end.
Definition gk_signalled (kd : GateKind) : nat :=
  match kd with GkSignalled => 1%nat | _ => 0%nat end.

(** The mutex is locked exactly while one goroutine is between [Lock] and
    [Unlock]; [closed] is set from the moment the one [Close] call that
    found it unset has set it, [s.closing] is closed after that and before
    [conn.Close], and [conn.Close] is called once. *)
Definition gate_inv (m : Machine) (kds : list GateKind) : Prop :=
  (tally gk_holds kds = if subsLock (store m) then 1 else 0)%nat /\
  (conn_closes m + tally gk_set kds + tally gk_signalled kds
   = if closed (store m) then 1 else 0)%nat /\
  (closed (store m) = true -> tally gk_unset kds = 0%nat) /\
  (closing (store m) = true -> tally gk_set kds = 0%nat) /\
  (closing (store m) = true -> closed (store m) = true).

Definition is_lock (ev : Event) : bool :=
  match ev with EvLock => true | _ => false end.
Definition is_unlock (ev : Event) : bool :=
  match ev with EvUnlock => true | _ => false end.

(** A goroutine with this log is between [Lock] and [Unlock]. *)
Definition holds_lock (evs : list Event) : bool :=
  (count is_unlock evs <? count is_lock evs)%nat.

Definition holders (m : Machine) : nat :=
  length (filter (fun t => holds_lock (events_of t (trace m)) = true)
                 (seq 0 (length (pool m)))).

(** The kinds against the logs: who holds the mutex, who appended to
    [s.subs] holding it, and that a closed connection was closed by a
    [conn.Close] that succeeded. *)
Definition gate_log_inv (m : Machine) (kds : list GateKind) : Prop :=
  (forall i kd, kds !! i = Some kd ->
     count is_lock (events_of i (trace m))
     = (count is_unlock (events_of i (trace m)) + gk_holds kd)%nat) /\
  (forall t ev, (t, ev) ∈ trace m -> (t < length kds)%nat) /\
  (forall t pre sub post,
     events_of t (trace m) = pre ++ EvAppendSub sub :: post ->
     holds_lock pre = true) /\
  (conn_open (store m) = false -> exists t, (t, EvConnClose None) ∈ trace m) /\
  subs (store m) = registered (snd <$> trace m).

(** [Close] on a fresh subscriber whose [conn.Close] fails, and then
    [Close] again. *)
Definition failed_close_acts : list Action :=
  Call CallClose :: replicate 6 (Step 0 Proceed)
  ++ [Step 0 (Fail "broken pipe")] ++ replicate 2 (Step 0 Proceed)
  ++ Call CallClose :: replicate 3 (Step 1 Proceed).

(** A [Subscribe] call that has taken the mutex and appended. *)
Definition locked_acts : list Action :=
  Call (CallSubscribe (Scope 0) "topic") :: replicate 7 (Step 0 Proceed).

(** ** The protocol of a subscriber with one worker per call *)

Inductive SoloKind : Type :=
| SoOther                (* a callback, [Close] or [SubscribeInitialize] *)
| SoCalled               (* a [Subscribe] call before it makes its channel *)
| SoOwns (c : ChanId)    (* ... having made [c], no watcher started yet *)
| SoGave                 (* ... having started its watcher *)
| SoWatch (c : ChanId)   (* the watcher of [c], before it closes [c] *)
| SoClosed.              (* ... having closed its channel *)

Definition solo_on_event (kd : SoloKind) (ev : Event) : option SoloKind :=
  match kd, ev with
  | SoOther, EvCloseChan _ => None
  | SoOther, _ => Some SoOther
  | SoCalled, EvMakeChan c => Some (SoOwns c)
  | SoOwns c, (EvWgAdd _ _ | EvLog _ _ _ _) => Some (SoOwns c)
  | SoGave, (EvLock | EvAppendSub _ | EvUnlock) => Some SoGave
  | SoWatch c, (EvUnblocked _ _ | EvSubClose _ _ | EvLog _ _ _ _) => Some (SoWatch c)
  | SoWatch c, EvCloseChan c' => if bool_decide (c' = c) then Some SoClosed else None
  | SoClosed, EvWgAdd WgOutputs (-1) => Some SoClosed
  | _, _ => None
  end.

Definition solo_protocol : Protocol SoloKind :=
  {| on_event := solo_on_event;
     on_go := fun kd =>
       match kd with SoOwns c => Some (SoWatch c, SoGave) | _ => None end;
     on_subscribe := fun kd _ =>
       match kd with
       | SoOther => Some SoOther
       | SoOwns c => Some (SoOwns c)
       | _ => None
       end;
     of_callback := SoOther;
     of_method := fun c =>
       match c with CallSubscribe _ _ => SoCalled | _ => SoOther end;
     may_return := fun kd =>
       kd = SoOther \/ (exists c, kd = SoOwns c) \/ kd = SoGave \/ kd = SoClosed |}.

Definition so_chan (kd : SoloKind) : option ChanId :=
  match kd with SoOwns c | SoWatch c => Some c | _ => None end.

(** One goroutine at a time is in charge of a channel, the call that made
    it or then its watcher, and the channel is open as long as one is;
    goroutines started by [go] are watchers. *)
Definition solo_inv (m : Machine) (kds : list SoloKind) : Prop :=
  (forall i kd c, kds !! i = Some kd -> so_chan kd = Some c ->
     chans (store m) !! c = Some false) /\
  (forall i j ki kj c,
     kds !! i = Some ki -> kds !! j = Some kj ->
     so_chan ki = Some c -> so_chan kj = Some c -> i = j) /\
  (forall i g kd parent,
     pool m !! i = Some g -> kds !! i = Some kd -> entry g = EntryGo parent ->
     (exists c, kd = SoWatch c) \/ kd = SoClosed).

(** One worker is subscribed, the caller cancels the scope, and the
    watcher has closed its subscription: its next step closes the output
    channel. *)
Definition watcher_closing_acts : list Action :=
  topic_acts ++ [CancelScope 0; Step 1 (Pick BCtxDone); Step 1 Proceed].


(* ================================================================== *)
(** * Properties *)

(** ** Configuration *)

Lemma string_is_empty_true (s : string) : string_is_empty s = true <-> s = "".
Proof. destruct s; simpl; split; congruence. Qed.

Lemma string_is_empty_false (s : string) : string_is_empty s = false <-> s <> "".
Proof. destruct s; simpl; split; congruence. Qed.

Lemma Validate_setDefaults (c : StreamingSubscriberConfig) :
  Validate (setDefaults c) = Validate c.
Proof.
  unfold Validate, setDefaults; simpl.
  destruct (Unmarshaler c); [|reflexivity].
  destruct (string_is_empty (QueueGroup c)); simpl; [|reflexivity].
  destruct (Z.leb_spec (SubscribersCount c) 0) as [Hle|Hgt].
  - replace (1 <? 1) with false by reflexivity.
    destruct (Z.ltb_spec 1 (SubscribersCount c)); [lia|reflexivity].
  - reflexivity.
Qed.

(** C8: [setDefaults] turns an unset (zero) worker count into 1 and unset
    close and ack-wait timeouts into 30 seconds, leaving set (positive)
    values alone; the subscription options become the old ones followed by
    the manual-ack option and an ack-wait option carrying the resulting
    ack-wait timeout, followed by a durable-name option exactly when the
    durable name is not empty. *)
Theorem setDefaults_fills_and_appends (c : StreamingSubscriberConfig) :
  (SubscribersCount c = 0 -> SubscribersCount (setDefaults c) = 1) /\
  (CloseTimeout c = 0 -> CloseTimeout (setDefaults c) = 30 * Second) /\
  (AckWaitTimeout c = 0 -> AckWaitTimeout (setDefaults c) = 30 * Second) /\
  (0 < SubscribersCount c -> SubscribersCount (setDefaults c) = SubscribersCount c) /\
  (0 < CloseTimeout c -> CloseTimeout (setDefaults c) = CloseTimeout c) /\
  (0 < AckWaitTimeout c -> AckWaitTimeout (setDefaults c) = AckWaitTimeout c) /\
  (exists durable,
     StanSubscriptionOptions (setDefaults c) =
       StanSubscriptionOptions c
       ++ [SetManualAckMode; AckWait (AckWaitTimeout (setDefaults c))]
       ++ durable /\
     (DurableName c <> "" -> durable = [DurableNameOption (DurableName c)]) /\
     (DurableName c = "" -> durable = [])).
Proof.
  unfold setDefaults; simpl.
  repeat split.
  - intros ->. reflexivity.
  - intros ->. reflexivity.
  - intros ->. reflexivity.
  - intros H. destruct (Z.leb_spec (SubscribersCount c) 0); [lia|reflexivity].
  - intros H. destruct (Z.leb_spec (CloseTimeout c) 0); [lia|reflexivity].
  - intros H. destruct (Z.leb_spec (AckWaitTimeout c) 0); [lia|reflexivity].
  - destruct (string_is_empty (DurableName c)) eqn:E.
    + exists []. apply string_is_empty_true in E.
      split; [reflexivity|]. split; congruence.
    + exists [DurableNameOption (DurableName c)].
      apply string_is_empty_false in E. rewrite <- app_assoc.
      split; [reflexivity|]. split; [reflexivity|congruence].
Qed.

Lemma setDefaults_fills_and_appends_witness :
  SubscribersCount (setDefaults (sample_config 0 "g")) = 1 /\
  CloseTimeout (setDefaults (sample_config 0 "g")) = 30000000000 /\
  AckWaitTimeout (setDefaults (sample_config 0 "g")) = 30000000000 /\
  StanSubscriptionOptions (setDefaults (sample_config 0 "g")) =
    [CustomSubscriptionOption 7; SetManualAckMode; AckWait 30000000000;
     DurableNameOption "durable"].
Proof.
  destruct (setDefaults_fills_and_appends (sample_config 0 "g"))
    as (Hn & Hc & Ha & _ & _ & _ & durable & Hopts & Hset & _).
  split; [apply Hn; reflexivity|].
  split; [apply Hc; reflexivity|].
  split; [apply Ha; reflexivity|].
  rewrite Hopts, Hset by discriminate.
  rewrite Ha by reflexivity. reflexivity.
Defined.

(** C7: [Validate] returns an error exactly when the unmarshaler is nil or
    the worker count is above 1 with an empty queue group; and when the
    defaulted configuration does not validate, [NewStreamingSubscriber] is
    over with that error and no operation at all, in particular not the
    broker's connect, which is otherwise its first operation. *)
Theorem Validate_fails_exactly (c : StreamingSubscriberConfig) :
  ((exists err, Validate c = Some err) <->
   (Unmarshaler c = None \/ (1 < SubscribersCount c /\ QueueGroup c = ""))) /\
  (forall err, Validate (setDefaults c) = Some err ->
     NewStreamingSubscriber c = Return (VSubscriber None (Some err)) /\
     forall r s, exec r s (NewStreamingSubscriber c) = TBlocked) /\
  (Validate (setDefaults c) = None ->
     exists k, NewStreamingSubscriber c =
       Do (Connect (ClusterID c) (ClientID c) (StanOptions c)) k).
Proof.
  split; [|split].
  - unfold Validate.
    destruct (Unmarshaler c) as [u|]; [|split; eauto].
    destruct (string_is_empty (QueueGroup c)) eqn:Eg; simpl.
    + apply string_is_empty_true in Eg.
      destruct (Z.ltb_spec 1 (SubscribersCount c)).
      * split; eauto.
      * split; [intros [? ?]; discriminate|].
        intros [?|[? _]]; [discriminate|lia].
    + apply string_is_empty_false in Eg.
      split; [intros [? ?]; discriminate|].
      intros [?|[_ ?]]; [discriminate|contradiction].
  - intros err Hv. unfold NewStreamingSubscriber. rewrite Hv. auto.
  - intros Hv. unfold NewStreamingSubscriber. rewrite Hv. simpl. eauto.
Qed.

Lemma Validate_fails_exactly_witness :
  (exists err, Validate (sample_config 3 "") = Some err) /\
  exists err, NewStreamingSubscriber (sample_config 3 "")
              = Return (VSubscriber None (Some err)).
Proof.
  destruct (Validate_fails_exactly (sample_config 3 "")) as (Hiff & Hnew & _).
  split.
  - apply Hiff. right. split; [reflexivity|reflexivity].
  - eexists. apply Hnew. reflexivity.
Defined.

(** ** Reading steps back *)

Lemma exec_op_sound {X : Type} (o : Op X) r s x s' ev :
  exec_op o r s = Done x s' ev -> s' = apply_event ev s /\ enabled ev s.
Proof.
  destruct o; simpl; intros H; repeat case_match; simplify_eq; simpl;
    try (split; [reflexivity|]); eauto; try lia; try discriminate.
  unfold WaitGroupTimeout_result in *.
  repeat case_match; simplify_eq; try discriminate; intros _; lia.
Qed.

Lemma step_transition cfg a m m' :
  step cfg a m = Some m' -> panicked m = None /\ transition cfg m m'.
Proof.
  unfold step. destruct (panicked m) eqn:Hp; [discriminate|].
  intros H. split; [reflexivity|].
  destruct a as [c|n|sub msg|tid r].
  - simplify_eq. constructor.
  - simplify_eq. constructor.
  - destruct (broker_subs (store m) !! sub) as [b|] eqn:Hb; [|discriminate].
    destruct (sub_open b) eqn:Ho; [|discriminate].
    destruct (conn_open (store m)) eqn:Hc; [|discriminate].
    simpl in H. simplify_eq. by econstructor.
  - destruct (pool m !! tid) as [g|] eqn:Hg; [|discriminate].
    destruct (exec r (store m) (body g)) as [|msg|s1 p1 sp ev] eqn:He;
      [discriminate| |].
    + simplify_eq. by econstructor.
    + simplify_eq. unfold exec in He.
      destruct (body g) as [v|X o k|child k|topic qg cb opts k] eqn:Hbody.
      * discriminate.
      * destruct (exec_op o r (store m)) eqn:Ho; simplify_eq.
        simpl. rewrite app_nil_r. by eapply T_do.
      * simplify_eq. simpl. by eapply T_go.
      * destruct (call_result r); simplify_eq; simpl; rewrite app_nil_r.
        -- by eapply T_subscribe_fail.
        -- by eapply T_subscribe_ok.
Qed.

Lemma run_invariant cfg (P : Machine -> Prop) :
  (forall m m', P m -> panicked m = None -> transition cfg m m' -> P m') ->
  forall acts m m', P m -> run cfg acts m = Some m' -> P m'.
Proof.
  intros Hstep acts. induction acts as [|a acts IH]; intros m m' Hm Hrun.
  - simpl in Hrun. by simplify_eq.
  - simpl in Hrun. destruct (step cfg a m) as [m1|] eqn:Hs; [|discriminate].
    apply step_transition in Hs as [Hp Ht]. eauto.
Qed.

Lemma run_app cfg acts1 acts2 m :
  run cfg (acts1 ++ acts2) m =
  match run cfg acts1 m with Some m1 => run cfg acts2 m1 | None => None end.
Proof.
  revert m. induction acts1 as [|a acts1 IH]; intros m; simpl; [done|].
  destruct (step cfg a m); [apply IH|done].
Qed.

(** ** One goroutine on its own: inversion *)

Lemma run_goroutine_Return steps v evs q :
  run_goroutine steps (Return v) = Some (evs, q) ->
  steps = [] /\ evs = [] /\ q = Return v.
Proof.
  destruct steps as [|[r s] steps]; simpl; intros H; [by simplify_eq|done].
Qed.

Lemma run_goroutine_Do {X : Type} steps (o : Op X) k evs v :
  run_goroutine steps (Do o k) = Some (evs, Return v) ->
  exists r s steps' x s' ev evs',
    steps = (r, s) :: steps' /\ exec_op o r s = Done x s' ev /\
    evs = ev :: evs' /\ run_goroutine steps' (k x) = Some (evs', Return v).
Proof.
  destruct steps as [|[r s] steps]; simpl; intros H; [by simplify_eq|].
  destruct (exec_op o r s) as [| |x s' ev] eqn:Ho; try done.
  destruct (run_goroutine steps (k x)) as [[evs' q]|] eqn:Hr; [|done].
  simplify_eq. by repeat eexists.
Qed.

Lemma run_goroutine_Go steps child k evs v :
  run_goroutine steps (Go child k) = Some (evs, Return v) ->
  exists r s steps' evs',
    steps = (r, s) :: steps' /\ evs = EvGo :: evs' /\
    run_goroutine steps' k = Some (evs', Return v).
Proof.
  destruct steps as [|[r s] steps]; simpl; intros H; [by simplify_eq|].
  destruct (run_goroutine steps k) as [[evs' q]|] eqn:Hr; [|done].
  simplify_eq. by repeat eexists.
Qed.

Lemma run_goroutine_StanSubscribe steps topic qg cb opts k evs v :
  run_goroutine steps (StanSubscribe topic qg cb opts k) = Some (evs, Return v) ->
  exists r s steps' res evs',
    steps = (r, s) :: steps' /\ evs = EvSubscribe topic qg res :: evs' /\
    run_goroutine steps' (k res) = Some (evs', Return v).
Proof.
  destruct steps as [|[r s] steps]; simpl; intros H; [by simplify_eq|].
  destruct (call_result r) as [e|].
  - destruct (run_goroutine steps (k (inr e))) as [[evs' q]|] eqn:Hr; [|done].
    simplify_eq. by repeat eexists.
  - destruct (run_goroutine steps (k (inl (length (broker_subs s)))))
      as [[evs' q]|] eqn:Hr; [|done].
    simplify_eq. by repeat eexists.
Qed.

Lemma run_goroutine_snoc steps p0 evs p r s s' p' sp ev :
  run_goroutine steps p0 = Some (evs, p) ->
  exec r s p = TStepped s' p' sp ev ->
  run_goroutine (steps ++ [(r, s)]) p0 = Some (evs ++ [ev], p').
Proof.
  revert p0 evs. induction steps as [|[r0 s0] steps IH]; intros p0 evs H He.
  - simpl in H. simplify_eq. simpl. by rewrite He.
  - simpl in H |- *.
    destruct (exec r0 s0 p0) as [| |s1 p1 sp1 ev1]; try done.
    destruct (run_goroutine steps p1) as [[evs1 q1]|] eqn:Hr; [|done].
    simplify_eq. by rewrite (IH _ _ Hr He).
Qed.

(** ** Every goroutine's log is a run of its program *)

Lemma events_of_snoc tid tid' ev tr :
  events_of tid (tr ++ [(tid', ev)]) =
  if decide (tid' = tid) then events_of tid tr ++ [ev] else events_of tid tr.
Proof.
  unfold events_of. rewrite filter_app, fmap_app.
  rewrite filter_cons, filter_nil. simpl.
  destruct (decide (tid' = tid)); simpl; [done|by rewrite app_nil_r].
Qed.

Lemma events_of_fresh tid tr (n : nat) :
  (forall t ev, (t, ev) ∈ tr -> (t < n)%nat) -> (n <= tid)%nat ->
  events_of tid tr = [].
Proof.
  intros Hlt Hn. unfold events_of.
  induction tr as [|[t ev] tr IH]; [done|].
  rewrite filter_cons. simpl.
  destruct (decide (t = tid)) as [->|Hne].
  - assert (tid < n)%nat by (apply (Hlt tid ev); left). lia.
  - apply IH. intros t' ev' Hin. eapply Hlt. by right.
Qed.

Lemma wf_body_watcher cfg sub ctx out fields :
  wf_body cfg (watcher sub ctx out fields).
Proof. unfold watcher. simpl. intros _ [e|]; simpl; auto. Qed.

Lemma wf_body_processMessage cfg ctx m out fields :
  wf_body cfg (processMessage cfg ctx m out fields).
Proof.
  unfold processMessage. simpl. intros [|]; simpl; [done|].
  intros _ _. destruct (Unmarshaler cfg) as [u|]; simpl; [|done].
  intros [msg|err]; simpl; [|done].
  intros ctx' _ [| | | | |]; simpl; auto.
  intros _ [| | | | |]; simpl; auto.
  intros [e|]; simpl; auto.
Qed.

Lemma wf_body_Subscribe_loop cfg ctx topic out todo i :
  wf_body cfg (Subscribe_loop cfg ctx topic out todo i).
Proof.
  revert i. induction todo as [|todo IH]; intros i; simpl; [done|].
  intros _. unfold subscribe.
  destruct (negb (string_is_empty (QueueGroup cfg))); simpl.
  - split; [by repeat eexists|].
    intros [sub|e]; simpl; [|done].
    split; [by repeat eexists|]. auto.
  - split; [by repeat eexists|].
    intros [sub|e]; simpl; [|done].
    split; [by repeat eexists|]. auto.
Qed.

Lemma wf_body_method cfg c : wf_body cfg (method_body cfg c).
Proof.
  destruct c as [ctx topic|topic|]; simpl.
  - intros out _. apply wf_body_Subscribe_loop.
  - intros out. unfold subscribe.
    destruct (negb (string_is_empty (QueueGroup cfg))); simpl;
      (split; [by repeat eexists|]); intros [sub|e]; simpl; auto.
  - intros _ [|]; simpl; [done|]. intros _ _ _ _ [e|]; simpl; auto.
Qed.

Lemma close_sub_cb sub s b' :
  b' ∈ broker_subs (close_sub sub s) ->
  exists b, b ∈ broker_subs s /\ sub_cb b' = sub_cb b.
Proof.
  unfold close_sub. destruct (broker_subs s !! sub) as [b|] eqn:Hb; simpl.
  - intros Hin. apply list_elem_of_lookup in Hin as [i Hi].
    apply list_lookup_insert_Some in Hi as [(-> & <- & _)|[_ Hi]].
    + exists b. split; [|done]. apply list_elem_of_lookup. eauto.
    + exists b'. split; [|done]. apply list_elem_of_lookup. eauto.
  - eauto.
Qed.

Lemma apply_event_cb ev s b' :
  b' ∈ broker_subs (apply_event ev s) ->
  exists b, b ∈ broker_subs s /\ sub_cb b' = sub_cb b.
Proof.
  destruct ev; simpl; eauto.
  - destruct wg; simpl; eauto.
  - destruct ctx; simpl; eauto.
  - destruct res; [eauto|apply close_sub_cb].
  - destruct res; simpl; eauto.
Qed.

Lemma history_inv_boot cfg : history_inv cfg boot.
Proof.
  split; [|split]; simpl.
  - intros tid ev Hin. by apply elem_of_nil in Hin.
  - intros b Hin. by apply elem_of_nil in Hin.
  - intros tid g Hg. by rewrite lookup_nil in Hg.
Qed.

Lemma history_inv_spawn cfg m e p :
  history_inv cfg m -> wf_body cfg p -> started_as cfg e p ->
  history_inv cfg (spawn e p m).
Proof.
  intros (Htr & Hcb & Hpool) Hwf Hstart. split; [|split]; simpl.
  - intros tid ev Hin. rewrite length_app. apply Htr in Hin. simpl. lia.
  - done.
  - intros tid g Hg. apply lookup_app_Some in Hg as [Hg|[Hlen Hg]]; [eauto|].
    apply list_lookup_singleton_Some in Hg as [Hz <-]. simpl.
    split; [done|]. exists p, []. split; [done|]. simpl.
    rewrite (events_of_fresh tid (trace m) (length (pool m))); [done|done|lia].
Qed.

Lemma history_inv_step cfg m tid g r s1 p' sp ev s' extra :
  history_inv cfg m ->
  pool m !! tid = Some g ->
  exec r (store m) (body g) = TStepped s1 p' sp ev ->
  wf_body cfg p' ->
  (forall b, b ∈ broker_subs s' -> is_callback cfg (sub_cb b)) ->
  (forall c, c ∈ extra -> wf_body cfg (body c) /\ started_as cfg (entry c) (body c)) ->
  history_inv cfg
    {| store := s'; pool := update tid g p' (pool m) ++ extra;
       trace := trace m ++ [(tid, ev)]; panicked := None |}.
Proof.
  intros (Htr & Hcb & Hpool) Hg He Hwf Hcb' Hextra.
  assert (Htid : (tid < length (pool m))%nat) by by eapply lookup_lt_Some.
  split; [|split]; simpl.
  - intros t e Hin. rewrite length_app. unfold update. rewrite length_insert.
    apply elem_of_app in Hin as [Hin|Hin]; [apply Htr in Hin; lia|].
    apply list_elem_of_singleton in Hin. simplify_eq. lia.
  - done.
  - intros t g' Hg'. rewrite events_of_snoc.
    apply lookup_app_Some in Hg' as [Hg'|[Hlen Hg']].
    + apply list_lookup_insert_Some in Hg' as [(-> & <- & _)|[Hne Hg']].
      * simpl. split; [done|]. rewrite decide_True by done.
        destruct (Hpool _ _ Hg) as (_ & p0 & steps & Hs & Hrun).
        exists p0, (steps ++ [(r, store m)]). split; [done|].
        eapply run_goroutine_snoc; eauto.
      * rewrite decide_False by done. eauto.
    + unfold update in Hlen. rewrite length_insert in Hlen.
      rewrite decide_False by lia.
      assert (Hin : g' ∈ extra) by (apply list_elem_of_lookup; eauto).
      destruct (Hextra _ Hin) as [Hwf' Hs]. split; [done|].
      exists (body g'), []. split; [done|]. simpl.
      rewrite (events_of_fresh t (trace m) (length (pool m))); [done|done|lia].
Qed.

Lemma history_inv_transition cfg m m' :
  history_inv cfg m -> panicked m = None -> transition cfg m m' ->
  history_inv cfg m'.
Proof.
  intros Hinv _ Ht.
  destruct Ht as [c|n|sub msg b Hb Ho Hc|tid g r msg Hg He
                 |tid g X o k r x s' ev Hg Hbody Ho|tid g child k Hg Hbody
                 |tid g topic qg cb opts k e Hg Hbody
                 |tid g topic qg cb opts k Hg Hbody].
  - apply history_inv_spawn; [done|apply wf_body_method|done].
  - destruct Hinv as (Htr & Hcb & Hpool). by split.
  - destruct Hinv as (Htr & Hcb & Hpool).
    assert (Hin : b ∈ broker_subs (store m)) by (apply list_elem_of_lookup; eauto).
    destruct (Hcb _ Hin) as (ctx & out & fields & Heq).
    apply history_inv_spawn; [by split| |].
    + rewrite Heq. apply wf_body_processMessage.
    + simpl. rewrite Heq. eauto.
  - destruct Hinv as (Htr & Hcb & Hpool). by split.
  - destruct (Hinv) as (Htr & Hcb & Hpool).
    destruct (Hpool _ _ Hg) as (Hwf & _). rewrite Hbody in Hwf. simpl in Hwf.
    rewrite <- (app_nil_r (update tid g (k x) (pool m))).
    eapply (history_inv_step cfg m tid g r s' (k x) [] ev); eauto.
    + rewrite Hbody. simpl. by rewrite Ho.
    + intros b Hin. apply exec_op_sound in Ho as [-> _].
      apply apply_event_cb in Hin as (b0 & Hin & ->). auto.
    + intros c Hin. by apply elem_of_nil in Hin.
  - destruct (Hinv) as (Htr & Hcb & Hpool).
    destruct (Hpool _ _ Hg) as (Hwf & _). rewrite Hbody in Hwf.
    destruct Hwf as [Hw Hwf].
    eapply (history_inv_step cfg m tid g Proceed (store m) k [child] EvGo); eauto.
    + by rewrite Hbody.
    + intros c Hin. apply list_elem_of_singleton in Hin as ->. simpl.
      split; [|done]. destruct Hw as (sub & ctx & out & fields & ->).
      apply wf_body_watcher.
  - destruct (Hinv) as (Htr & Hcb & Hpool).
    destruct (Hpool _ _ Hg) as (Hwf & _). rewrite Hbody in Hwf.
    destruct Hwf as [Hw Hwf].
    rewrite <- (app_nil_r (update tid g (k (inr e)) (pool m))).
    eapply (history_inv_step cfg m tid g (Fail e) (store m) _ []); eauto.
    + by rewrite Hbody.
    + intros c Hin. by apply elem_of_nil in Hin.
  - destruct (Hinv) as (Htr & Hcb & Hpool).
    destruct (Hpool _ _ Hg) as (Hwf & _). rewrite Hbody in Hwf.
    destruct Hwf as [Hw Hwf].
    rewrite <- (app_nil_r (update tid g (k (inl _)) (pool m))).
    eapply (history_inv_step cfg m tid g Proceed _ _ []); eauto.
    + by rewrite Hbody.
    + simpl. intros b Hin. apply elem_of_app in Hin as [Hin|Hin]; [auto|].
      apply list_elem_of_singleton in Hin as ->. done.
    + intros c Hin. by apply elem_of_nil in Hin.
Qed.

Lemma history_inv_run cfg acts m :
  run cfg acts boot = Some m -> history_inv cfg m.
Proof.
  intros Hrun. eapply (run_invariant cfg (history_inv cfg)); eauto.
  - intros. by eapply history_inv_transition.
  - apply history_inv_boot.
Qed.

Lemma callback_history cfg acts m tid g sub msg v :
  run cfg acts boot = Some m ->
  pool m !! tid = Some g ->
  entry g = EntryCallback sub msg ->
  body g = Return v ->
  exists ctx out fields steps,
    run_goroutine steps (processMessage cfg ctx msg out fields)
    = Some (events_of tid (trace m), Return v).
Proof.
  intros Hrun Hg He Hb. apply history_inv_run in Hrun as (_ & _ & Hpool).
  destruct (Hpool _ _ Hg) as (_ & p0 & steps & Hs & Hr).
  rewrite He in Hs. destruct Hs as (ctx & out & fields & ->).
  rewrite Hb in Hr. eauto.
Qed.

Lemma call_history cfg acts m tid g c v :
  run cfg acts boot = Some m ->
  pool m !! tid = Some g ->
  entry g = EntryCall c ->
  body g = Return v ->
  exists steps,
    run_goroutine steps (method_body cfg c) = Some (events_of tid (trace m), Return v).
Proof.
  intros Hrun Hg He Hb. apply history_inv_run in Hrun as (_ & _ & Hpool).
  destruct (Hpool _ _ Hg) as (_ & p0 & steps & Hs & Hr).
  rewrite He in Hs. simpl in Hs. subst p0. rewrite Hb in Hr. eauto.
Qed.

(** Following a finished run of a goroutine through its program, one
    operation at a time and one case of each test at a time. *)
Ltac split_op H :=
  repeat match type of H with
         | context [match ?t with _ => _ end] => destruct t eqn:?
         end;
  simplify_eq.

Ltac follow H :=
  lazymatch type of H with
  | run_goroutine _ (Return _) = Some _ =>
    apply run_goroutine_Return in H; destruct H as (? & ? & ?); simplify_eq
  | run_goroutine _ (Do _ _) = Some _ =>
    let r := fresh "r" in
    let s := fresh "s" in
    let steps := fresh "steps" in
    let x := fresh "x" in
    let s' := fresh "s'" in
    let ev := fresh "ev" in
    let evs := fresh "evs" in
    let Hop := fresh "Hop" in
    apply run_goroutine_Do in H;
    destruct H as (r & s & steps & x & s' & ev & evs & ? & Hop & ? & H);
    subst; simpl in Hop; split_op Hop; simpl in H; follow H
  | run_goroutine _ (Go _ _) = Some _ =>
    let r := fresh "r" in
    let s := fresh "s" in
    let steps := fresh "steps" in
    let evs := fresh "evs" in
    apply run_goroutine_Go in H;
    destruct H as (r & s & steps & evs & ? & ? & H);
    subst; simpl in H; follow H
  | run_goroutine _ (StanSubscribe _ _ _ _ _) = Some _ =>
    let r := fresh "r" in
    let s := fresh "s" in
    let steps := fresh "steps" in
    let res := fresh "res" in
    let evs := fresh "evs" in
    apply run_goroutine_StanSubscribe in H;
    destruct H as (r & s & steps & res & evs & ? & ? & H);
    subst; simpl in H; follow H
  | run_goroutine _ (if ?b then _ else _) = Some _ =>
    destruct b eqn:?; simpl in H; follow H
  | run_goroutine _ (match ?t with _ => _ end) = Some _ =>
    destruct t eqn:?; simpl in H; follow H
  | _ => idtac
  end.

(** ** The delivery pipeline *)

Lemma processMessage_resolution cfg ctx msg out fields steps evs v :
  run_goroutine steps (processMessage cfg ctx msg out fields) = Some (evs, Return v) ->
  (exists c x, EvSend c x ∈ evs) ->
  exists b,
    (b = BAcked \/ b = BNacked \/ b = BTimeout \/ b = BClosing) /\
    selects evs = [EvSelect b] /\
    (b = BAcked -> exists res, acks evs = [EvAck msg res]) /\
    (b <> BAcked -> acks evs = []).
Proof.
  intros H Hsent. unfold processMessage in H. follow H.
  all: try (destruct Hsent as (c & y & Hin);
            repeat (apply elem_of_cons in Hin as [Hin|Hin]; [discriminate|]);
            by apply elem_of_nil in Hin).
  all: eexists; (split; [|split; [reflexivity|split]]);
    [eauto|intros; try discriminate; eauto|intros; try congruence; reflexivity].
Qed.

Lemma elem_of_events_of tid tr ev : ev ∈ events_of tid tr <-> (tid, ev) ∈ tr.
Proof.
  unfold events_of. rewrite list_elem_of_fmap. split.
  - intros ([t e] & -> & Hin). apply list_elem_of_filter in Hin as [Ht Hin].
    simpl in *. by subst.
  - intros Hin. exists (tid, ev). split; [done|].
    apply list_elem_of_filter. by split.
Qed.

(** C2: a callback that handed its message to the consumer and returned
    went through exactly one case of the resolution [select]; when that case
    is the consumer's ack, the broker message's [Ack] was called exactly
    once, and when it is the nack, the timeout or the closing signal, [Ack]
    was not called at all. *)
Theorem ack_once_exactly_when_acked cfg acts m tid g sub msg v :
  run cfg acts boot = Some m ->
  pool m !! tid = Some g ->
  entry g = EntryCallback sub msg ->
  body g = Return v ->
  (exists c x, EvSend c x ∈ events_of tid (trace m)) ->
  exists b,
    (b = BAcked \/ b = BNacked \/ b = BTimeout \/ b = BClosing) /\
    selects (events_of tid (trace m)) = [EvSelect b] /\
    (b = BAcked -> exists res, acks (events_of tid (trace m)) = [EvAck msg res]) /\
    (b <> BAcked -> acks (events_of tid (trace m)) = []).
Proof.
  intros Hrun Hg He Hb Hsent.
  destruct (callback_history _ _ _ _ _ _ _ _ Hrun Hg He Hb)
    as (ctx & out & fields & steps & Hr).
  eapply processMessage_resolution; eauto.
Qed.

Lemma ack_once_exactly_when_acked_witness :
  exists b,
    (b = BAcked \/ b = BNacked \/ b = BTimeout \/ b = BClosing) /\
    selects (events_of 2 (trace (machine_after one_worker acked_acts))) = [EvSelect b] /\
    (b = BAcked -> exists res,
       acks (events_of 2 (trace (machine_after one_worker acked_acts)))
       = [EvAck good_msg res]) /\
    (b <> BAcked ->
       acks (events_of 2 (trace (machine_after one_worker acked_acts))) = []).
Proof.
  eapply (ack_once_exactly_when_acked one_worker acked_acts
            (machine_after one_worker acked_acts) 2 _ 0%nat good_msg VUnit).
  - vm_compute. reflexivity.
  - vm_compute. reflexivity.
  - reflexivity.
  - reflexivity.
  - eexists _, _. vm_compute. do 6 right. left.
Defined.

Lemma processMessage_rejected cfg ctx msg out fields steps evs v err :
  run_goroutine steps (processMessage cfg ctx msg out fields) = Some (evs, Return v) ->
  EvUnmarshal msg (inr err) ∈ evs ->
  EvLog LError "Cannot unmarshal message" (Some err) fields ∈ evs /\
  sends evs = [] /\ acks evs = [].
Proof.
  intros H Hin. unfold processMessage in H. follow H.
  all: repeat (apply elem_of_cons in Hin as [Hin|Hin]; [try congruence|]);
    try by apply elem_of_nil in Hin.
  simplify_eq.
  split; [|done]. do 4 right. left.
Qed.

(** C5: when the unmarshaler returns an error for the broker's message, the
    callback logs that error and returns without having sent anything on
    the output channel and without having called the message's [Ack]. *)
Theorem unmarshal_failure_logged_and_dropped cfg acts m tid g sub msg v err :
  run cfg acts boot = Some m ->
  pool m !! tid = Some g ->
  entry g = EntryCallback sub msg ->
  body g = Return v ->
  EvUnmarshal msg (inr err) ∈ events_of tid (trace m) ->
  (exists fields,
     EvLog LError "Cannot unmarshal message" (Some err) fields
     ∈ events_of tid (trace m)) /\
  sends (events_of tid (trace m)) = [] /\
  acks (events_of tid (trace m)) = [].
Proof.
  intros Hrun Hg He Hb Hin.
  destruct (callback_history _ _ _ _ _ _ _ _ Hrun Hg He Hb)
    as (ctx & out & fields & steps & Hr).
  destruct (processMessage_rejected _ _ _ _ _ _ _ _ _ Hr Hin) as (Hlog & Hs & Ha).
  eauto.
Qed.

Lemma unmarshal_failure_logged_and_dropped_witness :
  (exists fields,
     EvLog LError "Cannot unmarshal message" (Some "empty payload") fields
     ∈ events_of 2 (trace (machine_after one_worker rejected_acts))) /\
  sends (events_of 2 (trace (machine_after one_worker rejected_acts))) = [] /\
  acks (events_of 2 (trace (machine_after one_worker rejected_acts))) = [].
Proof.
  eapply (unmarshal_failure_logged_and_dropped one_worker rejected_acts
            (machine_after one_worker rejected_acts) 2 _ 0%nat bad_msg VUnit).
  - vm_compute. reflexivity.
  - vm_compute. reflexivity.
  - reflexivity.
  - reflexivity.
  - vm_compute. do 3 right. left.
Defined.

(** Cancelled contexts stay cancelled. *)

Lemma apply_event_cancelled ev s uid :
  uid ∈ ctx_cancelled s -> uid ∈ ctx_cancelled (apply_event ev s).
Proof.
  destruct ev; simpl; auto.
  - destruct wg; auto.
  - destruct ctx; simpl; auto. intros. by right.
  - destruct res; auto. unfold close_sub. by destruct (broker_subs s !! sub).
  - by destruct res.
Qed.

Lemma cancel_inv_transition cfg m m' :
  cancel_inv m -> panicked m = None -> transition cfg m m' -> cancel_inv m'.
Proof.
  intros Hinv _ Ht.
  destruct Ht as [c|n|sub msg b Hb Ho Hc|tid g r msg Hg He
                 |tid g X o k r x s' ev Hg Hbody Ho|tid g child k Hg Hbody
                 |tid g topic qg cb opts k e Hg Hbody
                 |tid g topic qg cb opts k Hg Hbody];
    intros t parent uid Hin; simpl in *; try (by eapply Hinv).
  - apply exec_op_sound in Ho as [-> _].
    apply elem_of_app in Hin as [Hin|Hin].
    + eapply apply_event_cancelled, Hinv, Hin.
    + apply list_elem_of_singleton in Hin. simplify_eq. simpl. by left.
  - apply elem_of_app in Hin as [Hin|Hin]; [by eapply Hinv|].
    apply list_elem_of_singleton in Hin. simplify_eq.
  - apply elem_of_app in Hin as [Hin|Hin]; [by eapply Hinv|].
    apply list_elem_of_singleton in Hin. simplify_eq.
  - apply elem_of_app in Hin as [Hin|Hin]; [by eapply Hinv|].
    apply list_elem_of_singleton in Hin. simplify_eq.
Qed.

Lemma cancel_inv_run cfg acts m : run cfg acts boot = Some m -> cancel_inv m.
Proof.
  intros Hrun. eapply (run_invariant cfg cancel_inv); eauto.
  - intros. by eapply cancel_inv_transition.
  - intros t parent uid Hin. by apply elem_of_nil in Hin.
Qed.

Lemma processMessage_cancels cfg ctx msg out fields steps evs v msg0 :
  run_goroutine steps (processMessage cfg ctx msg out fields) = Some (evs, Return v) ->
  EvUnmarshal msg (inl msg0) ∈ evs ->
  exists uid,
    EvWithCancel (WithCancelOf ctx uid) ∈ evs /\
    EvCancelCtx (WithCancelOf ctx uid) ∈ evs /\
    ((sends evs = [] /\ selects evs = [EvSelect BClosing]) \/
     (exists b,
        (b = BAcked \/ b = BNacked \/ b = BTimeout \/ b = BClosing) /\
        sends evs = [EvSend out (SetContext msg0 (WithCancelOf ctx uid))] /\
        selects evs = [EvSelect b])).
Proof.
  intros H Hin. unfold processMessage in H. follow H.
  all: repeat (apply elem_of_cons in Hin as [Hin|Hin]; [try congruence|]);
    try by apply elem_of_nil in Hin.
  all: assert (m = msg0) by congruence; subst m.
  all: eexists; split; [do 4 right; left|].
  all: split;
    [repeat first [by apply list_elem_of_here | apply list_elem_of_further]|].
  all: first [left; split; reflexivity | right; eexists; split; [|split; reflexivity]; eauto].
Qed.

(** The one message a returned callback put up for delivery is the
    unmarshaler's, with the context the callback derived attached to it. *)
Lemma processMessage_offers cfg ctx msg out fields steps evs v msg0 uid :
  run_goroutine steps (processMessage cfg ctx msg out fields) = Some (evs, Return v) ->
  EvUnmarshal msg (inl msg0) ∈ evs ->
  EvWithCancel (WithCancelOf ctx uid) ∈ evs ->
  offered steps (processMessage cfg ctx msg out fields)
  = [(out, SetContext msg0 (WithCancelOf ctx uid))].
Proof.
  intros H Hin Hw. unfold processMessage in *. follow H.
  all: repeat (apply elem_of_cons in Hin as [Hin|Hin]; [try congruence|]);
    try by apply elem_of_nil in Hin.
  all: assert (m = msg0) by congruence; subst m.
  all: repeat (apply elem_of_cons in Hw as [Hw|Hw]; [try congruence|]);
    try by apply elem_of_nil in Hw.
  all: simplify_eq.
  all: repeat (simpl;
         try match goal with
             | Heq : ?l = _ |- context [?l] => rewrite Heq
             end).
  all: reflexivity.
Qed.

(** C6: when the unmarshaler accepts the broker's message, the callback
    derives a cancellable context from its own, attaches it to the message,
    and has run its cancel function by the time it returns, so that the
    context of the message is cancelled then; this on each of the ways out,
    which are the closing signal during delivery and, after delivery, the
    ack, the nack, the ack-wait timeout and the closing signal.  The message
    is the one the callback puts up for delivery, whether the consumer
    receives it or the closing signal comes first. *)
Theorem message_scope_cancelled_on_return cfg acts m tid g sub msg v msg0 :
  run cfg acts boot = Some m ->
  pool m !! tid = Some g ->
  entry g = EntryCallback sub msg ->
  body g = Return v ->
  EvUnmarshal msg (inl msg0) ∈ events_of tid (trace m) ->
  exists ctx out fields steps scope sent,
    run_goroutine steps (processMessage cfg ctx msg out fields)
    = Some (events_of tid (trace m), Return v) /\
    offered steps (processMessage cfg ctx msg out fields) = [(out, sent)] /\
    sent = SetContext msg0 scope /\
    msg_ctx sent = scope /\
    EvWithCancel scope ∈ events_of tid (trace m) /\
    EvCancelCtx scope ∈ events_of tid (trace m) /\
    ctx_done (store m) (msg_ctx sent) = true /\
    ((sends (events_of tid (trace m)) = [] /\
      selects (events_of tid (trace m)) = [EvSelect BClosing]) \/
     (exists b,
        (b = BAcked \/ b = BNacked \/ b = BTimeout \/ b = BClosing) /\
        sends (events_of tid (trace m)) = [EvSend out sent] /\
        selects (events_of tid (trace m)) = [EvSelect b])).
Proof.
  intros Hrun Hg He Hb Hin.
  destruct (callback_history _ _ _ _ _ _ _ _ Hrun Hg He Hb)
    as (ctx & out & fields & steps & Hr).
  destruct (processMessage_cancels _ _ _ _ _ _ _ _ _ Hr Hin)
    as (uid & Hw & Hc & Hpath).
  exists ctx, out, fields, steps, (WithCancelOf ctx uid),
    (SetContext msg0 (WithCancelOf ctx uid)).
  split; [done|]. split; [by eapply processMessage_offers|].
  split; [done|]. split; [done|]. split; [done|]. split; [done|]. split.
  - apply elem_of_events_of in Hc. apply (cancel_inv_run _ _ _ Hrun) in Hc.
    simpl. by rewrite bool_decide_eq_true_2.
  - destruct Hpath as [?|(b & ? & ? & ?)]; [by left|right; eauto].
Qed.

Lemma message_scope_cancelled_on_return_witness :
  exists sent,
    sends (events_of 2 (trace (machine_after one_worker acked_acts)))
    = [EvSend 0%nat sent] /\
    msg_ctx sent = WithCancelOf (Scope 0) 0 /\
    EvCancelCtx (msg_ctx sent)
      ∈ events_of 2 (trace (machine_after one_worker acked_acts)) /\
    ctx_done (store (machine_after one_worker acked_acts)) (msg_ctx sent) = true.
Proof.
  destruct (message_scope_cancelled_on_return one_worker acked_acts
              (machine_after one_worker acked_acts) 2
              {| entry := EntryCallback 0%nat good_msg; body := Return VUnit |}
              0%nat good_msg VUnit
              {| UUID := "uuid"; Payload := "payload"; msg_ctx := Background |})
    as (ctx & out & fields & steps & scope & sent
        & _ & _ & Hsent & Hctx & Hw & Hc & Hd & Hpath).
  - vm_compute. reflexivity.
  - vm_compute. reflexivity.
  - reflexivity.
  - reflexivity.
  - vm_compute. do 3 right. left.
  - exists sent.
    assert (Hs : scope = WithCancelOf (Scope 0) 0).
    { vm_compute in Hw.
      repeat (apply elem_of_cons in Hw as [Hw|Hw]; [try discriminate Hw|]).
      - by injection Hw.
      - by apply elem_of_nil in Hw. }
    destruct Hpath as [[Hs0 _]|(b & _ & Hs1 & _)].
    + vm_compute in Hs0. discriminate Hs0.
    + assert (Ho : out = 0%nat).
      { vm_compute in Hs1. by injection Hs1. }
      rewrite Ho in Hs1. rewrite Hctx.
      split; [exact Hs1|]. split; [exact Hs|]. split; [exact Hc|].
      rewrite <- Hctx. exact Hd.
Defined.

(** ** Shutdown *)

Lemma count_snoc f evs ev :
  count f (evs ++ [ev]) = (count f evs + if f ev then 1 else 0)%nat.
Proof.
  unfold count. rewrite filter_app, length_app, filter_cons, filter_nil.
  destruct (f ev); simpl; done.
Qed.

Lemma count_pos f evs ev : ev ∈ evs -> f ev = true -> (1 <= count f evs)%nat.
Proof.
  intros Hin Hf. unfold count.
  assert (Hin' : ev ∈ filter (fun ev => f ev = true) evs)
    by (apply list_elem_of_filter; by split).
  destruct (filter _ evs); [by apply elem_of_nil in Hin'|simpl; lia].
Qed.

Lemma apply_event_closing ev s :
  closing (apply_event ev s) = (closing s || is_close_closing ev).
Proof.
  destruct ev; simpl; rewrite ?orb_false_r, ?orb_true_r; try done.
  - by destruct wg.
  - by destruct ctx.
  - destruct res; [done|]. unfold close_sub. by destruct (broker_subs s !! sub).
  - by destruct res.
Qed.

Lemma closing_inv_transition cfg m m' :
  closing_inv m -> panicked m = None -> transition cfg m m' -> closing_inv m'.
Proof.
  unfold closing_inv. intros Hinv _ Ht.
  destruct Ht as [c|n|sub msg b Hb Ho Hc|tid g r msg Hg He
                 |tid g X o k r x s' ev Hg Hbody Ho|tid g child k Hg Hbody
                 |tid g topic qg cb opts k e Hg Hbody
                 |tid g topic qg cb opts k Hg Hbody];
    simpl in *; rewrite ?fmap_app; simpl; rewrite ?count_snoc; simpl;
    rewrite ?Nat.add_0_r; try done.
  apply exec_op_sound in Ho as [-> Hen].
  rewrite apply_event_closing, Hinv.
  destruct ev; simpl in *; rewrite ?orb_false_r; try lia.
  rewrite Hen. simpl. lia.
Qed.

Lemma closing_inv_run cfg acts m : run cfg acts boot = Some m -> closing_inv m.
Proof.
  intros Hrun. eapply (run_invariant cfg closing_inv); eauto.
  - intros. by eapply closing_inv_transition.
  - reflexivity.
Qed.

(** The two ways through [Close]. *)
Lemma Close_runs cfg steps evs v :
  run_goroutine steps (Close cfg) = Some (evs, Return v) ->
  (evs = [EvLock; EvReadClosed true; EvUnlock] /\ v = VError None) \/
  (exists timedOut res,
     evs = [EvLock; EvReadClosed false; EvSetClosed;
            EvLog LDebug "Closing subscriber" None [];
            EvCloseClosing;
            EvWaitGroupTimeout WgOutputs (CloseTimeout cfg) timedOut;
            EvConnClose res;
            EvLog LInfo "StreamingSubscriber closed" None [];
            EvUnlock] /\
     v = VError (errors_Wrap res "cannot close conn")).
Proof.
  intros H. unfold Close in H. follow H; [by left|right; by eexists _, _..].
Qed.

(** C4: the call to [Close] that flips the [closed] flag does, in this
    order: take the lock, find the flag unset, set it, close the [closing]
    channel (closed that once in the whole run), wait on the outputs wait
    group with the configured close timeout, close the broker connection,
    and release the lock.  What it returns is the connection's close error,
    wrapped, or nil; whether the wait timed out does not enter into it. *)
Theorem Close_first_call_order cfg acts m tid g v :
  run cfg acts boot = Some m ->
  pool m !! tid = Some g ->
  entry g = EntryCall CallClose ->
  body g = Return v ->
  EvSetClosed ∈ events_of tid (trace m) ->
  exists timedOut res,
    events_of tid (trace m)
    = [EvLock; EvReadClosed false; EvSetClosed;
       EvLog LDebug "Closing subscriber" None [];
       EvCloseClosing;
       EvWaitGroupTimeout WgOutputs (CloseTimeout cfg) timedOut;
       EvConnClose res;
       EvLog LInfo "StreamingSubscriber closed" None [];
       EvUnlock] /\
    count is_close_closing (snd <$> trace m) = 1%nat /\
    v = VError (errors_Wrap res "cannot close conn") /\
    (res = None <-> v = VError None).
Proof.
  intros Hrun Hg He Hb Hin.
  destruct (call_history _ _ _ _ _ _ _ Hrun Hg He Hb) as (steps & Hr).
  simpl in Hr. apply Close_runs in Hr as [[Hevs _]|(timedOut & res & Hevs & ->)].
  - rewrite Hevs in Hin.
    repeat (apply elem_of_cons in Hin as [Hin|Hin]; [discriminate|]).
    by apply elem_of_nil in Hin.
  - exists timedOut, res. split; [done|]. split; [|split; [done|]].
    + pose proof (closing_inv_run _ _ _ Hrun) as Hc. unfold closing_inv in Hc.
      assert (Hpos : (1 <= count is_close_closing (snd <$> trace m))%nat).
      { apply (count_pos _ _ EvCloseClosing); [|done].
        apply list_elem_of_fmap. exists (tid, EvCloseClosing). split; [done|].
        apply elem_of_events_of. rewrite Hevs. do 4 right. left. }
      destruct (closing (store m)); lia.
    + destruct res; simpl; split; congruence.
Qed.

Lemma Close_first_call_order_witness :
  exists timedOut res,
    events_of 0 (trace (machine_after one_worker close_acts))
    = [EvLock; EvReadClosed false; EvSetClosed;
       EvLog LDebug "Closing subscriber" None [];
       EvCloseClosing;
       EvWaitGroupTimeout WgOutputs (CloseTimeout one_worker) timedOut;
       EvConnClose res;
       EvLog LInfo "StreamingSubscriber closed" None [];
       EvUnlock] /\
    count is_close_closing (snd <$> trace (machine_after one_worker close_acts)) = 1%nat /\
    VError None = VError (errors_Wrap res "cannot close conn") /\
    (res = None <-> VError None = VError None).
Proof.
  eapply (Close_first_call_order one_worker close_acts
            (machine_after one_worker close_acts) 0 _ (VError None)).
  - vm_compute. reflexivity.
  - vm_compute. reflexivity.
  - reflexivity.
  - reflexivity.
  - vm_compute. do 2 right. left.
Defined.

(** ** The output channel *)

Lemma Subscribe_loop_S cfg ctx topic out todo i :
  Subscribe_loop cfg ctx topic out (S todo) i =
  (Log LDebug "Starting subscriber" None
     [("subscriber_num", LInt i); ("topic", LStr topic)] ;;
   subscribe cfg ctx out topic
     [("subscriber_num", LInt i); ("topic", LStr topic)]
     (fun res =>
        match res with
        | inr err => Return (VChan None (errors_Wrap (Some err) "cannot subscribe"))
        | inl sub =>
          go watcher sub ctx out
               [("subscriber_num", LInt i); ("topic", LStr topic)] ;;
          Lock ;;
          AppendSub sub ;;
          Unlock ;;
          Subscribe_loop cfg ctx topic out todo (i + 1)
        end)).
Proof. reflexivity. Qed.

Lemma double_close_panics cfg :
  2 <= SubscribersCount cfg ->
  exists m,
    run cfg double_close_acts boot = Some m /\
    panicked m = Some "close of closed channel" /\
    count (is_close_chan 0%nat) (snd <$> trace m) = 1%nat.
Proof.
  intros Hn.
  destruct (Z.to_nat (SubscribersCount cfg)) as [|[|todo]] eqn:Hto; [lia|lia|].
  destruct cfg as [cluster client group durable workers closeT ackT opts sopts um].
  simpl in Hto.
  unfold double_close_acts. simpl replicate. simpl app.
  unfold run at 1. unfold step at 1. simpl panicked. cbv iota.
  unfold method_body, Subscribe. simpl SubscribersCount. rewrite Hto.
  destruct group as [|a group].
  - eexists. split; [vm_compute; reflexivity|]. split; vm_compute; reflexivity.
  - eexists. split; [vm_compute; reflexivity|]. split; vm_compute; reflexivity.
Qed.

Lemma send_after_close_panics cfg u msg msg0 :
  1 <= SubscribersCount cfg ->
  Unmarshaler cfg = Some u ->
  u msg = inl msg0 ->
  exists m,
    run cfg (send_after_close_acts msg) boot = Some m /\
    panicked m = Some "send on closed channel".
Proof.
  intros Hn Hu Hmsg.
  destruct (Z.to_nat (SubscribersCount cfg)) as [|todo] eqn:Hto; [lia|].
  destruct cfg as [cluster client group durable workers closeT ackT opts sopts um].
  simpl in Hto, Hu. subst um.
  change (send_after_close_acts msg) with
    ((Call (CallSubscribe (Scope 0) "topic") :: replicate 8 (Step 0 Proceed)
      ++ [Deliver 0%nat msg] ++ replicate 4 (Step 2 Proceed))
     ++ (replicate 2 (Step 2 Proceed)
         ++ [CancelScope 0]
         ++ [Step 1 (Pick BCtxDone); Step 1 Proceed; Step 1 Proceed]
         ++ [Step 2 (Pick BSend)])).
  rewrite run_app.
  destruct group as [|a group].
  - match goal with
    | |- context [match run ?c ?a1 boot with _ => _ end] =>
      eassert (H1 : run c a1 boot = Some _)
    end.
    { simpl replicate. simpl app.
      unfold run at 1. unfold step at 1. simpl panicked. cbv iota.
      unfold method_body, Subscribe. simpl SubscribersCount. rewrite Hto.
      vm_compute. reflexivity. }
    rewrite H1, Hmsg. eexists. split; vm_compute; reflexivity.
  - match goal with
    | |- context [match run ?c ?a1 boot with _ => _ end] =>
      eassert (H1 : run c a1 boot = Some _)
    end.
    { simpl replicate. simpl app.
      unfold run at 1. unfold step at 1. simpl panicked. cbv iota.
      unfold method_body, Subscribe. simpl SubscribersCount. rewrite Hto.
      vm_compute. reflexivity. }
    rewrite H1, Hmsg. eexists. split; vm_compute; reflexivity.
Qed.

(** C1, as the code has it: every watcher of a [Subscribe] call closes the
    call's one output channel, so with two or more workers the second
    watcher to get there closes a closed channel and the program panics,
    after exactly one successful close; and with any number of workers a
    callback may still be at its send when the watcher has closed the
    channel, which panics as well. *)
Theorem output_closed_by_each_watcher cfg :
  (2 <= SubscribersCount cfg ->
   exists m,
     run cfg double_close_acts boot = Some m /\
     panicked m = Some "close of closed channel" /\
     count (is_close_chan 0%nat) (snd <$> trace m) = 1%nat) /\
  (forall u msg msg0,
     1 <= SubscribersCount cfg ->
     Unmarshaler cfg = Some u ->
     u msg = inl msg0 ->
     exists m,
       run cfg (send_after_close_acts msg) boot = Some m /\
       panicked m = Some "send on closed channel").
Proof.
  split.
  - apply double_close_panics.
  - intros u msg msg0. apply send_after_close_panics.
Qed.

Lemma output_closed_by_each_watcher_witness :
  (exists m,
     run two_workers double_close_acts boot = Some m /\
     panicked m = Some "close of closed channel" /\
     count (is_close_chan 0%nat) (snd <$> trace m) = 1%nat) /\
  (exists m,
     run one_worker (send_after_close_acts good_msg) boot = Some m /\
     panicked m = Some "send on closed channel").
Proof.
  destruct (output_closed_by_each_watcher two_workers) as [H2 _].
  destruct (output_closed_by_each_watcher one_worker) as [_ H1].
  split.
  - apply H2. vm_compute. discriminate.
  - apply (H1 sample_unmarshaler good_msg
             {| UUID := "uuid"; Payload := "payload"; msg_ctx := Background |}).
    + vm_compute. discriminate.
    + reflexivity.
    + reflexivity.
Defined.

(** ** Protocols: the kinds follow the machine *)

Section protocol.
Context {K : Type} (P : Protocol K) (cfg : StreamingSubscriberConfig).
Hypothesis methods_follow :
  forall c, follows P (of_method P c) (method_body cfg c).

Lemma kinded_boot : kinded P boot [].
Proof.
  split; simpl; [constructor|].
  intros b msg Hin. by apply elem_of_nil in Hin.
Qed.

Lemma kinded_lookup m kds tid g :
  kinded P m kds -> pool m !! tid = Some g ->
  exists kd, kds !! tid = Some kd /\ follows P kd (body g).
Proof. intros [Hf _] Hg. eapply Forall2_lookup_l in Hf; eauto. Qed.

Lemma kinded_update (l : list Goroutine) kds tid g p kd :
  Forall2 (fun g kd => follows P kd (body g)) l kds ->
  follows P kd p ->
  Forall2 (fun g kd => follows P kd (body g)) (update tid g p l) (<[tid := kd]> kds).
Proof. intros Hf Hp. unfold update. by apply Forall2_insert. Qed.

Lemma kinded_transition m kds m' :
  kinded P m kds -> transition cfg m m' ->
  exists kds', kinded_step P cfg m kds m' kds' /\ kinded P m' kds'.
Proof.
  intros Hk Ht.
  destruct Ht as [c|n|sub msg b Hb Ho Hc|tid g r msg Hg He
                 |tid g X o k r x s' ev Hg Hbody Ho|tid g child k Hg Hbody
                 |tid g topic qg cb opts k e Hg Hbody
                 |tid g topic qg cb opts k Hg Hbody].
  - exists (kds ++ [of_method P c]). split; [constructor|].
    destruct Hk as [Hf Hcb]. split; simpl; [|done].
    apply Forall2_app; [done|]. constructor; [apply methods_follow|constructor].
  - exists kds. split; [constructor|]. destruct Hk as [Hf Hcb]. by split.
  - exists (kds ++ [of_callback P]). split; [by econstructor|].
    destruct Hk as [Hf Hcb]. split; simpl; [|done].
    apply Forall2_app; [done|]. constructor; [|constructor]. simpl.
    apply Hcb. apply list_elem_of_lookup. eauto.
  - exists kds. split; [constructor|]. destruct Hk as [Hf Hcb]. by split.
  - destruct (kinded_lookup _ _ _ _ Hk Hg) as (kd & Hkd & Hfol).
    rewrite Hbody in Hfol. simpl in Hfol.
    destruct (Hfol _ _ _ _ _ Ho) as (kd' & Hon & Hfol').
    apply exec_op_sound in Ho as [-> Hen].
    exists (<[tid := kd']> kds). split; [by econstructor|].
    destruct Hk as [Hf Hcb]. split; simpl.
    + by apply kinded_update.
    + intros b msg Hin. apply apply_event_cb in Hin as (b0 & Hin & ->). auto.
  - destruct (kinded_lookup _ _ _ _ Hk Hg) as (kd & Hkd & Hfol).
    rewrite Hbody in Hfol. simpl in Hfol.
    destruct Hfol as (kc & kk & Hon & Hc & Hkk).
    exists (<[tid := kk]> kds ++ [kc]). split; [by econstructor|].
    destruct Hk as [Hf Hcb]. split; simpl; [|done].
    apply Forall2_app; [by apply kinded_update|].
    constructor; [done|constructor].
  - destruct (kinded_lookup _ _ _ _ Hk Hg) as (kd & Hkd & Hfol).
    rewrite Hbody in Hfol. simpl in Hfol. destruct Hfol as [Hcbk Hfol].
    destruct (Hfol (inr e)) as (kd' & Hon & Hfol').
    exists (<[tid := kd']> kds). split; [by econstructor|].
    destruct Hk as [Hf Hcb]. split; simpl; [|done].
    by apply kinded_update.
  - destruct (kinded_lookup _ _ _ _ Hk Hg) as (kd & Hkd & Hfol).
    rewrite Hbody in Hfol. simpl in Hfol. destruct Hfol as [Hcbk Hfol].
    destruct (Hfol (inl (length (broker_subs (store m))))) as (kd' & Hon & Hfol').
    exists (<[tid := kd']> kds). split; [by econstructor|].
    destruct Hk as [Hf Hcb]. split; simpl.
    + by apply kinded_update.
    + intros b msg Hin. apply elem_of_app in Hin as [Hin|Hin]; [auto|].
      apply list_elem_of_singleton in Hin as ->. simpl. apply Hcbk.
Qed.

(** An invariant of machines with kinds, once it holds, holds of every
    machine a run reaches, with some assignment of kinds. *)
Lemma protocol_invariant_from (I : Machine -> list K -> Prop) :
  (forall m kds m' kds',
     I m kds -> kinded P m kds -> panicked m = None ->
     kinded_step P cfg m kds m' kds' -> kinded P m' kds' -> I m' kds') ->
  forall acts m m',
    (exists kds, kinded P m kds /\ I m kds) ->
    run cfg acts m = Some m' ->
    exists kds, kinded P m' kds /\ I m' kds.
Proof.
  intros Hstep acts m m' Hm Hrun.
  apply (run_invariant cfg (fun m => exists kds, kinded P m kds /\ I m kds))
    with (acts := acts) (m := m); [|done|done].
  intros m0 m1 (kds & Hk & Hi) Hp Ht.
  destruct (kinded_transition _ _ _ Hk Ht) as (kds' & Hks & Hk').
  eauto.
Qed.

Lemma protocol_invariant (I : Machine -> list K -> Prop) :
  I boot [] ->
  (forall m kds m' kds',
     I m kds -> kinded P m kds -> panicked m = None ->
     kinded_step P cfg m kds m' kds' -> kinded P m' kds' -> I m' kds') ->
  forall acts m, run cfg acts boot = Some m ->
    exists kds, kinded P m kds /\ I m kds.
Proof.
  intros Hboot Hstep acts m Hrun.
  eapply protocol_invariant_from; eauto using kinded_boot.
Qed.
End protocol.

Lemma tally_app {K : Type} (f : K -> nat) l1 l2 :
  tally f (l1 ++ l2) = (tally f l1 + tally f l2)%nat.
Proof. induction l1 as [|x l1 IH]; simpl; [done|]. rewrite IH. lia. Qed.

Lemma tally_insert {K : Type} (f : K -> nat) l i (x y : K) :
  l !! i = Some x ->
  (tally f (<[i := y]> l) + f x = tally f l + f y)%nat.
Proof.
  revert i. induction l as [|z l IH]; intros i Hi; [done|].
  destruct i as [|i]; simpl in *.
  - simplify_eq. lia.
  - specialize (IH i Hi). lia.
Qed.

Lemma tally_lookup {K : Type} (f : K -> nat) l i (x : K) :
  l !! i = Some x -> (f x <= tally f l)%nat.
Proof.
  revert i. induction l as [|z l IH]; intros i Hi; [done|].
  destruct i as [|i]; simpl in *.
  - simplify_eq. lia.
  - specialize (IH i Hi). lia.
Qed.

(** ** [Close] once and for all *)

Lemma follows_Do {K X : Type} (P : Protocol K) kd (o : Op X) k :
  (forall r s x s' ev, exec_op o r s = Done x s' ev ->
     exists kd', on_event P kd ev = Some kd' /\ follows P kd' (k x)) ->
  follows P kd (Do o k).
Proof. done. Qed.

Lemma follows_Go {K : Type} (P : Protocol K) kd kc kk child k :
  on_go P kd = Some (kc, kk) -> follows P kc child -> follows P kk k ->
  follows P kd (Go child k).
Proof. intros. simpl. eauto. Qed.

Lemma follows_StanSubscribe {K : Type} (P : Protocol K) kd topic qg cb opts k :
  (forall m, follows P (of_callback P) (cb m)) ->
  (forall res, exists kd', on_subscribe P kd res = Some kd' /\ follows P kd' (k res)) ->
  follows P kd (StanSubscribe topic qg cb opts k).
Proof. intros. simpl. eauto. Qed.

(** Checking a body against a protocol, one operation at a time. *)
Ltac follows_tac :=
  repeat (cbv beta;
    lazymatch goal with
    | |- follows _ _ (Return _) => simpl; auto
    | |- follows _ _ (Do _ _) =>
      let Hop := fresh "Hop" in
      apply follows_Do; intros ? ? ? ? ? Hop; simpl in Hop; split_op Hop;
      try match goal with
          | |- context [EvReadClosed ?b] => destruct b eqn:?
          end;
      (eexists; split; [reflexivity|])
    | |- follows _ _ (Go _ _) => eapply follows_Go; [reflexivity| |]
    | |- follows _ _ (StanSubscribe _ _ _ _ _) =>
      apply follows_StanSubscribe;
      [intros ?|intros [?|?]; (eexists; split; [reflexivity|])]
    | |- follows _ _ (if ?b then _ else _) => destruct b
    | |- follows _ _ (match ?t with _ => _ end) => destruct t
    | _ => fail
    end).

Lemma follows_lock_callback cfg ctx msg out fields :
  follows lock_protocol LkFree (processMessage cfg ctx msg out fields).
Proof. unfold processMessage. follows_tac. Qed.

Lemma follows_lock_watcher sub ctx out fields :
  follows lock_protocol LkFree (watcher sub ctx out fields).
Proof. unfold watcher. follows_tac. Qed.

Lemma follows_lock_Subscribe_loop cfg ctx topic out todo i :
  follows lock_protocol LkFree (Subscribe_loop cfg ctx topic out todo i).
Proof.
  revert i. induction todo as [|todo IH]; intros i; [by left|].
  rewrite Subscribe_loop_S. unfold subscribe.
  follows_tac; auto using follows_lock_callback, follows_lock_watcher.
Qed.

Lemma follows_lock_methods cfg c :
  follows lock_protocol (of_method lock_protocol c) (method_body cfg c).
Proof.
  destruct c as [ctx topic|topic|]; cbn [method_body of_method lock_protocol].
  - unfold Subscribe. follows_tac. apply follows_lock_Subscribe_loop.
  - unfold SubscribeInitialize, subscribe.
    follows_tac; auto using follows_lock_callback.
  - unfold Close. follows_tac.
Qed.

Lemma apply_event_subsLock ev s :
  subsLock (apply_event ev s) =
  match ev with EvLock => true | EvUnlock => false | _ => subsLock s end.
Proof.
  destruct ev; simpl; try done.
  - by destruct wg.
  - by destruct ctx.
  - destruct res; [done|]. unfold close_sub. by destruct (broker_subs s !! sub).
  - by destruct res.
Qed.

Lemma apply_event_closed ev s :
  closed (apply_event ev s) =
  match ev with EvSetClosed => true | _ => closed s end.
Proof.
  destruct ev; simpl; try done.
  - by destruct wg.
  - by destruct ctx.
  - destruct res; [done|]. unfold close_sub. by destruct (broker_subs s !! sub).
  - by destruct res.
Qed.

Lemma lock_on_event_close kd ev kd' :
  lock_on_event kd ev = Some kd' ->
  kd <> LkFree /\ kd <> LkHeld -> kd' <> LkFree /\ kd' <> LkHeld.
Proof.
  intros Hon [H1 H2].
  destruct kd; try done; destruct ev; simpl in Hon; simplify_eq; try done;
    repeat case_match; simplify_eq; done.
Qed.

Lemma kinded_length {K : Type} (P : Protocol K) m kds :
  kinded P m kds -> length (pool m) = length kds.
Proof. intros [Hf _]. by eapply Forall2_length. Qed.

(** The kind and the goroutine at a number, after a step of goroutine
    [tid] that may have started one more goroutine. *)
Lemma lookup_stepped {K : Type} (l : list Goroutine) (kds : list K)
    tid g p kd' extra kextra i g' kdi :
  length l = length kds ->
  length extra = length kextra ->
  l !! tid = Some g ->
  (update tid g p l ++ extra) !! i = Some g' ->
  (<[tid := kd']> kds ++ kextra) !! i = Some kdi ->
  (i = tid /\ g' = {| entry := entry g; body := p |} /\ kdi = kd') \/
  (i <> tid /\ l !! i = Some g' /\ kds !! i = Some kdi) \/
  ((length l <= i)%nat /\ extra !! (i - length l)%nat = Some g' /\
   kextra !! (i - length l)%nat = Some kdi).
Proof.
  intros Hlen Hlen' Hg Hi Hk. unfold update in Hi.
  apply lookup_app_Some in Hi as [Hi|[Hge Hi]];
    apply lookup_app_Some in Hk as [Hk|[Hge' Hk]];
    rewrite ?length_insert in *.
  - apply list_lookup_insert_Some in Hi as [(-> & <- & _)|[Hne Hi]];
      apply list_lookup_insert_Some in Hk as [(? & <- & _)|[Hne' Hk]];
      try done; auto.
  - apply lookup_lt_Some in Hi. rewrite length_insert in Hi. lia.
  - apply lookup_lt_Some in Hk. rewrite length_insert in Hk. lia.
  - right. right. rewrite Hlen. rewrite Hlen in Hi. auto with lia.
Qed.

Lemma lookup_spawned {K : Type} (l : list Goroutine) (kds : list K) g0 k0 i g' kdi :
  length l = length kds ->
  (l ++ [g0]) !! i = Some g' ->
  (kds ++ [k0]) !! i = Some kdi ->
  (l !! i = Some g' /\ kds !! i = Some kdi) \/ (g' = g0 /\ kdi = k0).
Proof.
  intros Hlen Hi Hk.
  apply lookup_app_Some in Hi as [Hi|[Hge Hi]];
    apply lookup_app_Some in Hk as [Hk|[Hge' Hk]].
  - auto.
  - apply lookup_lt_Some in Hi. lia.
  - apply lookup_lt_Some in Hk. lia.
  - apply list_lookup_singleton_Some in Hi as [_ <-].
    apply list_lookup_singleton_Some in Hk as [_ <-]. auto.
Qed.

Lemma conn_closes_snoc m s p tid ev pn :
  conn_closes {| store := s; pool := p; trace := trace m ++ [(tid, ev)];
                 panicked := pn |}
  = (conn_closes m + if is_conn_close ev then 1 else 0)%nat.
Proof. unfold conn_closes. cbn [trace]. rewrite fmap_app. apply count_snoc. Qed.

Lemma tally_lockers kds :
  (tally lk_locked kds + tally lk_unset kds + tally lk_set kds
   <= tally lk_holds kds)%nat.
Proof.
  induction kds as [|kd kds IH]; simpl; [lia|]. destruct kd; simpl; lia.
Qed.

Lemma lock_inv_spawn m kds e p k0 :
  lock_inv m kds -> length (pool m) = length kds ->
  lk_holds k0 = 0%nat -> lk_set k0 = 0%nat -> lk_unset k0 = 0%nat ->
  lk_past k0 = 0%nat ->
  (e = EntryCall CallClose -> k0 <> LkFree /\ k0 <> LkHeld) ->
  lock_inv (spawn e p m) (kds ++ [k0]).
Proof.
  intros (Ha & Hb & Hc & Hd & He) Hlen H1 H2 H3 H4 Hent.
  unfold lock_inv, conn_closes in *. simpl. rewrite !tally_app. simpl.
  rewrite H1, H2, H3, H4, !Nat.add_0_r.
  split; [done|]. split; [done|]. split; [done|]. split; [done|].
  intros i g' kdi Hi Hki Hg'.
  destruct (lookup_spawned _ _ _ _ _ _ _ Hlen Hi Hki) as [[? ?]|[-> ->]].
  - by eapply He.
  - by apply Hent.
Qed.

Lemma lock_inv_neutral m kds tid g p' s' ev :
  lock_inv m kds -> length (pool m) = length kds ->
  pool m !! tid = Some g -> kds !! tid = Some LkFree ->
  subsLock s' = subsLock (store m) -> closed s' = closed (store m) ->
  is_conn_close ev = false ->
  lock_inv {| store := s'; pool := update tid g p' (pool m);
              trace := trace m ++ [(tid, ev)]; panicked := None |}
           (<[tid := LkFree]> kds).
Proof.
  intros (Ha & Hb & Hc & Hd & He) Hlen Hg Hkd Hl Hcl Hev.
  unfold lock_inv. rewrite conn_closes_snoc, Hev, Nat.add_0_r. simpl.
  rewrite Hl, Hcl, (list_insert_id _ _ _ Hkd).
  split; [done|]. split; [done|]. split; [done|]. split; [done|].
  intros i g' kdi Hi Hki Hent.
  apply list_lookup_insert_Some in Hi as [(-> & <- & _)|[_ Hi]].
  - simpl in Hent. eapply He; eauto.
  - eapply He; eauto.
Qed.

Lemma lock_inv_step cfg m kds m' kds' :
  lock_inv m kds -> kinded lock_protocol m kds -> panicked m = None ->
  kinded_step lock_protocol cfg m kds m' kds' ->
  kinded lock_protocol m' kds' ->
  lock_inv m' kds'.
Proof.
  intros Hinv Hk _ Hs _.
  pose proof (kinded_length _ _ _ Hk) as Hlen.
  destruct Hs as [c|n|sub msg b Hb' Ho Hc'|msg
                 |tid g kd kd' ev p' Hg Hkd Hen Hon
                 |tid g kd kc kk child k Hg Hkd Hbody Hon
                 |tid g kd kd' topic qg e p' Hg Hkd Hon
                 |tid g kd kd' topic qg cb opts p' Hg Hkd Hon].
  - apply lock_inv_spawn; try done; by destruct c.
  - done.
  - by apply lock_inv_spawn.
  - done.
  - destruct Hinv as (Ha & Hb & Hc & Hd & He).
    assert (Hent : forall i g' kdi,
              update tid g p' (pool m) !! i = Some g' ->
              <[tid := kd']> kds !! i = Some kdi ->
              entry g' = EntryCall CallClose -> kdi <> LkFree /\ kdi <> LkHeld).
    { intros i g' kdi Hi Hki Hent.
      rewrite <- (app_nil_r (update _ _ _ _)) in Hi.
      rewrite <- (app_nil_r (<[_ := _]> _)) in Hki.
      destruct (lookup_stepped (pool m) kds tid g p' kd' [] [] i g' kdi
                  Hlen eq_refl Hg Hi Hki)
        as [(-> & -> & ->)|[(_ & Hi' & Hki')|(_ & Hi' & _)]].
      - simpl in Hent. eapply lock_on_event_close; eauto.
      - eauto.
      - by rewrite lookup_nil in Hi'. }
    pose proof (tally_insert lk_holds _ _ _ kd' Hkd) as T1.
    pose proof (tally_insert lk_set _ _ _ kd' Hkd) as T2.
    pose proof (tally_insert lk_unset _ _ _ kd' Hkd) as T3.
    pose proof (tally_insert lk_past _ _ _ kd' Hkd) as T4.
    pose proof (tally_lookup lk_locked _ _ _ Hkd) as U1.
    pose proof (tally_lookup lk_unset _ _ _ Hkd) as U2.
    pose proof (tally_lookup lk_set _ _ _ Hkd) as U3.
    pose proof (tally_lookup lk_past _ _ _ Hkd) as U4.
    pose proof (tally_lockers kds) as L1.
    unfold lock_inv. rewrite conn_closes_snoc. simpl store. simpl pool.
    rewrite apply_event_subsLock, apply_event_closed.
    split; [|split; [|split; [|split; [|done]]]]; clear Hent He Hk Hg Hlen.
    all: simpl in Hon.
    all: destruct (subsLock (store m)) eqn:Hlock;
      destruct (closed (store m)) eqn:Hclosed;
      first [specialize (Hc eq_refl)|clear Hc].
    all: destruct kd; try discriminate; destruct ev; simpl in Hon, Hen;
      try discriminate; rewrite ?Hlock, ?Hclosed in Hen; simplify_eq;
      simpl in *|-; simpl; try lia; try (intros; lia).
  - simpl in Hon. destruct kd; simplify_eq.
    apply (lock_inv_spawn
             {| store := store m; pool := update tid g k (pool m);
                trace := trace m ++ [(tid, EvGo)]; panicked := None |}
             (<[tid := LkFree]> kds) (EntryGo tid) child LkFree); try done.
    + by apply lock_inv_neutral.
    + simpl. unfold update. by rewrite !length_insert.
  - simpl in Hon. destruct kd; simplify_eq. by apply lock_inv_neutral.
  - simpl in Hon. destruct kd; simplify_eq. by apply lock_inv_neutral.
Qed.

Lemma lock_inv_run cfg acts m :
  run cfg acts boot = Some m ->
  exists kds, kinded lock_protocol m kds /\ lock_inv m kds.
Proof.
  apply (protocol_invariant lock_protocol cfg (follows_lock_methods cfg) lock_inv).
  - unfold lock_inv, conn_closes. simpl.
    split; [done|]. split; [done|]. split; [done|]. split; [intros; lia|].
    intros tid g kd Hg. destruct tid; discriminate.
  - intros. by eapply lock_inv_step.
Qed.

Lemma count_cons f ev evs :
  count f (ev :: evs) = ((if f ev then 1 else 0) + count f evs)%nat.
Proof. unfold count. rewrite filter_cons. by destruct (f ev). Qed.

Lemma count_at_most_once f (l : list (nat * Event)) a b :
  (count f (snd <$> l) <= 1)%nat ->
  a ∈ l -> b ∈ l -> f (snd a) = true -> f (snd b) = true -> a = b.
Proof.
  induction l as [|x l IH]; intros Hc Ha Hb Hfa Hfb.
  - by apply elem_of_nil in Ha.
  - rewrite fmap_cons, count_cons in Hc.
    apply elem_of_cons in Ha as [->|Ha]; apply elem_of_cons in Hb as [->|Hb].
    + done.
    + rewrite Hfa in Hc.
      assert (1 <= count f (snd <$> l))%nat; [|lia].
      apply (count_pos _ _ (snd b)); [|done].
      apply list_elem_of_fmap. eauto.
    + rewrite Hfb in Hc.
      assert (1 <= count f (snd <$> l))%nat; [|lia].
      apply (count_pos _ _ (snd a)); [|done].
      apply list_elem_of_fmap. eauto.
    + apply IH; try done. destruct (f (snd x)); lia.
Qed.

(** C3: in every run, the broker connection's [Close] is called at most
    once and by one goroutine only; and once any call to [Close] has
    returned it has been called exactly once, and that call to [Close]
    either is the one that closed the connection or did nothing but take
    the lock, find the flag set and release the lock, and returned nil. *)
Theorem Close_idempotent cfg acts m :
  run cfg acts boot = Some m ->
  (conn_closes m <= 1)%nat /\
  (forall tid tid' res res',
     (tid, EvConnClose res) ∈ trace m -> (tid', EvConnClose res') ∈ trace m ->
     tid = tid') /\
  (forall tid g v,
     pool m !! tid = Some g ->
     entry g = EntryCall CallClose ->
     body g = Return v ->
     conn_closes m = 1%nat /\
     ((exists res, (tid, EvConnClose res) ∈ trace m) \/
      (events_of tid (trace m) = [EvLock; EvReadClosed true; EvUnlock] /\
       v = VError None))).
Proof.
  intros Hrun.
  destruct (lock_inv_run _ _ _ Hrun) as (kds & Hk & Ha & Hb & Hc & Hd & He).
  assert (Hle : (conn_closes m <= 1)%nat) by (destruct (closed (store m)); lia).
  split; [done|]. split.
  - intros tid tid' res res' Hin Hin'.
    assert (Heq : (tid, EvConnClose res) = (tid', EvConnClose res'))
      by (by eapply (count_at_most_once is_conn_close (trace m))).
    congruence.
  - intros tid g v Hg Hent Hbody. split.
    + destruct (kinded_lookup _ _ _ _ _ Hk Hg) as (kd & Hkd & Hfol).
      rewrite Hbody in Hfol. simpl in Hfol.
      destruct (He _ _ _ Hg Hkd Hent) as [Hne _].
      destruct Hfol as [->| ->]; [done|].
      apply Hd. apply (tally_lookup lk_past) in Hkd. simpl in Hkd. lia.
    + destruct (call_history _ _ _ _ _ _ _ Hrun Hg Hent Hbody) as (steps & Hr).
      simpl in Hr.
      apply Close_runs in Hr as [[Hevs ->]|(timedOut & res & Hevs & ->)].
      * by right.
      * left. exists res. apply elem_of_events_of. rewrite Hevs.
        do 6 right. left.
Qed.

Lemma Close_idempotent_witness :
  conn_closes (machine_after one_worker close_twice_acts) = 1%nat /\
  ((exists res,
      (1%nat, EvConnClose res) ∈ trace (machine_after one_worker close_twice_acts)) \/
   (events_of 1 (trace (machine_after one_worker close_twice_acts))
    = [EvLock; EvReadClosed true; EvUnlock] /\
    VError None = VError None)).
Proof.
  destruct (Close_idempotent one_worker close_twice_acts
              (machine_after one_worker close_twice_acts)) as (_ & _ & H).
  - vm_compute. reflexivity.
  - apply (H 1%nat {| entry := EntryCall CallClose; body := Return (VError None) |}).
    + vm_compute. reflexivity.
    + reflexivity.
    + reflexivity.
Defined.

(** ** The outputs wait group *)

Ltac follows_wg_tac :=
  repeat (cbv beta;
    lazymatch goal with
    | |- follows _ _ (Return _) => simpl; eauto
    | |- follows _ _ (Do _ _) =>
      let Hop := fresh "Hop" in
      apply follows_Do; intros ? ? ? ? ? Hop; simpl in Hop; split_op Hop;
      (eexists; split;
       [cbn [on_event wg_protocol wg_on_event];
        rewrite ?bool_decide_eq_true_2, ?Z.eqb_refl by done; reflexivity|])
    | |- follows _ _ (Go _ _) => eapply follows_Go; [reflexivity| |]
    | |- follows _ _ (StanSubscribe _ _ _ _ _) =>
      apply follows_StanSubscribe;
      [intros ?|intros [?|?]; (eexists; split; [reflexivity|])]
    | |- follows _ _ (if ?b then _ else _) => destruct b
    | |- follows _ _ (match ?t with _ => _ end) => destruct t
    | _ => fail
    end).

Lemma follows_wg_callback cfg ctx msg out fields :
  follows (wg_protocol cfg) WkInert (processMessage cfg ctx msg out fields).
Proof. unfold processMessage. follows_wg_tac. Qed.

Lemma follows_wg_watcher cfg sub ctx out fields :
  follows (wg_protocol cfg) (WkWatch out) (watcher sub ctx out fields).
Proof. unfold watcher. follows_wg_tac. Qed.

Lemma follows_wg_Subscribe_loop cfg ctx topic out todo i :
  follows (wg_protocol cfg) (WkLoop out) (Subscribe_loop cfg ctx topic out todo i).
Proof.
  revert i. induction todo as [|todo IH]; intros i; [simpl; eauto|].
  rewrite Subscribe_loop_S. unfold subscribe.
  follows_wg_tac; auto using follows_wg_callback, follows_wg_watcher.
Qed.

Lemma follows_wg_methods cfg c :
  follows (wg_protocol cfg) (of_method (wg_protocol cfg) c) (method_body cfg c).
Proof.
  destruct c as [ctx topic|topic|]; cbn [method_body of_method wg_protocol].
  - unfold Subscribe. follows_wg_tac. apply follows_wg_Subscribe_loop.
  - unfold SubscribeInitialize, subscribe.
    follows_wg_tac; auto using follows_wg_callback.
  - unfold Close. follows_wg_tac.
Qed.

Lemma tally_ext {K : Type} (f g : K -> nat) l :
  (forall i kd, l !! i = Some kd -> f kd = g kd) -> tally f l = tally g l.
Proof.
  induction l as [|x l IH]; intros H; simpl; [done|].
  rewrite (H 0%nat x eq_refl), IH; [done|].
  intros i kd Hi. by apply (H (S i)).
Qed.

Lemma tally_mono {K : Type} (f g : K -> nat) l :
  (forall i kd, l !! i = Some kd -> (f kd <= g kd)%nat) ->
  (tally f l <= tally g l)%nat.
Proof.
  induction l as [|x l IH]; intros H; simpl; [done|].
  pose proof (H 0%nat x eq_refl).
  assert (tally f l <= tally g l)%nat; [|lia].
  apply IH. intros i kd Hi. by apply (H (S i)).
Qed.

Lemma tally_mono_strict {K : Type} (f g : K -> nat) l i0 k0 :
  (forall i kd, l !! i = Some kd -> (f kd <= g kd)%nat) ->
  l !! i0 = Some k0 -> (f k0 + 1 <= g k0)%nat ->
  (tally f l + 1 <= tally g l)%nat.
Proof.
  revert i0. induction l as [|x l IH]; intros i0 H Hi0 Hlt; [done|].
  simpl. destruct i0 as [|i0]; simpl in Hi0.
  - simplify_eq.
    assert (tally f l <= tally g l)%nat; [|lia].
    apply tally_mono. intros i kd Hi. by apply (H (S i)).
  - pose proof (H 0%nat x eq_refl).
    assert (tally f l + 1 <= tally g l)%nat; [|lia].
    eapply IH; eauto. intros i kd Hi. by apply (H (S i)).
Qed.

Lemma entries_update (l : list Goroutine) tid g p :
  l !! tid = Some g -> entry <$> update tid g p l = entry <$> l.
Proof.
  intros Hg. unfold update. rewrite list_fmap_insert. simpl.
  apply list_insert_id. by rewrite list_lookup_fmap, Hg.
Qed.

Lemma apply_event_chans ev s :
  chans (apply_event ev s) =
  match ev with
  | EvMakeChan _ => chans s ++ [false]
  | EvCloseChan c => <[c := true]> (chans s)
  | _ => chans s
  end.
Proof.
  destruct ev; simpl; try done.
  - by destruct wg.
  - by destruct ctx.
  - destruct res; [done|]. unfold close_sub. by destruct (broker_subs s !! sub).
  - by destruct res.
Qed.

Lemma apply_event_outputsWg ev s :
  outputsWg (apply_event ev s) =
  match ev with
  | EvWgAdd WgOutputs delta => outputsWg s + delta
  | _ => outputsWg s
  end.
Proof.
  destruct ev; simpl; try done.
  - by destruct wg.
  - by destruct ctx.
  - destruct res; [done|]. unfold close_sub. by destruct (broker_subs s !! sub).
  - by destruct res.
Qed.

(** The shape under each move. *)

Lemma wg_shape_spawn es chs kds e0 kd0 :
  wg_shape es chs kds -> length es = length kds ->
  wk_chan kd0 = None ->
  (forall ctx topic, e0 = EntryCall (CallSubscribe ctx topic) -> kd0 = WkCalled) ->
  wg_shape (es ++ [e0]) chs (kds ++ [kd0]).
Proof.
  intros (W1 & W2 & W3 & W4 & W6) Hlen Hno Hcall.
  assert (Hnew : forall i kd, (kds ++ [kd0]) !! i = Some kd ->
            kds !! i = Some kd \/ (i = length kds /\ kd = kd0)).
  { intros i kd Hi. apply lookup_app_Some in Hi as [Hi|[Hge Hi]]; [auto|].
    apply list_lookup_singleton_Some in Hi as [Hz <-]. right. split; [lia|done]. }
  assert (Hnot : forall c, ~ wk_owner kd0 c).
  { intros c [->| ->]; discriminate. }
  split; [|split; [|split; [|split]]].
  - intros i kd c Hi Hc. destruct (Hnew _ _ Hi) as [Hi'|[-> ->]]; [eauto|congruence].
  - intros i j ki kj c Hi Hj Hoi Hoj.
    destruct (Hnew _ _ Hi) as [Hi'|[-> ->]]; [|by destruct (Hnot c)].
    destruct (Hnew _ _ Hj) as [Hj'|[-> ->]]; [|by destruct (Hnot c)].
    eauto.
  - intros j c Hj. destruct (Hnew _ _ Hj) as [Hj'|[-> Heq]].
    + destruct (W3 _ _ Hj') as (i & He & Hi). exists i. split.
      * rewrite lookup_app_l; [done|]. by eapply lookup_lt_Some.
      * rewrite lookup_app_l; [done|]. by eapply lookup_lt_Some.
    + rewrite <- Heq in Hno. discriminate.
  - intros i kd c Hi Ho. destruct (Hnew _ _ Hi) as [Hi'|[-> ->]]; [|by destruct (Hnot c)].
    destruct (W4 _ _ _ Hi' Ho) as [?|(j & Hj)]; [by left|right].
    exists j. rewrite lookup_app_l; [done|]. by eapply lookup_lt_Some.
  - intros i ctx topic kd He Hi. destruct (Hnew _ _ Hi) as [Hi'|[-> ->]].
    + apply (W6 i ctx topic); [|done].
      rewrite lookup_app_l in He; [done|]. rewrite Hlen. by eapply lookup_lt_Some.
    + left. apply (Hcall ctx topic).
      rewrite lookup_app_r in He by lia. rewrite Hlen, Nat.sub_diag in He.
      simpl in He. by simplify_eq.
Qed.

Lemma wg_shape_go es chs kds i c :
  wg_shape es chs kds -> length es = length kds ->
  kds !! i = Some (WkLoop c) ->
  wg_shape (es ++ [EntryGo i]) chs (kds ++ [WkWatch c]).
Proof.
  intros (W1 & W2 & W3 & W4 & W6) Hlen Hloop.
  assert (Hnew : forall j kd, (kds ++ [WkWatch c]) !! j = Some kd ->
            kds !! j = Some kd \/ (j = length kds /\ kd = WkWatch c)).
  { intros j kd Hj. apply lookup_app_Some in Hj as [Hj|[Hge Hj]]; [auto|].
    apply list_lookup_singleton_Some in Hj as [Hz <-]. right. split; [lia|done]. }
  assert (Hold : forall j kd, kds !! j = Some kd -> (kds ++ [WkWatch c]) !! j = Some kd).
  { intros j kd Hj. rewrite lookup_app_l; [done|]. by eapply lookup_lt_Some. }
  assert (Holde : forall j e, es !! j = Some e -> (es ++ [EntryGo i]) !! j = Some e).
  { intros j e Hj. rewrite lookup_app_l; [done|]. by eapply lookup_lt_Some. }
  split; [|split; [|split; [|split]]].
  - intros j kd c' Hj Hc. destruct (Hnew _ _ Hj) as [Hj'|[-> ->]]; [eauto|].
    simpl in Hc. simplify_eq. by eapply (W1 i).
  - intros j1 j2 k1 k2 c' H1 H2 Ho1 Ho2.
    destruct (Hnew _ _ H1) as [H1'|[-> ->]]; [|by destruct Ho1].
    destruct (Hnew _ _ H2) as [H2'|[-> ->]]; [|by destruct Ho2].
    eauto.
  - intros j c' Hj. destruct (Hnew _ _ Hj) as [Hj'|[-> Heq]].
    + destruct (W3 _ _ Hj') as (i' & He & Hi). eauto.
    + simplify_eq. exists i. split; [|by apply Hold].
      rewrite lookup_app_r by lia. by rewrite Hlen, Nat.sub_diag.
  - intros j kd c' Hj Ho. destruct (Hnew _ _ Hj) as [Hj'|[-> ->]]; [|by destruct Ho].
    destruct (W4 _ _ _ Hj' Ho) as [?|(j' & Hj'')]; [by left|right]. eauto.
  - intros j ctx topic kd He Hj. destruct (Hnew _ _ Hj) as [Hj'|[-> ->]].
    + apply (W6 j ctx topic); [|done].
      rewrite lookup_app_l in He; [done|]. rewrite Hlen. by eapply lookup_lt_Some.
    + rewrite lookup_app_r in He by lia. rewrite Hlen, Nat.sub_diag in He.
      by simplify_eq.
Qed.

Lemma wg_shape_chans_app es chs kds :
  wg_shape es chs kds -> wg_shape es (chs ++ [false]) kds.
Proof.
  intros (W1 & W2 & W3 & W4 & W6). split; [|split; [|split; [|split]]]; try done.
  - intros i kd c Hi Hc. rewrite length_app. simpl. specialize (W1 _ _ _ Hi Hc). lia.
  - intros i kd c Hi Ho. destruct (W4 _ _ _ Hi Ho) as [Hc|?]; [left|by right].
    rewrite lookup_app_l; [done|]. by eapply lookup_lt_Some.
Qed.

(** A call goes from one of its kinds to the next. *)
Lemma wg_shape_advance es chs kds i kd kd' :
  wg_shape es chs kds ->
  kds !! i = Some kd ->
  (forall c, wk_owner kd' c ->
     (c < length chs)%nat /\
     (chs !! c = Some false \/ exists j, es !! j = Some (EntryGo i)) /\
     forall j kj, kds !! j = Some kj -> wk_owner kj c -> j = i) ->
  (forall c, kd' <> WkWatch c) ->
  (forall c, kd <> WkLoop c \/ kd' = WkLoop c) ->
  (kd' = WkCalled \/ exists c, wk_owner kd' c) ->
  wg_shape es chs (<[i := kd']> kds).
Proof.
  intros (W1 & W2 & W3 & W4 & W6) Hi Hown Hnw Hloop Hcall.
  assert (Hnew : forall j kj, <[i := kd']> kds !! j = Some kj ->
            (j = i /\ kj = kd') \/ (j <> i /\ kds !! j = Some kj)).
  { intros j kj Hj. apply list_lookup_insert_Some in Hj as [(-> & <- & _)|[? ?]]; auto. }
  split; [|split; [|split; [|split]]].
  - intros j kj c Hj Hc. destruct (Hnew _ _ Hj) as [[-> ->]|[_ Hj']]; [|eauto].
    apply Hown. destruct kd'; simpl in Hc; simplify_eq; try (by left); try (by right).
    by destruct (Hnw c).
  - intros j1 j2 k1 k2 c H1 H2 Ho1 Ho2.
    destruct (Hnew _ _ H1) as [[-> ->]|[Hn1 H1']];
      destruct (Hnew _ _ H2) as [[-> ->]|[Hn2 H2']]; try done.
    + destruct (Hown _ Ho1) as (_ & _ & Hu). symmetry. eauto.
    + destruct (Hown _ Ho2) as (_ & _ & Hu). eauto.
    + eauto.
  - intros j c Hj. destruct (Hnew _ _ Hj) as [[-> Heq]|[Hn Hj']].
    + by destruct (Hnw c).
    + destruct (W3 _ _ Hj') as (i' & He & Hi'). exists i'. split; [done|].
      destruct (decide (i' = i)) as [->|Hne].
      * rewrite Hi in Hi'. simplify_eq.
        destruct (Hloop c) as [?| ->]; [done|].
        apply list_lookup_insert_eq. by eapply lookup_lt_Some.
      * by rewrite list_lookup_insert_ne.
  - intros j kj c Hj Ho. destruct (Hnew _ _ Hj) as [[-> ->]|[Hn Hj']].
    + by apply Hown.
    + eauto.
  - intros j ctx topic kj He Hj. destruct (Hnew _ _ Hj) as [[-> ->]|[Hn Hj']]; eauto.
Qed.

(** A watcher closes its channel. *)
Lemma wg_shape_close es chs kds j c :
  wg_shape es chs kds ->
  kds !! j = Some (WkWatch c) ->
  wg_shape es (<[c := true]> chs) (<[j := WkOwes]> kds).
Proof.
  intros (W1 & W2 & W3 & W4 & W6) Hj.
  destruct (W3 _ _ Hj) as (i0 & He0 & Hi0).
  assert (Hnew : forall i ki, <[j := WkOwes]> kds !! i = Some ki ->
            (i = j /\ ki = WkOwes) \/ (i <> j /\ kds !! i = Some ki)).
  { intros i ki Hi. apply list_lookup_insert_Some in Hi as [(-> & <- & _)|[? ?]]; auto. }
  split; [|split; [|split; [|split]]].
  - intros i ki c' Hi Hc. rewrite length_insert.
    destruct (Hnew _ _ Hi) as [[-> ->]|[_ Hi']]; [done|eauto].
  - intros i1 i2 k1 k2 c' H1 H2 Ho1 Ho2.
    destruct (Hnew _ _ H1) as [[-> ->]|[Hn1 H1']]; [by destruct Ho1|].
    destruct (Hnew _ _ H2) as [[-> ->]|[Hn2 H2']]; [by destruct Ho2|].
    eauto.
  - intros i c' Hi. destruct (Hnew _ _ Hi) as [[-> ?]|[Hn Hi']]; [done|].
    destruct (W3 _ _ Hi') as (i' & He & Hi''). exists i'. split; [done|].
    rewrite list_lookup_insert_ne; [done|]. intros ->. congruence.
  - intros i ki c' Hi Ho. destruct (Hnew _ _ Hi) as [[-> ->]|[Hn Hi']]; [by destruct Ho|].
    destruct (decide (c' = c)) as [->|Hne].
    + right. exists j. assert (i0 = i) as <-; [|done].
      eapply W2; eauto. by right.
    + destruct (W4 _ _ _ Hi' Ho) as [?|?]; [left|by right].
      by rewrite list_lookup_insert_ne.
  - intros i ctx topic ki He Hi. destruct (Hnew _ _ Hi) as [[-> ->]|[Hn Hi']]; [|eauto].
    congruence.
Qed.

(** A watcher calls [Done]. *)
Lemma wg_shape_done es chs kds j :
  wg_shape es chs kds ->
  kds !! j = Some WkOwes ->
  wg_shape es chs (<[j := WkInert]> kds).
Proof.
  intros (W1 & W2 & W3 & W4 & W6) Hj.
  assert (Hnew : forall i ki, <[j := WkInert]> kds !! i = Some ki ->
            (i = j /\ ki = WkInert) \/ (i <> j /\ kds !! i = Some ki)).
  { intros i ki Hi. apply list_lookup_insert_Some in Hi as [(-> & <- & _)|[? ?]]; auto. }
  split; [|split; [|split; [|split]]].
  - intros i ki c' Hi Hc. destruct (Hnew _ _ Hi) as [[-> ->]|[_ Hi']]; [done|eauto].
  - intros i1 i2 k1 k2 c' H1 H2 Ho1 Ho2.
    destruct (Hnew _ _ H1) as [[-> ->]|[Hn1 H1']]; [by destruct Ho1|].
    destruct (Hnew _ _ H2) as [[-> ->]|[Hn2 H2']]; [by destruct Ho2|].
    eauto.
  - intros i c' Hi. destruct (Hnew _ _ Hi) as [[-> ?]|[Hn Hi']]; [done|].
    destruct (W3 _ _ Hi') as (i' & He & Hi''). exists i'. split; [done|].
    rewrite list_lookup_insert_ne; [done|]. intros ->. congruence.
  - intros i ki c' Hi Ho. destruct (Hnew _ _ Hi) as [[-> ->]|[Hn Hi']]; [by destruct Ho|].
    eauto.
  - intros i ctx topic ki He Hi. destruct (Hnew _ _ Hi) as [[-> ->]|[Hn Hi']]; [|eauto].
    destruct (W6 _ _ _ _ He Hj) as [?|(c & [?|?])]; discriminate.
Qed.

(** The count under the moves that touch channels. *)

Lemma wg_count_make es chs kds :
  wg_shape es chs kds ->
  tally (wk_owed (chs ++ [false])) kds = tally (wk_owed chs) kds.
Proof.
  intros (W1 & _). apply tally_ext. intros i kd Hi.
  destruct kd; simpl; try done.
  rewrite lookup_app_l; [done|]. by eapply (W1 i).
Qed.

Lemma wg_count_close es chs kds j c :
  wg_shape es chs kds ->
  kds !! j = Some (WkWatch c) ->
  chs !! c = Some false ->
  (tally (wk_owed (<[c := true]> chs)) (<[j := WkOwes]> kds)
   <= tally (wk_owed chs) kds)%nat.
Proof.
  intros (W1 & W2 & W3 & W4 & W6) Hj Hc.
  destruct (W3 _ _ Hj) as (i0 & He0 & Hi0).
  pose proof (tally_insert (wk_owed (<[c := true]> chs)) _ _ _ WkOwes Hj) as T.
  simpl in T.
  assert (tally (wk_owed (<[c := true]> chs)) kds + 1 <= tally (wk_owed chs) kds)%nat;
    [|lia].
  apply (tally_mono_strict _ _ _ i0 (WkLoop c)); [|done|].
  - intros i kd Hi. destruct kd; simpl; try done.
    destruct (decide (c0 = c)) as [->|Hne].
    + rewrite list_lookup_insert_eq by (by eapply lookup_lt_Some). lia.
    + by rewrite list_lookup_insert_ne.
  - simpl. rewrite list_lookup_insert_eq by (by eapply lookup_lt_Some).
    rewrite Hc. lia.
Qed.

Lemma wg_on_event_wait cfg kd wg timeout timedOut kd' :
  wg_on_event cfg kd (EvWaitGroupTimeout wg timeout timedOut) = Some kd' ->
  wg = WgOutputs /\ timeout = CloseTimeout cfg.
Proof.
  destruct kd; simpl; try done. destruct wg; [|done].
  destruct (Z.eqb_spec timeout (CloseTimeout cfg)); done.
Qed.

Lemma wg_inv_spawn cfg m kds e p kd0 :
  wg_inv cfg m kds -> length (pool m) = length kds ->
  wk_chan kd0 = None -> wk_owed (chans (store m)) kd0 = 0%nat ->
  (forall ctx topic, e = EntryCall (CallSubscribe ctx topic) -> kd0 = WkCalled) ->
  wg_inv cfg (spawn e p m) (kds ++ [kd0]).
Proof.
  intros (Hshape & Hcount & Hwait) Hlen Hno Howed Hcall.
  unfold wg_inv. simpl. rewrite fmap_app, tally_app. simpl. rewrite Howed.
  split; [|split; [lia|done]].
  apply wg_shape_spawn; try done. by rewrite length_fmap.
Qed.

Lemma wg_inv_quiet cfg m kds tid g kd p' s' ev :
  wg_inv cfg m kds ->
  pool m !! tid = Some g -> kds !! tid = Some kd ->
  chans s' = chans (store m) -> outputsWg s' = outputsWg (store m) ->
  (forall wg timeout timedOut, ev = EvWaitGroupTimeout wg timeout timedOut ->
     wg = WgOutputs /\ timeout = CloseTimeout cfg) ->
  wg_inv cfg {| store := s'; pool := update tid g p' (pool m);
                trace := trace m ++ [(tid, ev)]; panicked := None |}
         (<[tid := kd]> kds).
Proof.
  intros (Hshape & Hcount & Hwait) Hg Hkd Hch Hwg Hev.
  unfold wg_inv. simpl. rewrite entries_update, list_insert_id, Hch, Hwg by done.
  split; [done|]. split; [done|].
  intros t wg timeout timedOut Hin.
  apply elem_of_app in Hin as [Hin|Hin]; [eauto|].
  apply list_elem_of_singleton in Hin. simplify_eq. eauto.
Qed.

Lemma wg_inv_step cfg m kds m' kds' :
  wg_inv cfg m kds -> kinded (wg_protocol cfg) m kds -> panicked m = None ->
  kinded_step (wg_protocol cfg) cfg m kds m' kds' ->
  kinded (wg_protocol cfg) m' kds' ->
  wg_inv cfg m' kds'.
Proof.
  intros Hinv Hk _ Hs _.
  pose proof (kinded_length _ _ _ Hk) as Hlen.
  destruct Hs as [c|n|sub msg b Hb' Ho Hc'|msg
                 |tid g kd kd' ev p' Hg Hkd Hen Hon
                 |tid g kd kc kk child k Hg Hkd Hbody Hon
                 |tid g kd kd' topic qg e p' Hg Hkd Hon
                 |tid g kd kd' topic qg cb opts p' Hg Hkd Hon].
  - apply wg_inv_spawn; try done; try (by destruct c).
  - done.
  - by apply wg_inv_spawn.
  - done.
  - assert (Hwait' : forall wg timeout timedOut,
              ev = EvWaitGroupTimeout wg timeout timedOut ->
              wg = WgOutputs /\ timeout = CloseTimeout cfg).
    { intros wg timeout timedOut ->. simpl in Hon. by eapply wg_on_event_wait. }
    simpl in Hon.
    destruct kd; destruct ev; simpl in Hon; try discriminate; split_op Hon;
      try (apply wg_inv_quiet;
           [done|done|done|by rewrite apply_event_chans
           |by rewrite apply_event_outputsWg|done]).
    all: destruct Hinv as (Hshape & Hcount & Hwait);
      unfold wg_inv; cbn [store pool trace];
      rewrite entries_update by done;
      rewrite apply_event_chans, apply_event_outputsWg.
    all: (split; [|split]);
      [| |intros t wg timeout timedOut Hin;
          apply elem_of_app in Hin as [Hin|Hin]; [by eauto|];
          apply list_elem_of_singleton in Hin; by simplify_eq].
    + rewrite list_insert_id by done. by apply wg_shape_chans_app.
    + rewrite list_insert_id by done.
      by rewrite (wg_count_make _ _ _ Hshape).
    + simpl in Hen. subst c.
      apply (wg_shape_advance _ _ _ _ WkCalled); try done.
      * by apply wg_shape_chans_app.
      * intros c [Heq|Heq]; simplify_eq. split; [|split].
        -- rewrite length_app. simpl. lia.
        -- left. rewrite lookup_app_r by lia. by rewrite Nat.sub_diag.
        -- intros j kj Hj Ho. destruct Hshape as (W1 & _).
           assert (length (chans (store m)) < length (chans (store m)))%nat; [|lia].
           eapply (W1 j kj); [done|]. by destruct Ho as [-> | ->].
      * intros c. by left.
      * right. eexists. by left.
    + pose proof (tally_insert (wk_owed (chans (store m) ++ [false])) _ _ _
                    (WkMade c) Hkd) as T.
      simpl in T. rewrite (wg_count_make _ _ _ Hshape) in T. lia.
    + apply (wg_shape_advance _ _ _ _ (WkMade c)); try done.
      * destruct Hshape as (W1 & W2 & W3 & W4 & W6).
        intros c' [Heq|Heq]; simplify_eq. split; [|split].
        -- by eapply (W1 tid).
        -- eapply (W4 tid); [done|]. by left.
        -- intros j kj Hj Ho. eapply W2; eauto. by left.
      * intros c'. by left.
      * right. eexists. by right.
    + pose proof (tally_insert (wk_owed (chans (store m))) _ _ _
                    (WkLoop c) Hkd) as T.
      simpl in T. destruct (chans (store m) !! c) as [[|]|]; lia.
    + apply bool_decide_eq_true in Heqb. subst c0.
      by eapply wg_shape_close.
    + apply bool_decide_eq_true in Heqb. subst c0. simpl in Hen.
      pose proof (wg_count_close _ _ _ _ _ Hshape Hkd Hen). lia.
    + by apply wg_shape_done.
    + pose proof (tally_insert (wk_owed (chans (store m))) _ _ _
                    WkInert Hkd) as T.
      simpl in T. lia.
  - simpl in Hon. destruct kd; simplify_eq.
    rewrite (list_insert_id _ _ _ Hkd).
    destruct Hinv as (Hshape & Hcount & Hwait).
    unfold wg_inv. simpl. rewrite fmap_app, entries_update, tally_app by done.
    simpl. split; [|split].
    + apply wg_shape_go; try done. by rewrite length_fmap.
    + lia.
    + intros t wg timeout timedOut Hin.
      apply elem_of_app in Hin as [Hin|Hin]; [by eauto|].
      apply list_elem_of_singleton in Hin. by simplify_eq.
  - simpl in Hon. destruct kd; simplify_eq; by apply wg_inv_quiet.
  - simpl in Hon. destruct kd; simplify_eq; by apply wg_inv_quiet.
Qed.

Lemma wg_inv_run cfg acts m :
  run cfg acts boot = Some m ->
  exists kds, kinded (wg_protocol cfg) m kds /\ wg_inv cfg m kds.
Proof.
  apply (protocol_invariant (wg_protocol cfg) cfg (follows_wg_methods cfg) (wg_inv cfg)).
  - split; [|split].
    + split; [|split; [|split; [|split]]]; intros; by rewrite lookup_nil in *.
    + simpl. lia.
    + intros tid wg timeout timedOut Hin. by apply elem_of_nil in Hin.
  - intros. by eapply wg_inv_step.
Qed.

Lemma childless_transition cfg m m' t g :
  childless m t g -> transition cfg m m' -> childless m' t g.
Proof.
  intros (Hg & [v Hv] & Hno) Ht.
  assert (Hupd : forall tid g0 p,
            pool m !! tid = Some g0 -> body g0 <> Return v ->
            update tid g0 p (pool m) !! t = Some g /\
            forall j gj, update tid g0 p (pool m) !! j = Some gj ->
                         entry gj <> EntryGo t).
  { intros tid g0 p Hg0 Hb. split.
    - unfold update. rewrite list_lookup_insert_ne; [done|].
      intros ->. rewrite Hg in Hg0. simplify_eq; try congruence.
    - intros j gj Hj. apply list_lookup_insert_Some in Hj as [(-> & <- & _)|[_ Hj]].
      + simpl. eauto.
      + eauto. }
  assert (Hsp : forall (l : list Goroutine) g0,
            l !! t = Some g ->
            (forall j gj, l !! j = Some gj -> entry gj <> EntryGo t) ->
            entry g0 <> EntryGo t ->
            (l ++ [g0]) !! t = Some g /\
            forall j gj, (l ++ [g0]) !! j = Some gj -> entry gj <> EntryGo t).
  { intros l g0 Hl Hnl Hg0. split.
    - rewrite lookup_app_l; [done|]. by eapply lookup_lt_Some.
    - intros j gj Hj. apply lookup_app_Some in Hj as [Hj|[_ Hj]]; [eauto|].
      apply list_lookup_singleton_Some in Hj as [_ <-]. done. }
  destruct Ht as [c|n|sub msg b Hb Ho Hc|tid g0 r msg Hg0 He
                 |tid g0 X o k r x s' ev Hg0 Hbody Ho|tid g0 child k Hg0 Hbody
                 |tid g0 topic qg cb opts k e Hg0 Hbody
                 |tid g0 topic qg cb opts k Hg0 Hbody];
    unfold childless; simpl.
  - destruct (Hsp (pool m) {| entry := EntryCall c; body := method_body cfg c |})
      as [? ?]; eauto.
  - eauto.
  - destruct (Hsp (pool m) {| entry := EntryCallback sub msg; body := sub_cb b msg |})
      as [? ?]; eauto.
  - eauto.
  - destruct (Hupd tid g0 (k x) Hg0) as [? ?]; [by rewrite Hbody|eauto].
  - destruct (Hupd tid g0 k Hg0) as [? ?]; [by rewrite Hbody|].
    destruct (Hsp (update tid g0 k (pool m)) {| entry := EntryGo tid; body := child |})
      as [? ?]; eauto.
    simpl. intros Heq. simplify_eq; congruence.
  - destruct (Hupd tid g0 (k (inr e)) Hg0) as [? ?]; [by rewrite Hbody|eauto].
  - destruct (Hupd tid g0 (k (inl (length (broker_subs (store m))))) Hg0)
      as [? ?]; [by rewrite Hbody|eauto].
Qed.

(** With such a call of [Subscribe], the counter is at least one. *)
Lemma leaked_counter cfg m kds t g ctx topic :
  kinded (wg_protocol cfg) m kds -> wg_inv cfg m kds ->
  childless m t g ->
  entry g = EntryCall (CallSubscribe ctx topic) ->
  1 <= outputsWg (store m).
Proof.
  intros Hk ((W1 & W2 & W3 & W4 & W6) & Hcount & _) (Hg & [v Hv] & Hno) Hent.
  destruct (kinded_lookup _ _ _ _ _ Hk Hg) as (kd & Hkd & Hfol).
  rewrite Hv in Hfol. simpl in Hfol.
  assert (He : (entry <$> pool m) !! t = Some (EntryCall (CallSubscribe ctx topic)))
    by (by rewrite list_lookup_fmap, Hg, <- Hent).
  assert (exists c, kd = WkLoop c) as [c ->].
  { destruct Hfol as [->|?]; [|done].
    destruct (W6 _ _ _ _ He Hkd) as [?|(c & [?|?])]; discriminate. }
  assert (Hopen : chans (store m) !! c = Some false).
  { destruct (W4 _ _ c Hkd) as [?|(j & Hj)]; [by right|done|].
    rewrite list_lookup_fmap in Hj.
    destruct (pool m !! j) as [gj|] eqn:Hgj; [|done]. simpl in Hj.
    destruct (Hno _ _ Hgj). congruence. }
  pose proof (tally_lookup (wk_owed (chans (store m))) _ _ _ Hkd) as T.
  simpl in T. rewrite Hopen in T. lia.
Qed.

Lemma transition_trace cfg m m' :
  transition cfg m m' ->
  trace m' = trace m \/
  exists tid g ev,
    trace m' = trace m ++ [(tid, ev)] /\ pool m !! tid = Some g /\
    (forall wg timeout timedOut,
       ev = EvWaitGroupTimeout wg timeout timedOut ->
       timedOut = false -> wg_counter wg (store m) = 0).
Proof.
  intros Ht.
  destruct Ht as [c|n|sub msg b Hb Ho Hc|tid g0 r msg Hg0 He
                 |tid g0 X o k r x s' ev Hg0 Hbody Ho|tid g0 child k Hg0 Hbody
                 |tid g0 topic qg cb opts k e Hg0 Hbody
                 |tid g0 topic qg cb opts k Hg0 Hbody];
    simpl; auto; right; exists tid, g0; eexists; (split; [done|split; [done|]]);
    try done.
  intros wg timeout timedOut -> Hto.
  apply exec_op_sound in Ho as [_ Hen]. simpl in Hen. auto.
Qed.

(** The counter stays up, and every wait from then on ends by its timer. *)
Lemma leak_is_permanent cfg m t g ctx topic acts m' :
  (exists kds, kinded (wg_protocol cfg) m kds /\ wg_inv cfg m kds) ->
  childless m t g ->
  entry g = EntryCall (CallSubscribe ctx topic) ->
  run cfg acts m = Some m' ->
  1 <= outputsWg (store m') /\
  exists new,
    trace m' = trace m ++ new /\
    forall tid wg timeout timedOut,
      (tid, EvWaitGroupTimeout wg timeout timedOut) ∈ new ->
      wg = WgOutputs /\ timeout = CloseTimeout cfg /\ timedOut = true.
Proof.
  intros Hinv Hch Hent Hrun.
  set (Q := fun m1 : Machine =>
    (exists kds, kinded (wg_protocol cfg) m1 kds /\ wg_inv cfg m1 kds) /\
    childless m1 t g /\
    exists new,
      trace m1 = trace m ++ new /\
      forall tid wg timeout timedOut,
        (tid, EvWaitGroupTimeout wg timeout timedOut) ∈ new ->
        wg = WgOutputs /\ timeout = CloseTimeout cfg /\ timedOut = true).
  assert (HQ : Q m').
  { apply (run_invariant cfg Q) with (acts := acts) (m := m); [| |done].
    - intros m1 m2 ((kds & Hk & Hi) & Hc1 & new & Htr & Hnew) Hp Ht.
      destruct (kinded_transition _ _ (follows_wg_methods cfg) _ _ _ Hk Ht)
        as (kds' & Hks & Hk').
      assert (Hi' : wg_inv cfg m2 kds') by (by eapply wg_inv_step).
      split; [eauto|]. split; [by eapply childless_transition|].
      destruct (transition_trace _ _ _ Ht) as [Heq|(tid & g0 & ev & Heq & Hg0 & Hev)].
      + exists new. by rewrite Heq.
      + exists (new ++ [(tid, ev)]). split; [by rewrite Heq, Htr, app_assoc|].
        intros tid' wg timeout timedOut Hin.
        apply elem_of_app in Hin as [Hin|Hin]; [eauto|].
        apply list_elem_of_singleton in Hin. simplify_eq.
        destruct Hi' as (_ & _ & Hwait).
        destruct (Hwait tid wg timeout timedOut) as [-> ->].
        { rewrite Heq. apply elem_of_app. right. by left. }
        split; [done|]. split; [done|].
        destruct timedOut; [done|].
        pose proof (Hev _ _ _ eq_refl eq_refl) as Hz. simpl in Hz.
        pose proof (leaked_counter _ _ _ _ _ _ _ Hk Hi Hc1 Hent). lia.
    - split; [done|]. split; [done|]. exists []. split; [by rewrite app_nil_r|].
      intros tid wg timeout timedOut Hin. by apply elem_of_nil in Hin. }
  destruct HQ as ((kds & Hk & Hi) & Hc' & Hnew).
  split; [|done]. by eapply leaked_counter.
Qed.

Lemma Subscribe_loop_adds cfg ctx topic out todo i steps evs v :
  run_goroutine steps (Subscribe_loop cfg ctx topic out todo i) = Some (evs, Return v) ->
  outputs_adds evs = [].
Proof.
  revert i steps evs. induction todo as [|todo IH]; intros i steps evs H.
  - simpl in H. by follow H.
  - rewrite Subscribe_loop_S in H. unfold subscribe in H. follow H;
      try done; by apply IH in H.
Qed.

Lemma Subscribe_adds cfg ctx topic steps evs v :
  run_goroutine steps (Subscribe cfg ctx topic) = Some (evs, Return v) ->
  exists c rest,
    evs = EvMakeChan c :: EvWgAdd WgOutputs 1 :: rest /\ outputs_adds rest = [].
Proof.
  intros H. unfold Subscribe in H. follow H.
  eexists _, _. split; [done|]. by eapply Subscribe_loop_adds.
Qed.

Lemma watcher_adds sub ctx out fields steps evs v :
  run_goroutine steps (watcher sub ctx out fields) = Some (evs, Return v) ->
  outputs_adds evs = [EvWgAdd WgOutputs (-1)].
Proof. intros H. unfold watcher in H. follow H; done. Qed.

Lemma watcher_history cfg acts m tid g i v :
  run cfg acts boot = Some m ->
  pool m !! tid = Some g ->
  entry g = EntryGo i ->
  body g = Return v ->
  exists sub ctx out fields steps,
    run_goroutine steps (watcher sub ctx out fields)
    = Some (events_of tid (trace m), Return v).
Proof.
  intros Hrun Hg He Hb. apply history_inv_run in Hrun as (_ & _ & Hpool).
  destruct (Hpool _ _ Hg) as (_ & p0 & steps & Hs & Hr).
  rewrite He in Hs. destruct Hs as (sub & ctx & out & fields & ->).
  rewrite Hb in Hr. eauto 10.
Qed.

(** C10: a [Subscribe] call that has returned did [Add(1)] on the outputs
    wait group once, right after making its channel and before anything
    else, and a watcher that has returned did [Done()] once.  So when a
    [Subscribe] call has returned an error without having started any
    watcher, the counter is at least one in whatever follows, and every
    wait on the wait group from then on is one on the outputs wait group
    with the configured close timeout that ends by the timeout.  Of the
    [Close] calls made from then on, the one that finds [closed] unset
    waits that way, until the timeout, before it calls [conn.Close]; one
    that finds [closed] set returns nil without waiting. *)
Theorem outputs_wait_group_leak cfg acts m :
  run cfg acts boot = Some m ->
  (forall t g ctx topic v,
     pool m !! t = Some g ->
     entry g = EntryCall (CallSubscribe ctx topic) ->
     body g = Return v ->
     exists c rest,
       events_of t (trace m) = EvMakeChan c :: EvWgAdd WgOutputs 1 :: rest /\
       outputs_adds rest = []) /\
  (forall j g i v,
     pool m !! j = Some g ->
     entry g = EntryGo i ->
     body g = Return v ->
     outputs_adds (events_of j (trace m)) = [EvWgAdd WgOutputs (-1)]) /\
  (forall t g ctx topic out err,
     pool m !! t = Some g ->
     entry g = EntryCall (CallSubscribe ctx topic) ->
     body g = Return (VChan out (Some err)) ->
     (forall j gj, pool m !! j = Some gj -> entry gj <> EntryGo t) ->
     forall acts' m',
       run cfg acts' m = Some m' ->
       1 <= outputsWg (store m') /\
       (exists new,
          trace m' = trace m ++ new /\
          forall tid wg timeout timedOut,
            (tid, EvWaitGroupTimeout wg timeout timedOut) ∈ new ->
            wg = WgOutputs /\ timeout = CloseTimeout cfg /\ timedOut = true) /\
       (forall t' g' v,
          (length (pool m) <= t')%nat ->
          pool m' !! t' = Some g' ->
          entry g' = EntryCall CallClose ->
          body g' = Return v ->
          (events_of t' (trace m') = [EvLock; EvReadClosed true; EvUnlock] /\
           v = VError None) \/
          (exists res,
             events_of t' (trace m')
             = [EvLock; EvReadClosed false; EvSetClosed;
                EvLog LDebug "Closing subscriber" None [];
                EvCloseClosing;
                EvWaitGroupTimeout WgOutputs (CloseTimeout cfg) true;
                EvConnClose res;
                EvLog LInfo "StreamingSubscriber closed" None [];
                EvUnlock] /\
             v = VError (errors_Wrap res "cannot close conn")))).
Proof.
  intros Hrun. split; [|split].
  - intros t g ctx topic v Hg Hent Hbody.
    destruct (call_history _ _ _ _ _ _ _ Hrun Hg Hent Hbody) as (steps & Hr).
    simpl in Hr. by eapply Subscribe_adds.
  - intros j g i v Hg Hent Hbody.
    destruct (watcher_history _ _ _ _ _ _ _ Hrun Hg Hent Hbody)
      as (sub & ctx & out & fields & steps & Hr).
    by eapply watcher_adds.
  - intros t g ctx topic out err Hg Hent Hbody Hno acts' m' Hrun'.
    assert (Hleak : 1 <= outputsWg (store m') /\
              exists new,
                trace m' = trace m ++ new /\
                forall tid wg timeout timedOut,
                  (tid, EvWaitGroupTimeout wg timeout timedOut) ∈ new ->
                  wg = WgOutputs /\ timeout = CloseTimeout cfg /\ timedOut = true).
    { eapply leak_is_permanent; eauto using wg_inv_run.
      split; [done|]. split; [eauto|done]. }
    destruct Hleak as (Hpos & new & Htr & Hnew).
    split; [done|]. split; [eauto|].
    intros t' g' v Hfresh Hg' Hent' Hbody'.
    assert (Hrun2 : run cfg (acts ++ acts') boot = Some m')
      by (by rewrite run_app, Hrun).
    destruct (call_history _ _ _ _ _ _ _ Hrun2 Hg' Hent' Hbody') as (steps & Hr).
    simpl in Hr.
    apply Close_runs in Hr as [[Hevs ->]|(timedOut & res & Hevs & ->)];
      [by left|right].
    exists res. split; [|done].
    assert (Hin : (t', EvWaitGroupTimeout WgOutputs (CloseTimeout cfg) timedOut)
                    ∈ trace m').
    { apply elem_of_events_of. rewrite Hevs. do 5 right. left. }
    rewrite Htr in Hin. apply elem_of_app in Hin as [Hin|Hin].
    + apply history_inv_run in Hrun as (Hlt & _). apply Hlt in Hin. lia.
    + destruct (Hnew _ _ _ _ Hin) as (_ & _ & ->). done.
Qed.

Lemma outputs_wait_group_leak_witness :
  1 <= outputsWg (store (machine_after one_worker
                           (failed_first_acts ++ close_after_failure_acts))) /\
  exists res,
    events_of 1 (trace (machine_after one_worker
                          (failed_first_acts ++ close_after_failure_acts)))
    = [EvLock; EvReadClosed false; EvSetClosed;
       EvLog LDebug "Closing subscriber" None [];
       EvCloseClosing;
       EvWaitGroupTimeout WgOutputs (CloseTimeout one_worker) true;
       EvConnClose res;
       EvLog LInfo "StreamingSubscriber closed" None [];
       EvUnlock].
Proof.
  destruct (outputs_wait_group_leak one_worker failed_first_acts
              (machine_after one_worker failed_first_acts)) as (_ & _ & H).
  - vm_compute. reflexivity.
  - assert (Hno : forall j gj,
              pool (machine_after one_worker failed_first_acts) !! j = Some gj ->
              entry gj <> EntryGo 0).
    { intros j gj Hj. destruct j as [|j]; vm_compute in Hj; [|discriminate].
      injection Hj as <-. discriminate. }
    destruct (H 0%nat
                {| entry := EntryCall (CallSubscribe (Scope 0) "topic");
                   body := Return (VChan None (Some "cannot subscribe: no broker")) |}
                (Scope 0) "topic" None "cannot subscribe: no broker"
                eq_refl eq_refl eq_refl Hno close_after_failure_acts
                (machine_after one_worker
                   (failed_first_acts ++ close_after_failure_acts)))
      as (Hpos & _ & Hclose).
    + vm_compute. reflexivity.
    + split; [exact Hpos|].
      destruct (Hclose 1%nat
                  {| entry := EntryCall CallClose; body := Return (VError None) |}
                  (VError None)) as [[Hevs _]|(res & Hevs & _)].
      * vm_compute. lia.
      * vm_compute. reflexivity.
      * reflexivity.
      * reflexivity.
      * vm_compute in Hevs. discriminate Hevs.
      * exists res. exact Hevs.
Defined.

(** C10 as worded, with every later [Close] waiting, fails: after the leak
    of a failing [Subscribe], a first [Close] waits out the timeout, and
    the [Close] call after it returns nil having only looked at the flag;
    it does not wait and does not touch the connection, with the counter
    still at one. *)
Lemma later_Close_returns_without_waiting :
  pool (machine_after one_worker
          (failed_first_acts ++ close_after_failure_acts ++ close_again_acts))
  = [ {| entry := EntryCall (CallSubscribe (Scope 0) "topic");
         body := Return (VChan None (Some "cannot subscribe: no broker")) |};
      {| entry := EntryCall CallClose; body := Return (VError None) |};
      {| entry := EntryCall CallClose; body := Return (VError None) |} ] /\
  outputsWg (store (machine_after one_worker
              (failed_first_acts ++ close_after_failure_acts ++ close_again_acts)))
  = 1 /\
  events_of 2 (trace (machine_after one_worker
                 (failed_first_acts ++ close_after_failure_acts ++ close_again_acts)))
  = [EvLock; EvReadClosed true; EvUnlock] /\
  ~ (exists wg timeout timedOut,
       EvWaitGroupTimeout wg timeout timedOut
         ∈ events_of 2 (trace (machine_after one_worker
              (failed_first_acts ++ close_after_failure_acts ++ close_again_acts)))).
Proof.
  split; [vm_compute; reflexivity|]. split; [vm_compute; reflexivity|].
  split; [vm_compute; reflexivity|].
  intros (wg & timeout & timedOut & Hin). vm_compute in Hin.
  repeat (apply elem_of_cons in Hin as [Hin|Hin]; [discriminate Hin|]).
  by apply elem_of_nil in Hin.
Qed.

(** ** Subscriptions stay until the closing signal or the cancellation *)

Ltac follows_sub_tac :=
  repeat (cbv beta;
    lazymatch goal with
    | |- follows _ _ (Return _) => simpl; eauto 10
    | |- follows _ _ (Do _ _) =>
      let Hop := fresh "Hop" in
      apply follows_Do; intros ? ? ? ? ? Hop; simpl in Hop; split_op Hop;
      (eexists; split;
       [cbn [on_event sub_protocol sub_on_event];
        rewrite ?bool_decide_eq_true_2 by done; reflexivity|])
    | |- follows _ _ (Go _ _) => eapply follows_Go; [reflexivity| |]
    | |- follows _ _ (StanSubscribe _ _ _ _ _) =>
      apply follows_StanSubscribe;
      [intros ?|intros [?|?]; (eexists; split; [reflexivity|])]
    | |- follows _ _ (if ?b then _ else _) => destruct b
    | |- follows _ _ (match ?t with _ => _ end) => destruct t
    | _ => fail
    end).

Lemma follows_sub_callback cfg ctx msg out fields :
  follows sub_protocol SkPlain (processMessage cfg ctx msg out fields).
Proof. unfold processMessage. follows_sub_tac. Qed.

Lemma follows_sub_watcher sub ctx out fields :
  follows sub_protocol (SkWatch ctx sub) (watcher sub ctx out fields).
Proof. unfold watcher. follows_sub_tac. Qed.

Lemma follows_sub_Subscribe_loop cfg ctx topic out todo i :
  follows sub_protocol (SkCall ctx) (Subscribe_loop cfg ctx topic out todo i).
Proof.
  revert i. induction todo as [|todo IH]; intros i; [simpl; eauto 10|].
  rewrite Subscribe_loop_S. unfold subscribe.
  follows_sub_tac; auto using follows_sub_callback, follows_sub_watcher.
Qed.

Lemma follows_sub_methods cfg c :
  follows sub_protocol (of_method sub_protocol c) (method_body cfg c).
Proof.
  destruct c as [ctx topic|topic|]; cbn [method_body of_method sub_protocol].
  - unfold Subscribe. follows_sub_tac. apply follows_sub_Subscribe_loop.
  - unfold SubscribeInitialize, subscribe.
    follows_sub_tac; auto using follows_sub_callback.
  - unfold Close. follows_sub_tac.
Qed.

Lemma ctx_done_mono s s' ctx :
  (forall n, n ∈ scopes_cancelled s -> n ∈ scopes_cancelled s') ->
  (forall u, u ∈ ctx_cancelled s -> u ∈ ctx_cancelled s') ->
  ctx_done s ctx = true -> ctx_done s' ctx = true.
Proof.
  intros Hs Hc. induction ctx as [|n|parent IH uid]; simpl; [done| |].
  - rewrite !bool_decide_eq_true. auto.
  - rewrite !orb_true_iff, !bool_decide_eq_true. intros [?|?]; auto.
Qed.

Lemma apply_event_scopes ev s n :
  n ∈ scopes_cancelled s -> n ∈ scopes_cancelled (apply_event ev s).
Proof.
  destruct ev; simpl; auto.
  - destruct wg; auto.
  - destruct ctx; simpl; auto. intros. by right.
  - destruct res; auto. unfold close_sub. by destruct (broker_subs s !! sub).
  - by destruct res.
Qed.

Lemma apply_event_ctx_done ev s ctx :
  ctx_done s ctx = true -> ctx_done (apply_event ev s) ctx = true.
Proof.
  apply ctx_done_mono; intros; [by apply apply_event_scopes|by apply apply_event_cancelled].
Qed.

Lemma close_sub_length sub s :
  length (broker_subs (close_sub sub s)) = length (broker_subs s).
Proof.
  unfold close_sub. destruct (broker_subs s !! sub); simpl; [|done].
  by rewrite length_insert.
Qed.

Lemma close_sub_open sub sub' s :
  sub' <> sub -> sub_is_open s sub' -> sub_is_open (close_sub sub s) sub'.
Proof.
  intros Hne (b & Hb & Ho). exists b. split; [|done].
  unfold close_sub. destruct (broker_subs s !! sub); simpl; [|done].
  by rewrite list_lookup_insert_ne.
Qed.

Lemma apply_event_subs_length ev s :
  length (broker_subs (apply_event ev s)) = length (broker_subs s).
Proof.
  destruct ev; simpl; try done.
  - by destruct wg.
  - by destruct ctx.
  - destruct res; [done|]. apply close_sub_length.
  - by destruct res.
Qed.

Lemma apply_event_open ev s sub :
  (forall r, ev <> EvSubClose sub r) ->
  sub_is_open s sub -> sub_is_open (apply_event ev s) sub.
Proof.
  intros Hne Ho. destruct ev; simpl; try done.
  - by destruct wg.
  - by destruct ctx.
  - destruct res; [done|]. apply close_sub_open; [|done].
    intros ->. by destruct (Hne None).
  - by destruct res.
Qed.

(** One goroutine goes from a kind to another. *)
Lemma sub_inv_relabel m kds i g kd kd' s' p' ev :
  sub_inv m kds -> length (pool m) = length kds ->
  pool m !! i = Some g -> kds !! i = Some kd ->
  (closing (store m) = true -> closing s' = true) ->
  (conn_open s' = false -> conn_open (store m) = false \/ closing s' = true) ->
  (kd' = SkClosing -> kd = SkClosing \/ closing s' = true) ->
  (forall ctx, ctx_done (store m) ctx = true -> ctx_done s' ctx = true) ->
  (length (broker_subs (store m)) <= length (broker_subs s'))%nat ->
  (forall sub, sk_sub kd <> Some sub ->
     sub_is_open (store m) sub -> sub_is_open s' sub) ->
  (forall ctx, sk_woken kd' ctx ->
     sk_woken kd ctx \/ closing s' = true \/ ctx_done s' ctx = true) ->
  (forall ctx sub, kd' = SkStarting ctx sub \/ kd' = SkWatch ctx sub ->
     sub_is_open s' sub) ->
  (forall sub, sk_sub kd' = Some sub -> (sub < length (broker_subs s'))%nat) ->
  (forall sub, sk_sub kd' = Some sub ->
     sk_sub kd = Some sub \/ forall j kj, kds !! j = Some kj -> sk_sub kj <> Some sub) ->
  sk_call kd' = sk_call kd ->
  (forall ctx sub, sk_watches kd ctx sub -> sk_watches kd' ctx sub) ->
  (forall ctx sub, kd = SkStarting ctx sub -> kd' = SkStarting ctx sub) ->
  (forall topic qg sub ctx,
     ev = EvSubscribe topic qg (inl sub) -> sk_call kd' = Some ctx ->
     kd' = SkStarting ctx sub) ->
  sub_inv {| store := s'; pool := update i g p' (pool m);
             trace := trace m ++ [(i, ev)]; panicked := None |}
          (<[i := kd']> kds).
Proof.
  intros (S0 & S0' & S1 & S2 & S3 & S4 & S5 & S6 & S7) Hlen Hg Hkd
         Hcl Hconn Hclg Hdone Hlen' Hopen Hw Ho Hb Hu Hc Ht Hs Hev.
  assert (Hnew : forall j kj, <[i := kd']> kds !! j = Some kj ->
            (j = i /\ kj = kd') \/ (j <> i /\ kds !! j = Some kj)).
  { intros j kj Hj. apply list_lookup_insert_Some in Hj as [(-> & <- & _)|[? ?]]; auto. }
  assert (Hi' : <[i := kd']> kds !! i = Some kd').
  { apply list_lookup_insert_eq. by eapply lookup_lt_Some. }
  assert (Hother : forall j kj, j <> i -> kds !! j = Some kj ->
            <[i := kd']> kds !! j = Some kj).
  { intros j kj Hne Hj. by rewrite list_lookup_insert_ne. }
  split; [|split; [|split; [|split; [|split; [|split; [|split; [|split]]]]]]]; simpl.
  - intros Hco. destruct (Hconn Hco); auto.
  - intros j Hj. destruct (Hnew _ _ Hj) as [[-> Hk]|[Hne Hj']]; [|eauto].
    destruct (Hclg (eq_sym Hk)) as [->|?]; eauto.
  - intros j kj ctx Hj Hwk. destruct (Hnew _ _ Hj) as [[-> ->]|[Hne Hj']].
    + destruct (Hw _ Hwk) as [Hwk'|[?|?]]; [|by left|by right].
      destruct (S1 _ _ _ Hkd Hwk') as [?|?]; [left|right]; auto.
    + destruct (S1 _ _ _ Hj' Hwk) as [?|?]; [left|right]; auto.
  - intros j ctx sub Hj.
    assert (Hj0 : exists kj, <[i := kd']> kds !! j = Some kj /\
                   (kj = SkStarting ctx sub \/ kj = SkWatch ctx sub)).
    { destruct Hj as [Hj|Hj]; eauto. }
    destruct Hj0 as (kj & Hj0 & Hkj).
    destruct (Hnew _ _ Hj0) as [[-> ->]|[Hne Hj']]; [by eapply Ho|].
    apply Hopen.
    + intros Hsub. destruct Hne. eapply (S4 j i kj kd sub); eauto.
      by destruct Hkj as [-> | ->].
    + apply (S2 j ctx). by destruct Hkj as [-> | ->]; [left|right].
  - intros j kj sub Hj Hsub. destruct (Hnew _ _ Hj) as [[-> ->]|[Hne Hj']]; [auto|].
    specialize (S3 _ _ _ Hj' Hsub). lia.
  - intros j1 j2 k1 k2 sub H1 H2 Hs1 Hs2.
    destruct (Hnew _ _ H1) as [[-> ->]|[Hn1 H1']];
      destruct (Hnew _ _ H2) as [[-> ->]|[Hn2 H2']]; try done.
    + destruct (Hu _ Hs1) as [Hk|Hk]; [eauto|]. by destruct (Hk _ _ H2').
    + destruct (Hu _ Hs2) as [Hk|Hk]; [eauto|]. by destruct (Hk _ _ H1').
    + eauto.
  - intros j gj ctx topic kj Hgj Hent Hj.
    apply list_lookup_insert_Some in Hgj as [(-> & <- & _)|[Hne Hgj]].
    + simpl in Hent. rewrite Hi' in Hj. simplify_eq. rewrite Hc. eauto.
    + rewrite list_lookup_insert_ne in Hj by done. eauto.
  - intros t topic qg sub kt ctx Hin Hkt Hct.
    assert (Hwit : forall j kj, kds !! j = Some kj -> sk_watches kj ctx sub ->
              exists j kj, <[i := kd']> kds !! j = Some kj /\ sk_watches kj ctx sub).
    { intros j kj Hj Hwj. destruct (decide (j = i)) as [->|Hne].
      - exists i, kd'. split; [done|]. rewrite Hkd in Hj. simplify_eq. auto.
      - exists j, kj. auto. }
    apply elem_of_app in Hin as [Hin|Hin].
    + destruct (Hnew _ _ Hkt) as [[-> ->]|[Hne Hkt']].
      * rewrite Hc in Hct.
        destruct (S6 _ _ _ _ _ _ Hin Hkd Hct) as [Hst|(j & kj & Hj & Hwj)].
        -- left. by apply Hs.
        -- right. eauto.
      * destruct (S6 _ _ _ _ _ _ Hin Hkt' Hct) as [Hst|(j & kj & Hj & Hwj)];
          [by left|right; eauto].
    + apply list_elem_of_singleton in Hin. simplify_eq.
      left. by eapply Hev.
  - intros t e Hin. rewrite length_insert.
    apply elem_of_app in Hin as [Hin|Hin]; [eauto|].
    apply list_elem_of_singleton in Hin. simplify_eq.
    by eapply lookup_lt_Some.
Qed.


Lemma sub_on_event_facts kd ev kd' :
  sub_on_event kd ev = Some kd' ->
  (forall sub r, ev = EvSubClose sub r -> sk_sub kd = Some sub) /\
  (forall sub, sk_sub kd' = Some sub -> sk_sub kd = Some sub) /\
  (forall ctx sub, kd' <> SkStarting ctx sub /\ kd' <> SkWatch ctx sub /\
                   kd <> SkStarting ctx sub) /\
  sk_call kd' = sk_call kd /\
  (forall ctx sub, sk_watches kd ctx sub -> sk_watches kd' ctx sub) /\
  (forall ctx, sk_woken kd' ctx ->
     sk_woken kd ctx \/ exists b, ev = EvUnblocked ctx b) /\
  (forall topic qg res, ev = EvSubscribe topic qg res -> sk_call kd' = None) /\
  (kd' = SkClosing -> kd = SkClosing \/ ev = EvCloseClosing) /\
  (forall r, ev = EvConnClose r -> kd = SkClosing).
Proof.
  intros Hon. unfold sk_watches, sk_woken.
  destruct kd; destruct ev; simpl in Hon; try discriminate; split_op Hon;
    rewrite ?bool_decide_eq_true in *; subst;
    (split; [|split; [|split; [|split; [|split; [|split; [|split; [|split]]]]]]]);
    simpl; try done; intros; simplify_eq; try done; eauto;
    try (repeat split; congruence);
    try (match goal with H : _ \/ _ |- _ => destruct H as [?|[?|?]] end;
         simplify_eq; eauto);
    try (match goal with H : _ \/ _ |- _ => destruct H as [[? ?]|?] end;
         simplify_eq; eauto).
Qed.

Lemma sub_inv_spawn m kds e p kd0 :
  sub_inv m kds -> length (pool m) = length kds ->
  kd0 = SkPlain \/ kd0 = SkClose \/ kd0 = SkInit \/ (exists ctx, kd0 = SkCall ctx) ->
  (forall ctx topic, e = EntryCall (CallSubscribe ctx topic) -> kd0 = SkCall ctx) ->
  sub_inv (spawn e p m) (kds ++ [kd0]).
Proof.
  intros (S0 & S0' & S1 & S2 & S3 & S4 & S5 & S6 & S7) Hlen Hkd0 Hcall.
  assert (Hnew : forall j kj, (kds ++ [kd0]) !! j = Some kj ->
            kds !! j = Some kj \/ (j = length kds /\ kj = kd0)).
  { intros j kj Hj. apply lookup_app_Some in Hj as [?|[? Hj]]; [by left|].
    apply list_lookup_singleton_Some in Hj as [? <-]. right. split; [lia|done]. }
  assert (Hsub : sk_sub kd0 = None) by (by destruct Hkd0 as [->|[->|[->|[? ->]]]]).
  split; [|split; [|split; [|split; [|split; [|split; [|split; [|split]]]]]]]; simpl.
  - done.
  - intros j Hj. destruct (Hnew _ _ Hj) as [?|[_ <-]]; [eauto|].
    by destruct Hkd0 as [?|[?|[?|[? ?]]]].
  - intros j kj ctx Hj Hw. destruct (Hnew _ _ Hj) as [?|[_ ->]]; [eauto|].
    unfold sk_woken in Hw.
    destruct Hkd0 as [->|[->|[->|[? ->]]]]; by destruct Hw as [[? ?]|?].
  - intros j ctx sub Hj.
    assert (Hj0 : exists kj, (kds ++ [kd0]) !! j = Some kj /\
                   (kj = SkStarting ctx sub \/ kj = SkWatch ctx sub)).
    { destruct Hj as [Hj|Hj]; eauto. }
    destruct Hj0 as (kj & Hj0 & Hkj).
    destruct (Hnew _ _ Hj0) as [Hj'|[_ ->]].
    + apply (S2 j ctx). by destruct Hkj as [-> | ->]; [left|right].
    + by destruct Hkj as [-> | ->].
  - intros j kj sub Hj Hs. destruct (Hnew _ _ Hj) as [?|[_ ->]]; [eauto|].
    congruence.
  - intros j1 j2 k1 k2 sub H1 H2 Hs1 Hs2.
    destruct (Hnew _ _ H1) as [?|[_ ->]]; [|congruence].
    destruct (Hnew _ _ H2) as [?|[_ ->]]; [eauto|congruence].
  - intros j gj ctx topic kj Hgj Hent Hj.
    destruct (lookup_spawned _ _ _ _ _ _ _ Hlen Hgj Hj) as [[? ?]|[-> ->]];
      [eauto|].
    simpl in Hent. by rewrite (Hcall _ _ Hent).
  - intros t topic qg sub kt ctx Hin Hkt Hct.
    destruct (Hnew _ _ Hkt) as [Hkt'|[_ ->]].
    + destruct (S6 _ _ _ _ _ _ Hin Hkt' Hct) as [?|(j & kj & Hj & Hwj)];
        [by left|right].
      exists j, kj. split; [|done]. by apply lookup_app_l_Some.
    + specialize (S7 _ _ Hin). apply lookup_lt_is_Some_2 in S7 as [kt' Hkt'].
      rewrite lookup_app_l in Hkt by (by eapply lookup_lt_Some).
      destruct (S6 _ _ _ _ _ _ Hin Hkt Hct) as [?|(j & kj & Hj & Hwj)];
        [by left|right].
      exists j, kj. split; [|done]. by apply lookup_app_l_Some.
  - intros t ev Hin. rewrite length_app. specialize (S7 _ _ Hin). simpl. lia.
Qed.

Lemma sub_inv_cancel m kds n :
  sub_inv m kds ->
  sub_inv {| store := cancel (Scope n) (store m); pool := pool m;
             trace := trace m; panicked := None |} kds.
Proof.
  intros (S0 & S0' & S1 & S2 & S3 & S4 & S5 & S6 & S7).
  split; [|split; [|split; [|split; [|split; [|split; [|split; [|split]]]]]]];
    simpl; try done.
  intros i kd ctx Hi Hw. destruct (S1 _ _ _ Hi Hw) as [?|Hd]; [by left|right].
  revert Hd. apply ctx_done_mono; simpl; [|done]. intros. by right.
Qed.

Lemma sub_inv_go m kds tid g ctx sub child k :
  sub_inv m kds -> length (pool m) = length kds ->
  pool m !! tid = Some g -> kds !! tid = Some (SkStarting ctx sub) ->
  sub_inv {| store := store m;
             pool := update tid g k (pool m) ++ [{| entry := EntryGo tid; body := child |}];
             trace := trace m ++ [(tid, EvGo)]; panicked := None |}
          (<[tid := SkCall ctx]> kds ++ [SkWatch ctx sub]).
Proof.
  intros (S0 & S0' & S1 & S2 & S3 & S4 & S5 & S6 & S7) Hlen Hg Hkd.
  assert (Hnew : forall j kj,
            (<[tid := SkCall ctx]> kds ++ [SkWatch ctx sub]) !! j = Some kj ->
            (j = tid /\ kj = SkCall ctx) \/ (j <> tid /\ kds !! j = Some kj) \/
            (j = length kds /\ kj = SkWatch ctx sub)).
  { intros j kj Hj. apply lookup_app_Some in Hj as [Hj|[? Hj]].
    - apply list_lookup_insert_Some in Hj as [(-> & <- & _)|[? ?]]; auto.
    - apply list_lookup_singleton_Some in Hj as [? <-]. right. right.
      rewrite length_insert in *. split; [lia|done]. }
  assert (Hold : forall j kj, j <> tid -> kds !! j = Some kj ->
            (<[tid := SkCall ctx]> kds ++ [SkWatch ctx sub]) !! j = Some kj).
  { intros j kj Hne Hj. apply lookup_app_l_Some.
    by rewrite list_lookup_insert_ne. }
  assert (Hlast : (<[tid := SkCall ctx]> kds ++ [SkWatch ctx sub]) !! length kds
                  = Some (SkWatch ctx sub)).
  { rewrite lookup_app_r; rewrite length_insert; [|done].
    by rewrite Nat.sub_diag. }
  assert (Hwit : forall j kj ctx' sub', kds !! j = Some kj -> sk_watches kj ctx' sub' ->
            exists j kj, (<[tid := SkCall ctx]> kds ++ [SkWatch ctx sub]) !! j = Some kj /\
                         sk_watches kj ctx' sub').
  { intros j kj ctx' sub' Hj Hwj. exists j, kj. split; [|done]. apply Hold; [|done].
    intros ->. rewrite Hkd in Hj. simplify_eq. by destruct Hwj as [?|[?|?]]. }
  split; [|split; [|split; [|split; [|split; [|split; [|split; [|split]]]]]]]; simpl.
  - done.
  - intros j Hj. destruct (Hnew _ _ Hj) as [[_ ?]|[[_ ?]|[_ ?]]]; [done|eauto|done].
  - intros j kj ctx' Hj Hw. unfold sk_woken in Hw.
    destruct (Hnew _ _ Hj) as [[_ ->]|[[_ ?]|[_ ->]]]; [|eauto|];
      by destruct Hw as [[? ?]|?].
  - intros j ctx' sub' Hj.
    assert (Hj0 : exists kj,
              (<[tid := SkCall ctx]> kds ++ [SkWatch ctx sub]) !! j = Some kj /\
              (kj = SkStarting ctx' sub' \/ kj = SkWatch ctx' sub')).
    { destruct Hj as [Hj|Hj]; eauto. }
    destruct Hj0 as (kj & Hj0 & Hkj).
    destruct (Hnew _ _ Hj0) as [[_ ->]|[[_ Hj']|[_ ->]]].
    + by destruct Hkj.
    + apply (S2 j ctx'). by destruct Hkj as [-> | ->]; [left|right].
    + destruct Hkj as [?|?]; simplify_eq. eapply (S2 tid). left. exact Hkd.
  - intros j kj sub' Hj Hs.
    destruct (Hnew _ _ Hj) as [[_ ->]|[[_ ?]|[_ ->]]]; [done|eauto|].
    simpl in Hs. simplify_eq. by eapply (S3 tid).
  - intros j1 j2 k1 k2 sub' H1 H2 Hs1 Hs2.
    destruct (Hnew _ _ H1) as [[_ ->]|[[Hn1 H1']|[-> ->]]]; [done| |];
      (destruct (Hnew _ _ H2) as [[_ ->]|[[Hn2 H2']|[-> ->]]]; [done| |]);
      simpl in *; simplify_eq; eauto.
    + destruct Hn1. by eapply (S4 j1 tid k1 (SkStarting ctx sub')).
    + destruct Hn2. by eapply (S4 j2 tid k2 (SkStarting ctx sub')).
  - intros j gj ctx' topic kj Hgj Hent Hj.
    destruct (lookup_stepped _ _ _ _ _ _ [_] [_] _ _ _ Hlen eq_refl Hg Hgj Hj)
      as [(-> & -> & ->)|[(? & ? & ?)|(? & Hx & _)]].
    + simpl in Hent. by apply (S5 _ _ _ _ _ Hg Hent Hkd).
    + eauto.
    + apply list_lookup_singleton_Some in Hx as [_ <-]. done.
  - intros t topic qg sub' kt ctx' Hin Hkt Hct.
    apply elem_of_app in Hin as [Hin|Hin];
      [|apply list_elem_of_singleton in Hin; by simplify_eq].
    destruct (Hnew _ _ Hkt) as [[-> ->]|[[Hne Hkt']|[_ ->]]]; [| |done].
    + simpl in Hct. simplify_eq. right.
      destruct (S6 _ _ _ _ _ _ Hin Hkd eq_refl) as [?|(j & kj & Hj & Hwj)].
      * simplify_eq. eexists _, _. split; [exact Hlast|by left].
      * eauto.
    + destruct (S6 _ _ _ _ _ _ Hin Hkt' Hct) as [?|(j & kj & Hj & Hwj)];
        [by left|right; eauto].
  - intros t ev Hin. rewrite length_app, length_insert. simpl.
    apply elem_of_app in Hin as [Hin|Hin]; [specialize (S7 _ _ Hin); lia|].
    apply list_elem_of_singleton in Hin. simplify_eq.
    apply lookup_lt_Some in Hkd. lia.
Qed.

Lemma apply_event_conn_open ev s :
  conn_open (apply_event ev s) = false ->
  conn_open s = false \/ exists r, ev = EvConnClose r.
Proof.
  destruct ev; simpl; auto.
  - destruct wg; auto.
  - destruct ctx; auto.
  - destruct res; auto. unfold close_sub. destruct (broker_subs s !! sub); auto.
  - eauto.
Qed.

Lemma sub_inv_step cfg m kds m' kds' :
  sub_inv m kds -> kinded sub_protocol m kds -> panicked m = None ->
  kinded_step sub_protocol cfg m kds m' kds' ->
  kinded sub_protocol m' kds' ->
  sub_inv m' kds'.
Proof.
  intros Hinv Hk _ Hs _.
  pose proof (kinded_length _ _ _ Hk) as Hlen.
  destruct Hs as [c|n|sub msg b Hb' Ho Hc'|msg
                 |tid g kd kd' ev p' Hg Hkd Hen Hon
                 |tid g kd kc kk child k Hg Hkd Hbody Hon
                 |tid g kd kd' topic qg e p' Hg Hkd Hon
                 |tid g kd kd' topic qg cb opts p' Hg Hkd Hon].
  - apply sub_inv_spawn; try done.
    + destruct c; simpl; eauto 10.
    + intros ctx topic Heq. by simplify_eq.
  - by apply sub_inv_cancel.
  - apply sub_inv_spawn; try done. by left.
  - done.
  - simpl in Hon.
    destruct (sub_on_event_facts _ _ _ Hon)
      as (F1 & F2 & F3 & F4 & F5 & F6 & F7 & F8 & F9).
    pose proof Hinv as (S0 & S0' & S1 & S2 & S3 & S4 & S5 & S6 & S7).
    apply (sub_inv_relabel m kds tid g kd); try done.
    + rewrite apply_event_closing. by intros ->.
    + intros Hco. apply apply_event_conn_open in Hco as [?|[r ->]]; [by left|right].
      rewrite apply_event_closing, (S0' tid); [done|].
      by rewrite <- (F9 r eq_refl).
    + intros Hcl. destruct (F8 Hcl) as [?| ->]; [by left|right].
      rewrite apply_event_closing. apply orb_true_r.
    + intros ctx. apply apply_event_ctx_done.
    + by rewrite apply_event_subs_length.
    + intros sub Hne. apply apply_event_open. intros r ->. eauto.
    + intros ctx Hw. destruct (F6 _ Hw) as [?|[b ->]]; [by left|right].
      simpl in *. destruct Hen as [[_ ?]|[_ ?]]; auto.
    + intros ctx sub [?|?]; by destruct (F3 ctx sub) as (? & ? & ?).
    + intros sub Hsub. rewrite apply_event_subs_length. eauto.
    + intros sub Hsub. left. auto.
    + intros ctx sub ?. by destruct (F3 ctx sub) as (? & ? & ?).
    + intros topic qg sub ctx -> Hcall. by rewrite (F7 _ _ _ eq_refl) in Hcall.
  - simpl in Hon. destruct kd; simplify_eq. by apply sub_inv_go.
  - simpl in Hon.
    pose proof Hinv as (S0 & S0' & S1 & S2 & S3 & S4 & S5 & S6 & S7).
    destruct kd; simplify_eq;
      (eapply (sub_inv_relabel m kds tid g); try done; simpl;
       try (by left); try (intros; by simplify_eq);
       try (intros ? [[? ?]|?]; done);
       try (intros ? ? [?|?]; done);
       try (intros ? ? [?|[?|?]]; done)).
  - simpl in Hon.
    pose proof Hinv as (S0 & S0' & S1 & S2 & S3 & S4 & S5 & S6 & S7).
    assert (Hfresh : forall j kj, kds !! j = Some kj ->
              sk_sub kj <> Some (length (broker_subs (store m)))).
    { intros j kj Hj Hsub. specialize (S3 _ _ _ Hj Hsub). lia. }
    assert (Hopen : sub_is_open
              (set_broker_subs
                 (broker_subs (store m)
                  ++ [{| sub_topic := topic; sub_group := qg; sub_cb := cb;
                         sub_opts := opts; sub_open := true |}]) (store m))
              (length (broker_subs (store m)))).
    { exists {| sub_topic := topic; sub_group := qg; sub_cb := cb;
                sub_opts := opts; sub_open := true |}.
      split; [|done]. simpl.
      rewrite lookup_app_r by done. by rewrite Nat.sub_diag. }
    destruct kd; simplify_eq;
      (eapply (sub_inv_relabel m kds tid g); try done; simpl;
       try (by left); try (intros; by simplify_eq);
       try (rewrite length_app; simpl; lia);
       try (intros sub' _ (b & Hb & Ho); exists b; split; [|done];
            by apply lookup_app_l_Some);
       try (intros ? [[? ?]|?]; done);
       try (intros ? ? [?|?]; by simplify_eq);
       try (intros ? ? [?|[?|?]]; done);
       try (intros sub' ?; simplify_eq; rewrite length_app; simpl; lia);
       try (intros sub' ?; simplify_eq; by right);
       try (intros ?; by apply ctx_done_mono)).
Qed.

Lemma sub_inv_run cfg acts m :
  run cfg acts boot = Some m ->
  exists kds, kinded sub_protocol m kds /\ sub_inv m kds.
Proof.
  apply (protocol_invariant sub_protocol cfg (follows_sub_methods cfg) sub_inv).
  - split; [|split; [|split; [|split; [|split; [|split; [|split; [|split]]]]]]];
      simpl; try done; intros; try (by rewrite lookup_nil in * );
      try (by destruct H as [?|?]; rewrite lookup_nil in * ).
    by apply elem_of_nil in H.
  - intros. by eapply sub_inv_step.
Qed.

Lemma apply_event_subs ev s sub :
  sub ∈ subs s -> sub ∈ subs (apply_event ev s).
Proof.
  destruct ev; simpl; auto.
  - intros. apply elem_of_app. by left.
  - by destruct wg.
  - by destruct ctx.
  - destruct res; auto. unfold close_sub. by destruct (broker_subs s !! sub0).
  - by destruct res.
Qed.

Lemma subs_inv_transition cfg m m' :
  subs_inv m -> panicked m = None -> transition cfg m m' -> subs_inv m'.
Proof.
  intros Hinv _ Ht.
  destruct Ht as [c|n|sub msg b Hb Ho Hc|tid g r msg Hg He
                 |tid g X o k r x s' ev Hg Hbody Ho|tid g child k Hg Hbody
                 |tid g topic qg cb opts k e Hg Hbody
                 |tid g topic qg cb opts k Hg Hbody];
    intros t sub0 Hin; simpl in *; try (by eapply Hinv).
  - apply exec_op_sound in Ho as [-> _].
    apply elem_of_app in Hin as [Hin|Hin].
    + eapply apply_event_subs, Hinv, Hin.
    + apply list_elem_of_singleton in Hin. simplify_eq. simpl.
      apply elem_of_app. right. by apply list_elem_of_singleton.
  - apply elem_of_app in Hin as [Hin|Hin]; [by eapply Hinv|].
    apply list_elem_of_singleton in Hin. simplify_eq.
  - apply elem_of_app in Hin as [Hin|Hin]; [by eapply Hinv|].
    apply list_elem_of_singleton in Hin. simplify_eq.
  - apply elem_of_app in Hin as [Hin|Hin]; [by eapply Hinv|].
    apply list_elem_of_singleton in Hin. simplify_eq.
Qed.

Lemma subs_inv_run cfg acts m : run cfg acts boot = Some m -> subs_inv m.
Proof.
  intros Hrun. eapply (run_invariant cfg subs_inv); eauto.
  - intros. by eapply subs_inv_transition.
  - intros t sub Hin. by apply elem_of_nil in Hin.
Qed.

(** The log of a [Subscribe] call that has returned: it closed no
    subscription, it started a watcher for and registered every
    subscription it made, and a failed broker call is what it returned. *)
Lemma Subscribe_loop_log cfg ctx topic out todo i steps evs v :
  run_goroutine steps (Subscribe_loop cfg ctx topic out todo i) = Some (evs, Return v) ->
  (forall sub r, EvSubClose sub r ∉ evs) /\
  (forall tp qg sub, EvSubscribe tp qg (inl sub) ∈ evs ->
     EvGo ∈ evs /\ EvAppendSub sub ∈ evs) /\
  (forall tp qg e, EvSubscribe tp qg (inr e) ∈ evs ->
     v = VChan None (errors_Wrap (Some e) "cannot subscribe")).
Proof.
  revert i steps evs. induction todo as [|todo IH]; intros i steps evs H.
  - simpl in H. follow H.
    split; [|split]; [intros sub r Hin|intros tp qg sub Hin|intros tp qg e Hin];
      by apply elem_of_nil in Hin.
  - rewrite Subscribe_loop_S in H. unfold subscribe in H. follow H.
    all: try (apply IH in H as (H1 & H2 & H3)).
    all: (split; [|split]);
      [intros ? ? Hin|intros ? ? ? Hin|intros ? ? ? Hin].
    all: repeat (apply elem_of_cons in Hin as [Hin|Hin]; [try discriminate|]).
    all: try (by apply elem_of_nil in Hin).
    all: simplify_eq; try done.
    all: try (by eapply H1); try (by eapply H3).
    all: try (split; by repeat first [left|right]).
    all: destruct (H2 _ _ _ Hin); split; [by do 2 right; left|by do 6 right].
Qed.

Lemma Subscribe_log cfg ctx topic steps evs v :
  run_goroutine steps (Subscribe cfg ctx topic) = Some (evs, Return v) ->
  (forall sub r, EvSubClose sub r ∉ evs) /\
  (forall tp qg sub, EvSubscribe tp qg (inl sub) ∈ evs ->
     EvGo ∈ evs /\ EvAppendSub sub ∈ evs) /\
  (forall tp qg e, EvSubscribe tp qg (inr e) ∈ evs ->
     v = VChan None (errors_Wrap (Some e) "cannot subscribe")).
Proof.
  intros H. unfold Subscribe in H. follow H.
  apply Subscribe_loop_log in H as (H1 & H2 & H3).
  split; [|split].
  - intros ? ? Hin. apply elem_of_cons in Hin as [?|Hin]; [done|].
    apply elem_of_cons in Hin as [?|Hin]; [done|]. by eapply H1.
  - intros ? ? ? Hin. apply elem_of_cons in Hin as [?|Hin]; [done|].
    apply elem_of_cons in Hin as [?|Hin]; [done|].
    destruct (H2 _ _ _ Hin). split; by do 2 right.
  - intros ? ? ? Hin. apply elem_of_cons in Hin as [?|Hin]; [done|].
    apply elem_of_cons in Hin as [?|Hin]; [done|]. by eapply H3.
Qed.

(** C9: when a broker call of a [Subscribe] call has failed and the call
    has returned, it returned that error wrapped ("cannot subscribe") and
    no channel; it closed none of the subscriptions it had made; and each
    of them had its watcher started, is in [s.subs], and the broker still
    delivers to it for as long as [s.closing] is not closed and the scope
    the caller passed is not cancelled, whatever else has run meanwhile. *)
Theorem failed_Subscribe_keeps_workers cfg acts m t g ctx topic v tp qg e :
  run cfg acts boot = Some m ->
  pool m !! t = Some g ->
  entry g = EntryCall (CallSubscribe ctx topic) ->
  body g = Return v ->
  (t, EvSubscribe tp qg (inr e)) ∈ trace m ->
  v = VChan None (errors_Wrap (Some e) "cannot subscribe") /\
  (forall sub r, (t, EvSubClose sub r) ∉ trace m) /\
  (forall tp' qg' sub,
     (t, EvSubscribe tp' qg' (inl sub)) ∈ trace m ->
     (t, EvGo) ∈ trace m /\
     sub ∈ subs (store m) /\
     (closing (store m) = false -> ctx_done (store m) ctx = false ->
      sub_is_live (store m) sub)).
Proof.
  intros Hrun Hg Hent Hbody Hfail.
  destruct (call_history _ _ _ _ _ _ _ Hrun Hg Hent Hbody) as (steps & Hr).
  simpl in Hr. apply Subscribe_log in Hr as (L1 & L2 & L3).
  split; [|split].
  - eapply L3. apply elem_of_events_of. exact Hfail.
  - intros sub r Hin. eapply L1. apply elem_of_events_of. exact Hin.
  - intros tp' qg' sub Hin.
    destruct (L2 tp' qg' sub) as [Hgo Happ]; [by apply elem_of_events_of|].
    apply elem_of_events_of in Hgo, Happ.
    split; [done|]. split; [by eapply subs_inv_run|].
    intros Hcl Hctx.
    destruct (sub_inv_run _ _ _ Hrun)
      as (kds & Hk & S0 & S0' & S1 & S2 & S3 & S4 & S5 & S6 & S7).
    destruct (kinded_lookup _ _ _ _ _ Hk Hg) as (kd & Hkd & Hfol).
    rewrite Hbody in Hfol. simpl in Hfol.
    pose proof (S5 _ _ _ _ _ Hg Hent Hkd) as Hcall.
    destruct (S6 _ _ _ _ _ _ Hin Hkd Hcall) as [->|(j & kj & Hj & Hw)].
    { by destruct Hfol as [?|[?|[?|[[? ?]|[? ?]]]]]. }
    assert (Hkj : kj = SkWatch ctx sub).
    { destruct Hw as [?|Hw]; [done|].
      destruct (S1 j kj ctx Hj) as [?|?]; [|congruence|congruence].
      destruct Hw as [-> | ->]; [left; eauto|by right]. }
    subst kj. destruct (S2 j ctx sub (or_intror Hj)) as (b & Hb & Ho).
    exists b. split; [done|]. rewrite Ho. simpl.
    destruct (conn_open (store m)) eqn:Hc; [done|].
    rewrite S0 in Hcl; done.
Qed.

Lemma failed_Subscribe_keeps_workers_witness :
  VChan None (Some "cannot subscribe: no broker")
  = VChan None (errors_Wrap (Some "no broker") "cannot subscribe") /\
  0%nat ∈ subs (store (machine_after two_workers failed_second_acts)) /\
  sub_is_live (store (machine_after two_workers failed_second_acts)) 0%nat.
Proof.
  destruct (failed_Subscribe_keeps_workers two_workers failed_second_acts
              (machine_after two_workers failed_second_acts) 0%nat
              {| entry := EntryCall (CallSubscribe (Scope 0) "topic");
                 body := Return (VChan None (Some "cannot subscribe: no broker")) |}
              (Scope 0) "topic" (VChan None (Some "cannot subscribe: no broker"))
              "topic" (Some "group") "no broker")
    as (Hv & _ & H).
  - vm_compute. reflexivity.
  - vm_compute. reflexivity.
  - reflexivity.
  - reflexivity.
  - vm_compute. do 9 right. left.
  - split; [exact Hv|].
    destruct (H "topic" (Some "group") 0%nat) as (_ & Hreg & Hlive).
    + vm_compute. do 3 right. left.
    + split; [exact Hreg|]. apply Hlive; vm_compute; reflexivity.
Defined.

(** * Further properties of the code *)

(** ** The configuration and the constructor *)

(** X1: [setDefaults] treats negative values like unset ones, so that the
    worker count is at least one and both timeouts are positive afterwards;
    it changes nothing but these three fields and the subscription options;
    and the defaults never change what [Validate] answers. *)
Theorem setDefaults_bounds_and_frame (c : StreamingSubscriberConfig) :
  1 <= SubscribersCount (setDefaults c) /\
  0 < CloseTimeout (setDefaults c) /\
  0 < AckWaitTimeout (setDefaults c) /\
  (SubscribersCount c <= 0 -> SubscribersCount (setDefaults c) = 1) /\
  (CloseTimeout c <= 0 -> CloseTimeout (setDefaults c) = Second * 30) /\
  (AckWaitTimeout c <= 0 -> AckWaitTimeout (setDefaults c) = Second * 30) /\
  ClusterID (setDefaults c) = ClusterID c /\
  ClientID (setDefaults c) = ClientID c /\
  QueueGroup (setDefaults c) = QueueGroup c /\
  DurableName (setDefaults c) = DurableName c /\
  StanOptions (setDefaults c) = StanOptions c /\
  Unmarshaler (setDefaults c) = Unmarshaler c /\
  Validate (setDefaults c) = Validate c.
Proof.
  repeat match goal with |- _ /\ _ => split end;
    try apply Validate_setDefaults;
    unfold setDefaults; simpl; unfold Second;
    destruct (Z.leb_spec (SubscribersCount c) 0);
    destruct (Z.leb_spec (CloseTimeout c) 0);
    destruct (Z.leb_spec (AckWaitTimeout c) 0);
    first [reflexivity|lia].
Qed.

(** X2: [NewStreamingSubscriber] ends in one of three ways.  The
    configuration does not validate: the validation error, unwrapped, and
    the broker was never called.  The one connect call (with the cluster
    id, the client id and the options of the configuration) failed: its
    error wrapped with "cannot connect to NATS".  Or a subscriber over the
    defaulted configuration, which then has an unmarshaler, at least one
    worker, and a queue group if it has more than one worker. *)
Theorem NewStreamingSubscriber_outcomes c steps evs v :
  run_goroutine steps (NewStreamingSubscriber c) = Some (evs, Return v) ->
  (exists err,
     Validate c = Some err /\ evs = [] /\ v = VSubscriber None (Some err)) \/
  (exists e,
     Validate c = None /\
     evs = [EvConnect (ClusterID c) (ClientID c) (StanOptions c) (Some e)] /\
     v = VSubscriber None (Some ("cannot connect to NATS: " +:+ e))) \/
  (Validate c = None /\
   evs = [EvConnect (ClusterID c) (ClientID c) (StanOptions c) None] /\
   v = VSubscriber (Some (setDefaults c)) None /\
   Unmarshaler (setDefaults c) <> None /\
   1 <= SubscribersCount (setDefaults c) /\
   (1 < SubscribersCount (setDefaults c) -> QueueGroup (setDefaults c) <> "")).
Proof.
  intros H. unfold NewStreamingSubscriber in H.
  rewrite Validate_setDefaults in H.
  destruct (Validate c) as [err|] eqn:Hv.
  - follow H. left. eauto.
  - right. simpl in H. follow H.
    + left. eauto.
    + right. repeat (split; [done|]).
      unfold Validate in Hv. unfold setDefaults; simpl.
      destruct (Unmarshaler c); [|done]. split; [done|].
      destruct (Z.leb_spec (SubscribersCount c) 0); [split; [lia|lia]|].
      split; [lia|]. intros Hn Hq.
      rewrite Hq in Hv. simpl in Hv.
      destruct (Z.ltb_spec 1 (SubscribersCount c)); [done|lia].
Qed.

Lemma NewStreamingSubscriber_outcomes_witness :
  Unmarshaler two_workers <> None /\
  1 <= SubscribersCount two_workers /\
  (1 < SubscribersCount two_workers -> QueueGroup two_workers <> "").
Proof.
  destruct (NewStreamingSubscriber_outcomes (sample_config 2 "group")
              (quiet_steps 1) [EvConnect "cluster" "client" [] None]
              (VSubscriber (Some two_workers) None))
    as [(err & Hv & _)|[(e & _ & He & _)|(_ & _ & _ & H)]].
  - reflexivity.
  - discriminate Hv.
  - discriminate He.
  - exact H.
Defined.

(** ** The workers of a [Subscribe] call *)

Lemma Subscribe_loop_workers cfg ctx topic out todo i steps evs v :
  run_goroutine steps (Subscribe_loop cfg ctx topic out todo i) = Some (evs, Return v) ->
  registered evs = subscribed evs /\
  count is_go evs = length (subscribed evs) /\
  forallb (is_subscribe_with topic (queue_of cfg)) evs = true /\
  ((v = VChan (Some out) None /\ length (subscribed evs) = todo /\
    started_nums evs = Zseq i todo) \/
   (exists e n, v = VChan None (errors_Wrap (Some e) "cannot subscribe") /\
      (length (subscribed evs) < todo)%nat /\
      started_nums evs = Zseq i n /\ n = S (length (subscribed evs)))).
Proof.
  revert i steps evs. induction todo as [|todo IH]; intros i steps evs H.
  - simpl in H. follow H. simpl. split; [done|]. split; [done|]. split; [done|].
    by left.
  - rewrite Subscribe_loop_S in H. unfold subscribe, queue_of in *. follow H.
    all: try (apply IH in H as (H1 & H2 & H3 & H4)).
    all: rewrite ?negb_true_iff, ?negb_false_iff in *.
    all: repeat match goal with Hb : string_is_empty _ = _ |- _ => rewrite Hb in * end.
    all: simpl; rewrite ?count_cons; simpl; rewrite ?bool_decide_eq_true_2 by done;
      simpl.
    all: try (split; [by f_equal|]; split; [by f_equal|]; split; [done|];
              destruct H4 as [(-> & <- & ->)|(e & n & -> & Hlt & -> & ->)];
              [by left|right; exists e, (S (S (length (subscribed evs))));
                        simpl; repeat split; [lia..]]).
    all: split; [done|]; split; [done|]; split; [done|];
      right; eexists _, 1%nat; simpl; repeat split; lia.
Qed.

(** X3: a [Subscribe] call that has returned started one watcher for and
    appended to [s.subs], in their order, each subscription it made, all
    of them on its topic and in the configured queue group if there is one;
    it returned either the channel it had made first, and then it made
    exactly [SubscribersCount] subscriptions, logging the numbers 0 to
    [SubscribersCount - 1], or an error and no channel, and then it made
    fewer. *)
Theorem Subscribe_starts_every_worker cfg acts m t g ctx topic v :
  run cfg acts boot = Some m ->
  pool m !! t = Some g ->
  entry g = EntryCall (CallSubscribe ctx topic) ->
  body g = Return v ->
  registered (events_of t (trace m)) = subscribed (events_of t (trace m)) /\
  count is_go (events_of t (trace m)) = length (subscribed (events_of t (trace m))) /\
  forallb (is_subscribe_with topic (queue_of cfg)) (events_of t (trace m)) = true /\
  ((exists out,
      v = VChan (Some out) None /\
      head (events_of t (trace m)) = Some (EvMakeChan out) /\
      length (subscribed (events_of t (trace m))) = Z.to_nat (SubscribersCount cfg) /\
      started_nums (events_of t (trace m))
      = Zseq 0 (Z.to_nat (SubscribersCount cfg))) \/
   (exists e,
      v = VChan None (Some ("cannot subscribe: " +:+ e)) /\
      (length (subscribed (events_of t (trace m)))
       < Z.to_nat (SubscribersCount cfg))%nat)).
Proof.
  intros Hrun Hg Hent Hbody.
  destruct (call_history _ _ _ _ _ _ _ Hrun Hg Hent Hbody) as (steps & Hr).
  simpl in Hr. revert Hr. generalize (events_of t (trace m)). intros evs Hr.
  unfold Subscribe in Hr. follow Hr.
  apply Subscribe_loop_workers in Hr as (H1 & H2 & H3 & H4).
  simpl. rewrite !count_cons. simpl.
  split; [done|]. split; [done|]. split; [done|].
  destruct H4 as [(-> & <- & ->)|(e & n & -> & Hlt & _)].
  - left. eauto.
  - right. eauto.
Qed.

Lemma Subscribe_starts_every_worker_witness :
  registered (events_of 0 (trace (machine_after two_workers two_topic_acts)))
  = [0%nat; 1%nat] /\
  count is_go (events_of 0 (trace (machine_after two_workers two_topic_acts))) = 2%nat.
Proof.
  destruct (Subscribe_starts_every_worker two_workers two_topic_acts
              (machine_after two_workers two_topic_acts) 0%nat
              {| entry := EntryCall (CallSubscribe (Scope 0) "topic");
                 body := Return (VChan (Some 0%nat) None) |}
              (Scope 0) "topic" (VChan (Some 0%nat) None))
    as (H1 & H2 & _).
  - vm_compute. reflexivity.
  - vm_compute. reflexivity.
  - reflexivity.
  - reflexivity.
  - rewrite H1, H2. vm_compute. split; reflexivity.
Defined.

(** ** [SubscribeInitialize] *)

Lemma close_sub_closed sub sub' s :
  (exists b, broker_subs s !! sub' = Some b /\ sub_open b = false) ->
  exists b, broker_subs (close_sub sub s) !! sub' = Some b /\ sub_open b = false.
Proof.
  intros (b & Hb & Ho). unfold close_sub.
  destruct (broker_subs s !! sub) as [b0|] eqn:Hb0; simpl; [|eauto].
  destruct (decide (sub' = sub)) as [->|Hne].
  - eexists. split; [apply list_lookup_insert_eq; by eapply lookup_lt_Some|done].
  - exists b. by rewrite list_lookup_insert_ne.
Qed.

Lemma apply_event_closed_sub ev s sub :
  (exists b, broker_subs s !! sub = Some b /\ sub_open b = false) ->
  exists b, broker_subs (apply_event ev s) !! sub = Some b /\ sub_open b = false.
Proof.
  intros H. destruct ev; simpl; try done.
  - by destruct wg.
  - by destruct ctx.
  - destruct res; [done|]. by apply close_sub_closed.
  - by destruct res.
Qed.

Lemma close_sub_closes (sub : SubId) s :
  (sub < length (broker_subs s))%nat ->
  exists b, broker_subs (close_sub sub s) !! sub = Some b /\ sub_open b = false.
Proof.
  intros Hlt. unfold close_sub.
  destruct (broker_subs s !! sub) as [b0|] eqn:Hb0; simpl.
  - eexists. split; [apply list_lookup_insert_eq; by eapply lookup_lt_Some|done].
  - apply lookup_ge_None in Hb0. lia.
Qed.

Lemma closed_inv_step cfg m kds m' kds' :
  sub_inv m kds -> closed_inv m ->
  kinded_step sub_protocol cfg m kds m' kds' ->
  closed_inv m'.
Proof.
  intros Hinv Hcl Hs.
  destruct Hs as [c|n|sub msg b Hb' Ho Hc'|msg
                 |tid g kd kd' ev p' Hg Hkd Hen Hon
                 |tid g kd kc kk child k Hg Hkd Hbody Hon
                 |tid g kd kd' topic qg e p' Hg Hkd Hon
                 |tid g kd kd' topic qg cb opts p' Hg Hkd Hon];
    intros t sub0 Hin; simpl in *; try (by eapply Hcl).
  - apply elem_of_app in Hin as [Hin|Hin].
    + by eapply apply_event_closed_sub, Hcl.
    + apply list_elem_of_singleton in Hin. simplify_eq. simpl.
      destruct (sub_on_event_facts _ _ _ Hon) as (F1 & _).
      destruct Hinv as (_ & _ & _ & _ & S3 & _).
      apply close_sub_closes. eapply S3; eauto.
  - apply elem_of_app in Hin as [Hin|Hin]; [by eapply Hcl|].
    apply list_elem_of_singleton in Hin. simplify_eq.
  - apply elem_of_app in Hin as [Hin|Hin]; [by eapply Hcl|].
    apply list_elem_of_singleton in Hin. simplify_eq.
  - apply elem_of_app in Hin as [Hin|Hin];
      [|apply list_elem_of_singleton in Hin; simplify_eq].
    destruct (Hcl _ _ Hin) as (b & Hb & Ho). exists b. split; [|done].
    by apply lookup_app_l_Some.
Qed.

Lemma closed_inv_run cfg acts m : run cfg acts boot = Some m -> closed_inv m.
Proof.
  intros Hrun.
  destruct (protocol_invariant sub_protocol cfg (follows_sub_methods cfg)
              (fun m kds => sub_inv m kds /\ closed_inv m)) with (acts := acts) (m := m)
    as (kds & _ & _ & H); try done.
  - split.
    + split; [|split; [|split; [|split; [|split; [|split; [|split; [|split]]]]]]];
        simpl; try done; intros; try (by rewrite lookup_nil in * );
        try (by destruct H as [?|?]; rewrite lookup_nil in * ).
      by apply elem_of_nil in H.
    + intros t sub Hin. by apply elem_of_nil in Hin.
  - intros m0 kds0 m1 kds1 [Hi Hc] Hk Hp Hs Hk'. split.
    + by eapply sub_inv_step.
    + by eapply closed_inv_step.
Qed.

Lemma SubscribeInitialize_log cfg topic steps evs v :
  run_goroutine steps (SubscribeInitialize cfg topic) = Some (evs, Return v) ->
  exists c,
    (exists e,
       evs = [EvMakeChan c; EvSubscribe topic (queue_of cfg) (inr e)] /\
       v = VError (Some ("cannot initialize subscribe: " +:+ e))) \/
    (exists sub r,
       evs = [EvMakeChan c; EvSubscribe topic (queue_of cfg) (inl sub);
              EvSubClose sub r] /\
       v = VError (errors_Wrap r "cannot close after subscribe initialize")).
Proof.
  intros H. unfold SubscribeInitialize, subscribe, queue_of in *. follow H.
  all: rewrite ?negb_true_iff, ?negb_false_iff in *.
  all: repeat match goal with Hb : string_is_empty _ = _ |- _ => rewrite Hb in * end.
  all: eexists; first [by left; eauto|by right; eauto].
Qed.

(** X4: a [SubscribeInitialize] call that has returned did exactly this:
    it made a channel, subscribed to the topic (in the configured queue
    group if there is one) and, if that succeeded, closed the subscription
    at once.  It returned the broker's error wrapped with "cannot
    initialize subscribe", or what closing returned (wrapped with "cannot
    close after subscribe initialize", nil for nil); and when the close
    succeeded the subscription is closed at the broker from then on. *)
Theorem SubscribeInitialize_subscribes_and_closes cfg acts m t g topic v :
  run cfg acts boot = Some m ->
  pool m !! t = Some g ->
  entry g = EntryCall (CallSubscribeInitialize topic) ->
  body g = Return v ->
  exists c,
    (exists e,
       events_of t (trace m)
       = [EvMakeChan c; EvSubscribe topic (queue_of cfg) (inr e)] /\
       v = VError (Some ("cannot initialize subscribe: " +:+ e))) \/
    (exists sub r,
       events_of t (trace m)
       = [EvMakeChan c; EvSubscribe topic (queue_of cfg) (inl sub);
          EvSubClose sub r] /\
       v = VError (errors_Wrap r "cannot close after subscribe initialize") /\
       (r = None -> ~ sub_is_open (store m) sub)).
Proof.
  intros Hrun Hg Hent Hbody.
  destruct (call_history _ _ _ _ _ _ _ Hrun Hg Hent Hbody) as (steps & Hr).
  simpl in Hr. apply SubscribeInitialize_log in Hr as (c & [H|(sub & r & Hevs & Hv)]).
  - exists c. by left.
  - exists c. right. exists sub, r. split; [done|]. split; [done|].
    intros -> (b & Hb & Ho).
    destruct (closed_inv_run _ _ _ Hrun t sub) as (b' & Hb' & Ho').
    + apply elem_of_events_of. rewrite Hevs. do 2 right. left.
    + rewrite Hb in Hb'. simplify_eq. congruence.
Qed.

Lemma SubscribeInitialize_subscribes_and_closes_witness :
  events_of 0 (trace (machine_after one_worker initialize_acts))
  = [EvMakeChan 0%nat; EvSubscribe "topic" None (inl 0%nat); EvSubClose 0%nat None] /\
  ~ sub_is_open (store (machine_after one_worker initialize_acts)) 0%nat.
Proof.
  destruct (SubscribeInitialize_subscribes_and_closes one_worker initialize_acts
              (machine_after one_worker initialize_acts) 0%nat
              {| entry := EntryCall (CallSubscribeInitialize "topic");
                 body := Return (VError None) |}
              "topic" (VError None))
    as (c & [(e & He & _)|(sub & r & Hevs & Hv & Hclosed)]).
  - vm_compute. reflexivity.
  - vm_compute. reflexivity.
  - reflexivity.
  - reflexivity.
  - vm_compute in He. discriminate He.
  - vm_compute in Hevs. simplify_eq.
    split; [vm_compute; reflexivity|]. by apply Hclosed.
Defined.

(** ** The wiring of calls, subscriptions, callbacks and watchers *)

Lemma transition_cases cfg m m' :
  transition cfg m m' ->
  (exists c, m' = spawn (EntryCall c) (method_body cfg c) m) \/
  (exists sub msg b,
     broker_subs (store m) !! sub = Some b /\ sub_open b = true /\
     conn_open (store m) = true /\
     m' = spawn (EntryCallback sub msg) (sub_cb b msg) m) \/
  (exists s' pn,
     m' = {| store := s'; pool := pool m; trace := trace m; panicked := pn |} /\
     broker_subs s' = broker_subs (store m)) \/
  (exists tid g r s' p' sp ev,
     pool m !! tid = Some g /\
     exec r (store m) (body g) = TStepped s' p' sp ev /\
     m' = {| store := s';
             pool := update tid g p' (pool m)
                     ++ ((fun c => {| entry := EntryGo tid; body := c |}) <$> sp);
             trace := trace m ++ [(tid, ev)]; panicked := None |}).
Proof.
  intros Ht.
  destruct Ht as [c|n|sub msg b Hb Ho Hc|tid g r msg Hg He
                 |tid g X o k r x s' ev Hg Hbody Ho|tid g child k Hg Hbody
                 |tid g topic qg cb opts k e Hg Hbody
                 |tid g topic qg cb opts k Hg Hbody].
  - left. eauto.
  - right. right. left. eexists _, _. split; [reflexivity|done].
  - right. left. eauto 10.
  - right. right. left. eexists _, _. split; [reflexivity|done].
  - right. right. right. exists tid, g, r, s', (k x), [], ev.
    split; [done|]. split; [rewrite Hbody; simpl; by rewrite Ho|].
    simpl. by rewrite app_nil_r.
  - right. right. right. exists tid, g, Proceed, (store m), k, [child], EvGo.
    split; [done|]. split; [by rewrite Hbody|done].
  - right. right. right.
    exists tid, g, (Fail e), (store m), (k (inr e)), [],
      (EvSubscribe topic qg (inr e)).
    split; [done|]. split; [by rewrite Hbody|]. simpl. by rewrite app_nil_r.
  - right. right. right. eexists tid, g, Proceed, _, _, [], _.
    split; [done|]. split; [by rewrite Hbody|]. simpl. by rewrite app_nil_r.
Qed.

Lemma subscribed_app evs evs' :
  subscribed (evs ++ evs') = subscribed evs ++ subscribed evs'.
Proof.
  induction evs as [|ev evs IH]; [done|].
  destruct ev; simpl; try done. destruct res; simpl; by rewrite ?IH.
Qed.

Lemma head_app_Some {A : Type} (l l' : list A) x :
  head l = Some x -> head (l ++ l') = Some x.
Proof. by destruct l. Qed.

Lemma wired_mono cfg ctx out watch (made made' : SubId -> Prop) p :
  (forall s, made s -> made' s) ->
  wired cfg ctx out watch made p -> wired cfg ctx out watch made' p.
Proof.
  revert made made'.
  induction p as [v|X o k IH|child _ k IH|topic qg cb _ opts k IH];
    intros made made' Hm; simpl.
  - done.
  - intros H x. eapply IH; eauto.
  - intros (Hw & (sub & fields & -> & Hs) & Hk).
    split; [done|]. split; [eauto 10|]. eapply IH; eauto.
  - intros (Hq & Ho & Hcb & Hk). do 3 (split; [done|]).
    intros res. eapply IH; [|apply Hk]. intros s [?|?]; auto.
Qed.

Lemma plain_processMessage cfg ctx m out fields :
  plain (processMessage cfg ctx m out fields).
Proof.
  unfold processMessage. simpl. intros [|]; simpl; [done|].
  intros _ _. destruct (Unmarshaler cfg) as [u|]; simpl; [|done].
  intros [msg|err]; simpl; [|done].
  intros ctx' _ [| | | | |]; simpl; auto.
  intros _ [| | | | |]; simpl; auto.
  intros [e|]; simpl; auto.
Qed.

Lemma plain_watcher sub ctx out fields : plain (watcher sub ctx out fields).
Proof. unfold watcher. simpl. intros _ [e|]; simpl; auto. Qed.

Lemma plain_Close cfg : plain (Close cfg).
Proof.
  unfold Close. simpl. intros _ [|]; simpl; [done|].
  intros _ _ _ _ [e|]; simpl; auto.
Qed.

Lemma wired_Subscribe_loop cfg ctx topic out made todo i :
  wired cfg ctx out true made (Subscribe_loop cfg ctx topic out todo i).
Proof.
  revert made i. induction todo as [|todo IH]; intros made i; [done|].
  rewrite Subscribe_loop_S. unfold subscribe. simpl. intros _.
  destruct (string_is_empty (QueueGroup cfg)) eqn:Hq; simpl;
    unfold queue_of; rewrite Hq;
    do 2 (split; [done|]); (split; [eauto|]); intros [sub|e]; simpl; try done;
    (split; [done|]); (split; [eauto 10|]); intros _ _ _; apply IH.
Qed.

(** What one step of a goroutine leaves of the broker's subscriptions. *)
Lemma exec_keeps_subs r s p s' p' sp ev (sub : SubId) b :
  exec r s p = TStepped s' p' sp ev ->
  broker_subs s !! sub = Some b ->
  exists b', broker_subs s' !! sub = Some b' /\ sub_cb b' = sub_cb b.
Proof.
  intros He Hb. destruct p as [v|X o k|child k|topic qg cb opts k]; simpl in He.
  - done.
  - destruct (exec_op o r s) as [| |x s1 ev1] eqn:Ho; simplify_eq.
    apply exec_op_sound in Ho as [-> _].
    destruct ev; simpl; eauto.
    + destruct wg; eauto.
    + destruct ctx; eauto.
    + destruct res; [eauto|]. unfold close_sub.
      destruct (broker_subs s !! sub0) as [b0|] eqn:Hb0; simpl; [|eauto].
      destruct (decide (sub = sub0)) as [->|Hne].
      * rewrite Hb in Hb0. simplify_eq. eexists.
        split; [apply list_lookup_insert_eq; by eapply lookup_lt_Some|done].
      * exists b. by rewrite list_lookup_insert_ne.
    + destruct res; eauto.
  - simplify_eq. eauto.
  - destruct (call_result r); simplify_eq; [eauto|].
    exists b. split; [|done]. simpl. by apply lookup_app_l_Some.
Qed.

Lemma exec_plain r s p s' p' sp ev :
  plain p -> exec r s p = TStepped s' p' sp ev ->
  plain p' /\ sp = [] /\ forall topic qg res, ev <> EvSubscribe topic qg res.
Proof.
  intros Hp He. destruct p as [v|X o k|child k|topic qg cb opts k]; simpl in *;
    try done.
  destruct (exec_op o r s) as [| |x s1 ev1] eqn:Ho; simplify_eq.
  split; [done|]. split; [done|]. intros topic qg res ->.
  destruct o; simpl in Ho; repeat case_match; simplify_eq.
Qed.

Lemma exec_wired cfg ctx out watch made r s p s' p' sp ev :
  wired cfg ctx out watch made p ->
  exec r s p = TStepped s' p' sp ev ->
  wired cfg ctx out watch (fun x => made x \/ x ∈ subscribed [ev]) p' /\
  (forall c, c ∈ sp ->
     watch = true /\ exists sub fields, c = watcher sub ctx out fields /\ made sub) /\
  (forall topic qg (sub : SubId),
     ev = EvSubscribe topic qg (inl sub) ->
     exists b fields,
       broker_subs s' !! sub = Some b /\
       sub_cb b = fun m => processMessage cfg ctx m out fields).
Proof.
  intros Hw He. destruct p as [v|X o k|child k|topic qg cb opts k]; simpl in *.
  - done.
  - destruct (exec_op o r s) as [| |x s1 ev1] eqn:Ho; simplify_eq.
    split; [eapply wired_mono; [|apply Hw]; auto|].
    split; [intros c Hin; by apply elem_of_nil in Hin|].
    intros topic qg sub ->.
    destruct o; simpl in Ho; repeat case_match; simplify_eq.
  - simplify_eq. destruct Hw as (Hwatch & Hchild & Hk).
    split; [eapply wired_mono; [|apply Hk]; auto|].
    split; [|done].
    intros c Hin. apply list_elem_of_singleton in Hin as ->. done.
  - destruct Hw as (_ & _ & (fields & ->) & Hk).
    destruct (call_result r); simplify_eq.
    + split; [eapply wired_mono; [|apply Hk]|].
      { intros x [?|?]; [by left|done]. }
      split; [intros c Hin; by apply elem_of_nil in Hin|done].
    + split; [eapply wired_mono; [|apply Hk]|].
      { intros x [?|?]; [by left|]. simplify_eq. right. simpl. by left. }
      split; [intros c Hin; by apply elem_of_nil in Hin|].
      intros topic' qg' sub ?. simplify_eq. eexists _, fields. simpl.
      split; [rewrite lookup_app_r by done; by rewrite Nat.sub_diag|done].
Qed.

Lemma wiring_frame cfg m m' t g :
  wiring cfg m t g ->
  events_of t (trace m') = events_of t (trace m) ->
  (forall i, exists l, events_of i (trace m') = events_of i (trace m) ++ l) ->
  (forall (sub : SubId) b, broker_subs (store m) !! sub = Some b ->
     exists b', broker_subs (store m') !! sub = Some b' /\ sub_cb b' = sub_cb b) ->
  (forall i gi, pool m !! i = Some gi ->
     exists gi', pool m' !! i = Some gi' /\ entry gi' = entry gi) ->
  wiring cfg m' t g.
Proof.
  intros Hw Hev Hext Hsubs Hpool. unfold wiring in *.
  destruct (entry g) as [[ctx topic|topic|]|parent|sub msg]; rewrite ?Hev; try done.
  - destruct Hw as (Hp & gp & ctx & topic & out & sub & fields & steps
                    & Hgp & Hent & Hhead & Hsub & Hr).
    split; [done|]. destruct (Hpool _ _ Hgp) as (gp' & Hgp' & Hent').
    destruct (Hext parent) as [l Hl].
    exists gp', ctx, topic, out, sub, fields, steps.
    split; [done|]. split; [congruence|]. rewrite Hl.
    split; [by apply head_app_Some|]. split; [|done].
    rewrite subscribed_app. apply elem_of_app. by left.
  - destruct Hw as (Hp & b & steps & Hb & Hr). split; [done|].
    destruct (Hsubs _ _ Hb) as (b' & Hb' & Hcb). exists b', steps.
    split; [done|]. by rewrite Hcb.
Qed.

Lemma stepped_lookup (l : list Goroutine) tid g p' (sp : list Proc) t g' :
  l !! tid = Some g ->
  (update tid g p' l ++ ((fun c => {| entry := EntryGo tid; body := c |}) <$> sp)) !! t
  = Some g' ->
  (t = tid /\ g' = {| entry := entry g; body := p' |}) \/
  (t <> tid /\ l !! t = Some g') \/
  ((length l <= t)%nat /\ exists c, c ∈ sp /\ g' = {| entry := EntryGo tid; body := c |}).
Proof.
  intros Hg Ht. unfold update in Ht.
  apply lookup_app_Some in Ht as [Ht|[Hlen Ht]].
  - apply list_lookup_insert_Some in Ht as [(-> & <- & _)|[Hne Ht]]; auto.
  - rewrite length_insert in Hlen. right. right. split; [done|].
    apply list_lookup_fmap_Some in Ht as (c & -> & Hc).
    exists c. split; [|done]. apply list_elem_of_lookup. eauto.
Qed.

Lemma stepped_lookup_old (l : list Goroutine) tid g p' extra i gi :
  l !! tid = Some g -> l !! i = Some gi ->
  exists gi', (update tid g p' l ++ extra) !! i = Some gi' /\ entry gi' = entry gi.
Proof.
  intros Hg Hi. unfold update. destruct (decide (i = tid)) as [->|Hne].
  - eexists. split.
    + apply lookup_app_l_Some, list_lookup_insert_eq. by eapply lookup_lt_Some.
    + simpl. congruence.
  - exists gi. split; [|done].
    apply lookup_app_l_Some. by rewrite list_lookup_insert_ne.
Qed.

Lemma wiring_stepped cfg m tid g r s' p' sp ev pool' :
  wiring cfg m tid g ->
  pool m !! tid = Some g ->
  exec r (store m) (body g) = TStepped s' p' sp ev ->
  (forall i gi, pool m !! i = Some gi ->
     exists gi', pool' !! i = Some gi' /\ entry gi' = entry gi) ->
  wiring cfg {| store := s'; pool := pool'; trace := trace m ++ [(tid, ev)];
                panicked := None |}
         tid {| entry := entry g; body := p' |}.
Proof.
  intros Hw Hg He Hpool. unfold wiring in *. simpl.
  rewrite !events_of_snoc, decide_True by done.
  destruct (entry g) as [[ctx topic|topic|]|parent|sub msg] eqn:Hent.
  - right. destruct Hw as [[Hnil Hbody]|(ctx' & watch & out & Hsc & Hhead & Hw)].
    + rewrite Hbody in He. simpl in He. simplify_eq.
      eexists ctx, true, _. rewrite Hnil. simpl.
      split; [done|]. split; [done|]. intros _. apply wired_Subscribe_loop.
    + exists ctx', watch, out. split; [done|].
      split; [by apply head_app_Some|].
      destruct (exec_wired _ _ _ _ _ _ _ _ _ _ _ _ Hw He) as (Hw' & _).
      eapply wired_mono; [|apply Hw'].
      intros x. rewrite subscribed_app, elem_of_app. tauto.
  - right. destruct Hw as [[Hnil Hbody]|(ctx' & watch & out & Hsc & Hhead & Hw)].
    + rewrite Hbody in He. simpl in He. simplify_eq.
      eexists Background, false, _. rewrite Hnil. simpl.
      split; [done|]. split; [done|]. unfold subscribe.
      destruct (string_is_empty (QueueGroup cfg)) eqn:Hq; simpl;
        unfold queue_of; rewrite Hq;
        do 2 (split; [done|]); (split; [eauto|]); by intros [sub|e].
    + exists ctx', watch, out. split; [done|].
      split; [by apply head_app_Some|].
      destruct (exec_wired _ _ _ _ _ _ _ _ _ _ _ _ Hw He) as (Hw' & _).
      eapply wired_mono; [|apply Hw'].
      intros x. rewrite subscribed_app, elem_of_app. tauto.
  - by destruct (exec_plain _ _ _ _ _ _ _ Hw He).
  - destruct Hw as (Hp & gp & ctx & topic & out & sub & fields & steps
                    & Hgp & Hentp & Hhead & Hsub & Hr).
    destruct (exec_plain _ _ _ _ _ _ _ Hp He) as (Hp' & _).
    split; [done|]. destruct (Hpool _ _ Hgp) as (gp' & Hgp' & Hent').
    assert (Hne : tid <> parent).
    { intros ->. rewrite Hg in Hgp. simplify_eq. congruence. }
    exists gp', ctx, topic, out, sub, fields, (steps ++ [(r, store m)]).
    rewrite events_of_snoc, decide_False by done.
    split; [done|]. split; [congruence|]. split; [done|]. split; [done|].
    by eapply run_goroutine_snoc.
  - destruct Hw as (Hp & b & steps & Hb & Hr).
    destruct (exec_plain _ _ _ _ _ _ _ Hp He) as (Hp' & _).
    split; [done|].
    destruct (exec_keeps_subs _ _ _ _ _ _ _ _ _ He Hb) as (b' & Hb' & Hcb).
    exists b', (steps ++ [(r, store m)]). split; [done|]. rewrite Hcb.
    by eapply run_goroutine_snoc.
Qed.

Lemma wiring_inv_transition cfg m m' :
  history_inv cfg m -> wiring_inv cfg m -> transition cfg m m' ->
  wiring_inv cfg m'.
Proof.
  intros (Htr & Hcbs & Hhist) [Hw He] Ht.
  apply transition_cases in Ht
    as [(c & ->)|[(sub & msg & b & Hb & Ho & Hc & ->)
       |[(s' & pn & -> & Hsubs)|(tid & g & r & s' & p' & sp & ev & Hg & Hex & ->)]]].
  - split.
    + intros t g Hg. apply lookup_app_Some in Hg as [Hg|[Hlen Hg]].
      * apply (wiring_frame cfg m); simpl; eauto.
        -- intros i. exists []. by rewrite app_nil_r.
        -- intros i gi Hi. exists gi. split; [|done]. by apply lookup_app_l_Some.
      * apply list_lookup_singleton_Some in Hg as [Hz <-].
        unfold wiring. simpl.
        rewrite (events_of_fresh t (trace m) (length (pool m))) by (done || lia).
        destruct c; [by left|by left|apply plain_Close].
    + intros t topic qg sub Hin.
      destruct (He _ _ _ _ Hin) as (b & g & ctx & watch & out & fields & ? & Hg & ?).
      exists b, g, ctx, watch, out, fields. split; [done|].
      split; [by apply lookup_app_l_Some|done].
  - assert (Hcb : is_callback cfg (sub_cb b)).
    { apply Hcbs. apply list_elem_of_lookup. eauto. }
    destruct Hcb as (ctx0 & out0 & fields0 & Hcb).
    split.
    + intros t g Hg. apply lookup_app_Some in Hg as [Hg|[Hlen Hg]].
      * apply (wiring_frame cfg m); simpl; eauto.
        -- intros i. exists []. by rewrite app_nil_r.
        -- intros i gi Hi. exists gi. split; [|done]. by apply lookup_app_l_Some.
      * apply list_lookup_singleton_Some in Hg as [Hz <-].
        unfold wiring. simpl.
        rewrite (events_of_fresh t (trace m) (length (pool m))) by (done || lia).
        split; [rewrite Hcb; apply plain_processMessage|].
        exists b, []. done.
    + intros t topic qg sub0 Hin.
      destruct (He _ _ _ _ Hin) as (b0 & g & ctx & watch & out & fields & ? & Hg & ?).
      exists b0, g, ctx, watch, out, fields. split; [done|].
      split; [by apply lookup_app_l_Some|done].
  - split.
    + intros t g Hg. simpl in Hg.
      apply (wiring_frame cfg m); simpl; eauto.
      * intros i. exists []. by rewrite app_nil_r.
      * intros sub b. rewrite Hsubs. eauto.
    + intros t topic qg sub Hin. simpl in *. rewrite Hsubs. eauto.
  - assert (Hold : forall i gi, pool m !! i = Some gi ->
              exists gi',
                (update tid g p' (pool m)
                 ++ ((fun c => {| entry := EntryGo tid; body := c |}) <$> sp)) !! i
                = Some gi' /\ entry gi' = entry gi).
    { intros i gi Hi. by eapply stepped_lookup_old. }
    assert (Hext : forall i, exists l,
              events_of i (trace m ++ [(tid, ev)]) = events_of i (trace m) ++ l).
    { intros i. rewrite events_of_snoc.
      destruct (decide (tid = i)); [by eexists|]. exists []. by rewrite app_nil_r. }
    split.
    + intros t g' Hg'. simpl in Hg'.
      destruct (stepped_lookup _ _ _ _ _ _ _ Hg Hg')
        as [[-> ->]|[[Hne Hgt]|(Hlen & c & Hc & ->)]].
      * eapply wiring_stepped; eauto.
      * apply (wiring_frame cfg m); simpl; eauto.
        -- rewrite events_of_snoc. by rewrite decide_False.
        -- intros sub b Hb. by eapply exec_keeps_subs.
      * unfold wiring. simpl.
        assert (Hfresh : events_of t (trace m ++ [(tid, ev)]) = []).
        { rewrite events_of_snoc, decide_False.
          - by apply (events_of_fresh t (trace m) (length (pool m))).
          - apply lookup_lt_Some in Hg. lia. }
        rewrite Hfresh.
        pose proof (Hw _ _ Hg) as Hwg. unfold wiring in Hwg.
        destruct (entry g) as [[ctx topic|topic|]|parent|sub msg] eqn:Hent.
        -- destruct Hwg as [[Hnil Hbody]|(ctx' & watch & out & Hsc & Hhead & Hwg)].
           { rewrite Hbody in Hex. simpl in Hex. simplify_eq.
             by apply elem_of_nil in Hc. }
           destruct (exec_wired _ _ _ _ _ _ _ _ _ _ _ _ Hwg Hex) as (_ & Hsp & _).
           destruct (Hsp _ Hc) as (_ & sub & fields & -> & Hmade).
           simpl in Hsc. simplify_eq.
           split; [apply plain_watcher|].
           eexists _, ctx', topic, out, sub, fields, [].
           rewrite events_of_snoc, decide_True by done.
           split; [apply lookup_app_l_Some, list_lookup_insert_eq;
                   by eapply lookup_lt_Some|].
           split; [done|]. split; [by apply head_app_Some|].
           split; [|done]. rewrite subscribed_app. apply elem_of_app. by left.
        -- destruct Hwg as [[Hnil Hbody]|(ctx' & watch & out & Hsc & Hhead & Hwg)].
           { rewrite Hbody in Hex. simpl in Hex. simplify_eq.
             by apply elem_of_nil in Hc. }
           destruct (exec_wired _ _ _ _ _ _ _ _ _ _ _ _ Hwg Hex) as (_ & Hsp & _).
           destruct (Hsp _ Hc) as (Hwatch & _).
           simpl in Hsc. by simplify_eq.
        -- destruct (exec_plain _ _ _ _ _ _ _ Hwg Hex) as (_ & -> & _).
           by apply elem_of_nil in Hc.
        -- destruct Hwg as (Hp & _).
           destruct (exec_plain _ _ _ _ _ _ _ Hp Hex) as (_ & -> & _).
           by apply elem_of_nil in Hc.
        -- destruct Hwg as (Hp & _).
           destruct (exec_plain _ _ _ _ _ _ _ Hp Hex) as (_ & -> & _).
           by apply elem_of_nil in Hc.
    + intros t topic qg sub Hin. simpl in *.
      apply elem_of_app in Hin as [Hin|Hin].
      * destruct (He _ _ _ _ Hin)
          as (b & gt & ctx & watch & out & fields & Hb & Hgt & Hsc & Hhead & Hcb).
        destruct (exec_keeps_subs _ _ _ _ _ _ _ _ _ Hex Hb) as (b' & Hb' & Hcb').
        destruct (Hold _ _ Hgt) as (gt' & Hgt' & Hent').
        destruct (Hext t) as [l Hl].
        exists b', gt', ctx, watch, out, fields.
        split; [done|]. split; [done|]. split; [by rewrite Hent'|].
        split; [rewrite Hl; by apply head_app_Some|congruence].
      * apply list_elem_of_singleton in Hin. simplify_eq.
        pose proof (Hw _ _ Hg) as Hwg. unfold wiring in Hwg.
        assert (Hnew : (update tid g p' (pool m)
                        ++ ((fun c => {| entry := EntryGo tid; body := c |}) <$> sp))
                       !! tid
                       = Some {| entry := entry g; body := p' |}).
        { apply lookup_app_l_Some, list_lookup_insert_eq. by eapply lookup_lt_Some. }
        rewrite events_of_snoc, decide_True by done.
        destruct (entry g) as [[ctx topic'|topic'|]|parent|sub' msg] eqn:Hent.
        -- destruct Hwg as [[Hnil Hbody]|(ctx' & watch & out & Hsc & Hhead & Hwg)].
           { rewrite Hbody in Hex. simpl in Hex. simplify_eq. }
           destruct (exec_wired _ _ _ _ _ _ _ _ _ _ _ _ Hwg Hex) as (_ & _ & Hsub).
           destruct (Hsub _ _ _ eq_refl) as (b & fields & Hb & Hcb).
           eexists b, _, ctx', watch, out, fields.
           split; [done|]. split; [exact Hnew|]. simpl.
           split; [done|]. split; [by apply head_app_Some|done].
        -- destruct Hwg as [[Hnil Hbody]|(ctx' & watch & out & Hsc & Hhead & Hwg)].
           { rewrite Hbody in Hex. simpl in Hex. simplify_eq. }
           destruct (exec_wired _ _ _ _ _ _ _ _ _ _ _ _ Hwg Hex) as (_ & _ & Hsub).
           destruct (Hsub _ _ _ eq_refl) as (b & fields & Hb & Hcb).
           eexists b, _, ctx', watch, out, fields.
           split; [done|]. split; [exact Hnew|]. simpl.
           split; [done|]. split; [by apply head_app_Some|done].
        -- destruct (exec_plain _ _ _ _ _ _ _ Hwg Hex) as (_ & _ & Hno).
           by destruct (Hno topic qg (inl sub)).
        -- destruct Hwg as (Hp & _).
           destruct (exec_plain _ _ _ _ _ _ _ Hp Hex) as (_ & _ & Hno).
           by destruct (Hno topic qg (inl sub)).
        -- destruct Hwg as (Hp & _).
           destruct (exec_plain _ _ _ _ _ _ _ Hp Hex) as (_ & _ & Hno).
           by destruct (Hno topic qg (inl sub)).
Qed.

Lemma wiring_inv_run cfg acts m :
  run cfg acts boot = Some m -> wiring_inv cfg m.
Proof.
  intros Hrun.
  apply (run_invariant cfg (fun m => history_inv cfg m /\ wiring_inv cfg m))
    with (acts := acts) (m := boot); [| |done].
  - intros m0 m1 [Hh Hw] Hp Ht. split.
    + by eapply history_inv_transition.
    + by eapply wiring_inv_transition.
  - split; [apply history_inv_boot|]. split.
    + intros t g Hg. simpl in Hg. by rewrite lookup_nil in Hg.
    + intros t topic qg sub Hin. by apply elem_of_nil in Hin.
Qed.

Lemma options_inv_transition cfg m m' :
  wiring_inv cfg m -> options_inv cfg m -> transition cfg m m' ->
  options_inv cfg m'.
Proof.
  intros [Hw _] Hinv Ht.
  destruct Ht as [c|n|sub msg b Hb Ho Hc|tid g r msg Hg He
                 |tid g X o k r x s' ev Hg Hbody Ho|tid g child k Hg Hbody
                 |tid g topic qg cb opts k e Hg Hbody
                 |tid g topic qg cb opts k Hg Hbody];
    intros sub0 b0 Hb0; simpl in *; try (by eapply Hinv).
  - apply exec_op_sound in Ho as [-> _].
    destruct ev; simpl in Hb0; try (by eapply Hinv).
    + destruct wg; by eapply Hinv.
    + destruct ctx; by eapply Hinv.
    + destruct res; [by eapply Hinv|]. unfold close_sub in Hb0.
      destruct (broker_subs (store m) !! sub) as [b1|] eqn:Hb1; simpl in Hb0;
        [|by eapply Hinv].
      apply list_lookup_insert_Some in Hb0 as [(-> & <- & _)|[_ Hb0]];
        [simpl|]; by eapply Hinv.
    + destruct res; by eapply Hinv.
  - apply lookup_app_Some in Hb0 as [Hb0|[_ Hb0]]; [by eapply Hinv|].
    apply list_lookup_singleton_Some in Hb0 as [_ <-]. simpl.
    pose proof (Hw _ _ Hg) as Hwg. unfold wiring in Hwg. rewrite Hbody in Hwg.
    destruct (entry g) as [[ctx topic'|topic'|]|parent|sub' msg]; simpl in Hwg;
      try done; try (by destruct Hwg).
    + destruct Hwg as [[_ ?]|(ctx' & watch & out & _ & _ & ? & ? & _)]; done.
    + destruct Hwg as [[_ ?]|(ctx' & watch & out & _ & _ & ? & ? & _)]; done.
Qed.

Lemma options_inv_run cfg acts m :
  run cfg acts boot = Some m -> options_inv cfg m.
Proof.
  intros Hrun.
  apply (run_invariant cfg
           (fun m => (history_inv cfg m /\ wiring_inv cfg m) /\ options_inv cfg m))
    with (acts := acts) (m := boot); [| |done].
  - intros m0 m1 [[Hh Hw] Ho] Hp Ht. split; [split|].
    + by eapply history_inv_transition.
    + by eapply wiring_inv_transition.
    + by eapply options_inv_transition.
  - split; [split; [apply history_inv_boot|]|].
    + split.
      * intros t g Hg. simpl in Hg. by rewrite lookup_nil in Hg.
      * intros t topic qg sub Hin. by apply elem_of_nil in Hin.
    + intros sub b Hb. simpl in Hb. by rewrite lookup_nil in Hb.
Qed.

Lemma processMessage_sends cfg ctx msg out fields steps evs v :
  run_goroutine steps (processMessage cfg ctx msg out fields) = Some (evs, Return v) ->
  (forall m' r, EvAck m' r ∈ evs -> m' = msg) /\
  ((sends evs = [] /\ acks evs = []) \/
   exists u msg0 uid,
     Unmarshaler cfg = Some u /\ u msg = inl msg0 /\
     sends evs = [EvSend out (SetContext msg0 (WithCancelOf ctx uid))]).
Proof.
  intros H. unfold processMessage in H. follow H.
  all: split;
    [intros m' r' Hin;
     repeat (apply elem_of_cons in Hin as [Hin|Hin]; [by simplify_eq|]);
     by apply elem_of_nil in Hin|].
  all: first [by left|right; eauto 10].
Qed.

(** X5: a message that the broker delivers on a subscription made by a
    [Subscribe(ctx, topic)] call is sent, if it is sent at all, once and on
    the channel which that call made; what is sent is the message the
    unmarshaler gave, with a context cancelable under [ctx]; and the
    callback acks only the broker message it was given, and nothing unless
    it has sent. *)
Theorem delivered_message_goes_to_its_call cfg acts m t gt ctx topic tp qg sub j gj msg v :
  run cfg acts boot = Some m ->
  pool m !! t = Some gt ->
  entry gt = EntryCall (CallSubscribe ctx topic) ->
  (t, EvSubscribe tp qg (inl sub)) ∈ trace m ->
  pool m !! j = Some gj ->
  entry gj = EntryCallback sub msg ->
  body gj = Return v ->
  exists out,
    head (events_of t (trace m)) = Some (EvMakeChan out) /\
    (forall m' r, EvAck m' r ∈ events_of j (trace m) -> m' = msg) /\
    ((sends (events_of j (trace m)) = [] /\ acks (events_of j (trace m)) = []) \/
     exists u msg0 uid,
       Unmarshaler cfg = Some u /\ u msg = inl msg0 /\
       sends (events_of j (trace m))
       = [EvSend out (SetContext msg0 (WithCancelOf ctx uid))]).
Proof.
  intros Hrun Hgt Hent Hin Hgj Hentj Hbody.
  destruct (wiring_inv_run _ _ _ Hrun) as [Hw He].
  destruct (He _ _ _ _ Hin)
    as (b & g & ctx' & watch & out & fields & Hb & Hg & Hsc & Hhead & Hcb).
  rewrite Hgt in Hg. simplify_eq. rewrite Hent in Hsc. simpl in Hsc. simplify_eq.
  pose proof (Hw _ _ Hgj) as Hwj. unfold wiring in Hwj. rewrite Hentj in Hwj.
  destruct Hwj as (_ & b' & steps & Hb' & Hr).
  rewrite Hb in Hb'. simplify_eq. rewrite Hcb, Hbody in Hr.
  exists out. split; [done|]. by eapply processMessage_sends.
Qed.

Lemma delivered_message_goes_to_its_call_witness :
  head (events_of 0 (trace (machine_after one_worker acked_acts)))
  = Some (EvMakeChan 0%nat) /\
  sends (events_of 2 (trace (machine_after one_worker acked_acts)))
  = [EvSend 0%nat {| UUID := "uuid"; Payload := "payload";
                     msg_ctx := WithCancelOf (Scope 0) 0 |}].
Proof.
  destruct (delivered_message_goes_to_its_call one_worker acked_acts
              (machine_after one_worker acked_acts) 0%nat
              {| entry := EntryCall (CallSubscribe (Scope 0) "topic");
                 body := Return (VChan (Some 0%nat) None) |}
              (Scope 0) "topic" "topic" None 0%nat 2%nat
              {| entry := EntryCallback 0%nat good_msg; body := Return VUnit |}
              good_msg VUnit)
    as (out & Hhead & _ & _).
  - vm_compute. reflexivity.
  - vm_compute. reflexivity.
  - reflexivity.
  - vm_compute. do 3 right. left.
  - vm_compute. reflexivity.
  - reflexivity.
  - reflexivity.
  - vm_compute in Hhead. simplify_eq. split; vm_compute; reflexivity.
Defined.

Lemma watcher_log sub ctx out fields steps evs v :
  run_goroutine steps (watcher sub ctx out fields) = Some (evs, Return v) ->
  exists b r,
    (b = BClosing \/ b = BCtxDone) /\
    evs = EvUnblocked ctx b :: EvSubClose sub r
          :: match r with
             | Some e => [EvLog LError "Cannot close subscriber" (Some e) fields]
             | None => []
             end
          ++ [EvCloseChan out; EvWgAdd WgOutputs (-1)].
Proof.
  intros H. unfold watcher in H.
  follow H; first [by eexists _, None; eauto|by eexists _, (Some _); eauto].
Qed.

(** X6: a watcher that has returned was started by a [Subscribe(ctx,
    topic)] call; it woke on the closing signal or on [ctx] being done,
    closed one of the subscriptions of that call, logged the error if that
    failed, and in either case went on to close the channel of that call
    and to call [Done] on the outputs wait group; a subscription whose
    close succeeded is closed at the broker. *)
Theorem watcher_closes_what_its_call_made cfg acts m j gj t v :
  run cfg acts boot = Some m ->
  pool m !! j = Some gj ->
  entry gj = EntryGo t ->
  body gj = Return v ->
  exists gt ctx topic out sub fields b r,
    pool m !! t = Some gt /\
    entry gt = EntryCall (CallSubscribe ctx topic) /\
    head (events_of t (trace m)) = Some (EvMakeChan out) /\
    sub ∈ subscribed (events_of t (trace m)) /\
    (b = BClosing \/ b = BCtxDone) /\
    events_of j (trace m)
    = EvUnblocked ctx b :: EvSubClose sub r
      :: match r with
         | Some e => [EvLog LError "Cannot close subscriber" (Some e) fields]
         | None => []
         end
      ++ [EvCloseChan out; EvWgAdd WgOutputs (-1)] /\
    (r = None -> ~ sub_is_open (store m) sub).
Proof.
  intros Hrun Hgj Hent Hbody.
  destruct (wiring_inv_run _ _ _ Hrun) as [Hw _].
  pose proof (Hw _ _ Hgj) as Hwj. unfold wiring in Hwj. rewrite Hent in Hwj.
  destruct Hwj as (_ & gt & ctx & topic & out & sub & fields & steps
                   & Hgt & Hentt & Hhead & Hsub & Hr).
  rewrite Hbody in Hr. apply watcher_log in Hr as (b & r & Hb & Hevs).
  exists gt, ctx, topic, out, sub, fields, b, r.
  repeat (split; [done|]).
  intros -> (b0 & Hb0 & Ho).
  destruct (closed_inv_run _ _ _ Hrun j sub) as (b' & Hb' & Ho').
  - apply elem_of_events_of. rewrite Hevs. right. left.
  - rewrite Hb0 in Hb'. simplify_eq. congruence.
Qed.

Lemma watcher_closes_what_its_call_made_witness :
  events_of 1 (trace (machine_after one_worker watcher_done_acts))
  = [EvUnblocked (Scope 0) BCtxDone; EvSubClose 0%nat None; EvCloseChan 0%nat;
     EvWgAdd WgOutputs (-1)] /\
  ~ sub_is_open (store (machine_after one_worker watcher_done_acts)) 0%nat.
Proof.
  destruct (watcher_closes_what_its_call_made one_worker watcher_done_acts
              (machine_after one_worker watcher_done_acts) 1%nat
              {| entry := EntryGo 0; body := Return VUnit |} 0%nat VUnit)
    as (gt & ctx & topic & out & sub & fields & b & r & _ & _ & _ & _ & _ & Hevs & Hcl).
  - vm_compute. reflexivity.
  - vm_compute. reflexivity.
  - reflexivity.
  - reflexivity.
  - split; [vm_compute; reflexivity|].
    vm_compute in Hevs. destruct r; simplify_eq. by apply Hcl.
Defined.

(** ** Callbacks once [closed] is set *)

Lemma events_of_app tid tr tr' :
  events_of tid (tr ++ tr') = events_of tid tr ++ events_of tid tr'.
Proof. unfold events_of. by rewrite filter_app, fmap_app. Qed.

Lemma closed_stays cfg m acts m' :
  closed (store m) = true ->
  run cfg acts m = Some m' ->
  closed (store m') = true /\
  exists new,
    trace m' = trace m ++ new /\
    forall t b, (t, EvReadClosed b) ∈ new -> b = true.
Proof.
  intros Hc Hrun.
  apply (run_invariant cfg
           (fun m1 => closed (store m1) = true /\
                      exists new, trace m1 = trace m ++ new /\
                                  forall t b, (t, EvReadClosed b) ∈ new -> b = true))
    with (acts := acts) (m := m); [| |done].
  - intros m0 m1 (Hc0 & new & Htr & Hnew) _ Ht.
    assert (Hsnoc : forall tid ev,
              (forall b, ev = EvReadClosed b -> b = true) ->
              exists new',
                trace m0 ++ [(tid, ev)] = trace m ++ new' /\
                forall t b, (t, EvReadClosed b) ∈ new' -> b = true).
    { intros tid ev Hev. exists (new ++ [(tid, ev)]).
      rewrite Htr, app_assoc. split; [done|].
      intros t b Hin. apply elem_of_app in Hin as [Hin|Hin]; [eauto|].
      apply list_elem_of_singleton in Hin. simplify_eq. by apply Hev. }
    destruct Ht as [c|n|sub msg b Hb Ho Hc'|tid g r msg Hg He
                   |tid g X o k r x s' ev Hg Hbody Ho|tid g child k Hg Hbody
                   |tid g topic qg cb opts k e Hg Hbody
                   |tid g topic qg cb opts k Hg Hbody];
      simpl.
    + split; [done|eauto].
    + split; [done|eauto].
    + split; [done|eauto].
    + split; [done|eauto].
    + apply exec_op_sound in Ho as [-> Hen]. split.
      * rewrite apply_event_closed. by destruct ev.
      * apply Hsnoc. intros b ->. simpl in Hen. congruence.
    + split; [done|by apply Hsnoc].
    + split; [done|by apply Hsnoc].
    + split; [done|by apply Hsnoc].
  - split; [done|]. exists []. split; [by rewrite app_nil_r|].
    intros t b Hin. by apply elem_of_nil in Hin.
Qed.

Lemma processMessage_reads_closed cfg ctx msg out fields steps evs v :
  run_goroutine steps (processMessage cfg ctx msg out fields) = Some (evs, Return v) ->
  evs = [EvReadClosed true] \/
  exists rest, evs = EvReadClosed false :: EvWgAdd WgProcessing 1 :: rest.
Proof.
  intros H. unfold processMessage in H. follow H; eauto.
Qed.

(** X7: once [closed] is set, a callback that the broker starts from then
    on and that has returned did nothing but read the flag: it did not
    touch the wait group, unmarshal, send or ack, and the message is left
    unacknowledged. *)
Theorem callback_after_closed_drops_message cfg acts m acts' m' j gj sub msg v :
  run cfg acts boot = Some m ->
  closed (store m) = true ->
  run cfg acts' m = Some m' ->
  (length (pool m) <= j)%nat ->
  pool m' !! j = Some gj ->
  entry gj = EntryCallback sub msg ->
  body gj = Return v ->
  events_of j (trace m') = [EvReadClosed true].
Proof.
  intros Hrun Hc Hrun' Hj Hgj Hent Hbody.
  destruct (closed_stays _ _ _ _ Hc Hrun') as (_ & new & Htr & Hnew).
  assert (Hboth : run cfg (acts ++ acts') boot = Some m')
    by (by rewrite run_app, Hrun).
  destruct (callback_history _ _ _ _ _ _ _ _ Hboth Hgj Hent Hbody)
    as (ctx & out & fields & steps & Hr).
  apply processMessage_reads_closed in Hr as [Hr|[rest Hr]]; [done|].
  assert (Hin : (j, EvReadClosed false) ∈ new).
  { assert (Hin : EvReadClosed false ∈ events_of j (trace m'))
      by (rewrite Hr; left).
    rewrite Htr, events_of_app in Hin.
    apply history_inv_run in Hrun as (Hbound & _).
    rewrite (events_of_fresh j (trace m) (length (pool m))) in Hin by done.
    by apply elem_of_events_of in Hin. }
  by apply Hnew in Hin.
Qed.

Lemma callback_after_closed_drops_message_witness :
  events_of 3 (trace (machine_after one_worker (closing_acts ++ late_delivery_acts)))
  = [EvReadClosed true].
Proof.
  apply (callback_after_closed_drops_message one_worker closing_acts
           (machine_after one_worker closing_acts) late_delivery_acts
           (machine_after one_worker (closing_acts ++ late_delivery_acts)) 3
           {| entry := EntryCallback 0%nat good_msg; body := Return VUnit |}
           0%nat good_msg VUnit).
  - vm_compute. reflexivity.
  - vm_compute. reflexivity.
  - vm_compute. reflexivity.
  - vm_compute. lia.
  - vm_compute. reflexivity.
  - reflexivity.
  - reflexivity.
Defined.

(** X8: with a defaulted configuration, as [NewStreamingSubscriber] passes
    on, every subscription at the broker, whichever call made it, is in
    the configured queue group if there is one and a plain subscription
    otherwise, and carries the user's subscription options, manual
    acknowledgement, the ack-wait timeout, and the durable name if one is
    configured. *)
Theorem subscriptions_as_configured c acts m (sub : SubId) b :
  run (setDefaults c) acts boot = Some m ->
  broker_subs (store m) !! sub = Some b ->
  sub_group b = (if string_is_empty (QueueGroup c) then None else Some (QueueGroup c)) /\
  (forall o, o ∈ StanSubscriptionOptions c -> o ∈ sub_opts b) /\
  SetManualAckMode ∈ sub_opts b /\
  AckWait (AckWaitTimeout (setDefaults c)) ∈ sub_opts b /\
  (DurableName c <> "" -> DurableNameOption (DurableName c) ∈ sub_opts b).
Proof.
  intros Hrun Hb.
  destruct (options_inv_run _ _ _ Hrun _ _ Hb) as [-> ->].
  split; [done|]. unfold setDefaults. simpl.
  destruct (string_is_empty (DurableName c)) eqn:Hd.
  - apply string_is_empty_true in Hd. repeat split.
    + intros o Ho. apply elem_of_app. by left.
    + apply elem_of_app. right. left.
    + apply elem_of_app. right. right. left.
    + intros Hne. by destruct Hne.
  - repeat split.
    + intros o Ho. apply elem_of_app. left. apply elem_of_app. by left.
    + apply elem_of_app. left. apply elem_of_app. right. left.
    + apply elem_of_app. left. apply elem_of_app. right. right. left.
    + intros _. apply elem_of_app. right. left.
Qed.

Lemma subscriptions_as_configured_witness :
  exists b,
    broker_subs (store (machine_after one_worker topic_acts)) !! 0%nat = Some b /\
    sub_group b = None /\
    SetManualAckMode ∈ sub_opts b /\
    DurableNameOption "durable" ∈ sub_opts b.
Proof.
  eexists. split; [vm_compute; reflexivity|].
  destruct (subscriptions_as_configured (sample_config 1 "") topic_acts
              (machine_after one_worker topic_acts) 0%nat
              {| sub_topic := "topic"; sub_group := None;
                 sub_cb := fun m => processMessage one_worker (Scope 0) m 0%nat
                                      [("subscriber_num", LInt 0); ("topic", LStr "topic")];
                 sub_opts := StanSubscriptionOptions one_worker;
                 sub_open := true |})
    as (Hg & _ & Hm & _ & Hd).
  - vm_compute. reflexivity.
  - vm_compute. reflexivity.
  - split; [exact Hg|]. split; [exact Hm|]. apply Hd. discriminate.
Defined.

(** ** The processing wait group *)

Ltac follows_busy_tac :=
  repeat (cbv beta;
    lazymatch goal with
    | |- follows _ _ (Return _) => simpl; eauto
    | |- follows _ _ (Do _ _) =>
      let Hop := fresh "Hop" in
      apply follows_Do; intros ? ? ? ? ? Hop; simpl in Hop; split_op Hop;
      (eexists; split; [reflexivity|])
    | |- follows _ _ (Go _ _) => eapply follows_Go; [reflexivity| |]
    | |- follows _ _ (StanSubscribe _ _ _ _ _) =>
      apply follows_StanSubscribe;
      [intros ?|intros [?|?]; (eexists; split; [reflexivity|])]
    | |- follows _ _ (if ?b then _ else _) => destruct b
    | |- follows _ _ (match ?t with _ => _ end) => destruct t
    | _ => fail
    end).

Lemma follows_busy_callback cfg ctx msg out fields :
  follows busy_protocol BkIdle (processMessage cfg ctx msg out fields).
Proof. unfold processMessage. follows_busy_tac. Qed.

Lemma follows_busy_watcher sub ctx out fields :
  follows busy_protocol BkOther (watcher sub ctx out fields).
Proof. unfold watcher. follows_busy_tac. Qed.

Lemma follows_busy_Subscribe_loop cfg ctx topic out todo i :
  follows busy_protocol BkOther (Subscribe_loop cfg ctx topic out todo i).
Proof.
  revert i. induction todo as [|todo IH]; intros i; [simpl; eauto|].
  rewrite Subscribe_loop_S. unfold subscribe.
  follows_busy_tac; auto using follows_busy_callback, follows_busy_watcher.
Qed.

Lemma follows_busy_methods cfg c :
  follows busy_protocol (of_method busy_protocol c) (method_body cfg c).
Proof.
  destruct c as [ctx topic|topic|]; cbn [method_body of_method busy_protocol].
  - unfold Subscribe. follows_busy_tac. apply follows_busy_Subscribe_loop.
  - unfold SubscribeInitialize, subscribe.
    follows_busy_tac; auto using follows_busy_callback.
  - unfold Close. follows_busy_tac.
Qed.

Lemma apply_event_processing ev s :
  processingMessagesWg (apply_event ev s)
  = processingMessagesWg s
    + match ev with EvWgAdd WgProcessing delta => delta | _ => 0 end.
Proof.
  destruct ev; simpl; try lia.
  - destruct wg; simpl; lia.
  - destruct ctx; simpl; lia.
  - destruct res; simpl; [lia|]. unfold close_sub.
    destruct (broker_subs s !! sub); simpl; lia.
  - destruct res; simpl; lia.
Qed.

Lemma busy_inv_spawn m kds e p kd0 :
  busy_inv m kds -> length (pool m) = length kds ->
  bk_busy kd0 = 0%nat ->
  (kd0 <> BkOther -> exists sub msg, e = EntryCallback sub msg) ->
  busy_inv (spawn e p m) (kds ++ [kd0]).
Proof.
  intros (B1 & B2 & B3 & B4) Hlen Hk0 He.
  split; [|split; [|split]]; simpl.
  - rewrite tally_app. simpl. rewrite Hk0. rewrite B1. lia.
  - intros i g kd Hg Hkd Hne.
    destruct (lookup_spawned _ _ _ _ _ _ _ Hlen Hg Hkd) as [[? ?]|[-> ->]]; eauto.
  - intros i kd Hkd. apply lookup_app_Some in Hkd as [Hkd|[Hge Hkd]]; [eauto|].
    apply list_lookup_singleton_Some in Hkd as [_ <-].
    rewrite (events_of_fresh i (trace m) (length kds)) by done.
    by rewrite Hk0.
  - intros t ev Hin. rewrite length_app. specialize (B4 _ _ Hin). simpl. lia.
Qed.

(** A step of goroutine [tid] from kind [kd] to [kd'], which moves the
    counter by as much as the kind. *)
Lemma busy_inv_relabel m kds tid g kd kd' p' s' ev :
  busy_inv m kds ->
  pool m !! tid = Some g -> kds !! tid = Some kd ->
  (processingMessagesWg s' + Z.of_nat (bk_busy kd)
   = processingMessagesWg (store m) + Z.of_nat (bk_busy kd')) ->
  ((if is_processing_add ev then 1 else 0) + bk_busy kd
   = (if is_processing_done ev then 1 else 0) + bk_busy kd')%nat ->
  (kd' <> BkOther -> kd <> BkOther) ->
  busy_inv {| store := s'; pool := update tid g p' (pool m);
              trace := trace m ++ [(tid, ev)]; panicked := None |}
           (<[tid := kd']> kds).
Proof.
  intros (B1 & B2 & B3 & B4) Hg Hkd Hc He Hk.
  split; [|split; [|split]]; simpl.
  - pose proof (tally_insert bk_busy _ _ _ kd' Hkd). lia.
  - intros i gi kdi Hgi Hkdi Hne. unfold update in Hgi.
    apply list_lookup_insert_Some in Hgi as [(-> & <- & _)|[Hne' Hgi]].
    + rewrite list_lookup_insert_eq in Hkdi by (by eapply lookup_lt_Some).
      simplify_eq. simpl. eauto.
    + rewrite list_lookup_insert_ne in Hkdi by done. eauto.
  - intros i kdi Hkdi. rewrite events_of_snoc.
    apply list_lookup_insert_Some in Hkdi as [(-> & <- & _)|[Hne Hkdi]].
    + rewrite decide_True by done. rewrite !count_snoc.
      specialize (B3 _ _ Hkd). lia.
    + rewrite decide_False by done. eauto.
  - intros t e Hin. rewrite length_insert.
    apply elem_of_app in Hin as [Hin|Hin]; [eauto|].
    apply list_elem_of_singleton in Hin. simplify_eq. by eapply lookup_lt_Some.
Qed.

Lemma busy_inv_step cfg m kds m' kds' :
  busy_inv m kds -> kinded busy_protocol m kds -> panicked m = None ->
  kinded_step busy_protocol cfg m kds m' kds' ->
  kinded busy_protocol m' kds' ->
  busy_inv m' kds'.
Proof.
  intros Hinv Hk _ Hs _.
  pose proof (kinded_length _ _ _ Hk) as Hlen.
  destruct Hs as [c|n|sub msg b Hb' Ho Hc'|msg
                 |tid g kd kd' ev p' Hg Hkd Hen Hon
                 |tid g kd kc kk child k Hg Hkd Hbody Hon
                 |tid g kd kd' topic qg e p' Hg Hkd Hon
                 |tid g kd kd' topic qg cb opts p' Hg Hkd Hon].
  - apply busy_inv_spawn; try done.
  - done.
  - apply busy_inv_spawn; try done. eauto.
  - done.
  - simpl in Hon.
    destruct kd; destruct ev; simpl in Hon; try discriminate; split_op Hon;
      (eapply busy_inv_relabel; [done|done|done| | |done]);
      rewrite ?apply_event_processing; simpl; lia.
  - simpl in Hon. destruct kd; simplify_eq.
    destruct Hinv as (B1 & B2 & B3 & B4).
    split; [|split; [|split]]; simpl.
    + rewrite tally_app. simpl. rewrite (list_insert_id _ _ _ Hkd). lia.
    + intros i gi kdi Hgi Hkdi Hne.
      destruct (lookup_stepped _ _ _ _ _ _ [_] [_] _ _ _ Hlen eq_refl Hg Hgi Hkdi)
        as [(-> & -> & ->)|[(? & ? & ?)|(? & _ & Hx)]]; [done|eauto|].
      apply list_lookup_singleton_Some in Hx as [_ <-]. done.
    + intros i kdi Hkdi. rewrite events_of_snoc.
      apply lookup_app_Some in Hkdi as [Hkdi|[Hge Hkdi]].
      * apply list_lookup_insert_Some in Hkdi as [(-> & <- & _)|[Hne Hkdi]].
        -- rewrite decide_True by done. rewrite !count_snoc. simpl.
           specialize (B3 _ _ Hkd). simpl in B3. lia.
        -- rewrite decide_False by done. eauto.
      * rewrite length_insert in Hge.
        apply list_lookup_singleton_Some in Hkdi as [_ <-].
        rewrite decide_False by (apply lookup_lt_Some in Hkd; lia).
        by rewrite (events_of_fresh i (trace m) (length kds)).
    + intros t e Hin. rewrite length_app, length_insert. simpl.
      apply elem_of_app in Hin as [Hin|Hin]; [specialize (B4 _ _ Hin); lia|].
      apply list_elem_of_singleton in Hin. simplify_eq.
      apply lookup_lt_Some in Hkd. lia.
  - simpl in Hon. destruct kd; simplify_eq.
    eapply busy_inv_relabel; try done; simpl; lia.
  - simpl in Hon. destruct kd; simplify_eq.
    eapply busy_inv_relabel; try done; simpl; lia.
Qed.

Lemma busy_inv_run cfg acts m :
  run cfg acts boot = Some m ->
  exists kds, kinded busy_protocol m kds /\ busy_inv m kds.
Proof.
  apply (protocol_invariant busy_protocol cfg (follows_busy_methods cfg) busy_inv).
  - split; [done|]. split; [|split].
    + intros i g kd Hg. simpl in Hg. by rewrite lookup_nil in Hg.
    + intros i kd Hkd. by rewrite lookup_nil in Hkd.
    + intros t ev Hin. by apply elem_of_nil in Hin.
  - intros. by eapply busy_inv_step.
Qed.

Lemma tally_filter_seq {K : Type} (f : K -> nat) (P : nat -> bool) l off :
  (forall i k, l !! i = Some k -> f k = if P (off + i)%nat then 1%nat else 0%nat) ->
  tally f l = length (filter (fun t => P t = true) (seq off (length l))).
Proof.
  revert off. induction l as [|x l IH]; intros off H; [done|].
  pose proof (H 0%nat x eq_refl) as Hx. rewrite Nat.add_0_r in Hx.
  assert (IH' : tally f l
                = length (filter (fun t => P t = true) (seq (S off) (length l)))).
  { apply IH. intros i k Hi. rewrite (H (S i) k Hi). by rewrite Nat.add_succ_r. }
  cbn [tally length seq]. rewrite filter_cons, Hx, IH'.
  destruct (P off) eqn:E.
  - by rewrite decide_True.
  - by rewrite decide_False.
Qed.

(** X9: [processingMessagesWg] counts the callbacks that are between
    their [Add(1)] and their deferred [Done()]: it is never negative, it is
    zero when no callback is running, and the goroutines it counts are
    callbacks that have not returned.  Nothing ever waits on it: every
    wait in every run is on the outputs wait group, so [Close] does not
    wait for messages that are being processed. *)
Theorem processing_wait_group_counts_callbacks cfg acts m :
  run cfg acts boot = Some m ->
  processingMessagesWg (store m) = Z.of_nat (callbacks_in_flight m) /\
  (forall t g, pool m !! t = Some g ->
     in_flight (events_of t (trace m)) = true ->
     (exists sub msg, entry g = EntryCallback sub msg) /\
     forall v, body g <> Return v) /\
  (forall t wg timeout timedOut,
     (t, EvWaitGroupTimeout wg timeout timedOut) ∈ trace m -> wg = WgOutputs).
Proof.
  intros Hrun.
  destruct (busy_inv_run _ _ _ Hrun) as (kds & Hk & B1 & B2 & B3 & B4).
  pose proof (kinded_length _ _ _ Hk) as Hlen.
  assert (Hbusy : forall i kd, kds !! i = Some kd ->
            bk_busy kd = if in_flight (events_of i (trace m)) then 1%nat else 0%nat).
  { intros i kd Hkd. specialize (B3 _ _ Hkd). unfold in_flight.
    destruct (Nat.ltb_spec (count is_processing_done (events_of i (trace m)))
                (count is_processing_add (events_of i (trace m))));
      destruct kd; simpl in *; lia. }
  split; [|split].
  - rewrite B1. f_equal. unfold callbacks_in_flight. rewrite Hlen.
    apply tally_filter_seq. intros i kd Hkd. simpl. eauto.
  - intros t g Hg Hfl.
    destruct (kinded_lookup _ _ _ _ _ Hk Hg) as (kd & Hkd & Hfol).
    pose proof (Hbusy _ _ Hkd) as Hb. rewrite Hfl in Hb.
    destruct kd; try discriminate. split.
    + by eapply B2.
    + intros v Hbody. rewrite Hbody in Hfol. simpl in Hfol.
      by destruct Hfol.
  - intros t wg timeout timedOut Hin.
    destruct (wg_inv_run _ _ _ Hrun) as (kds' & _ & _ & _ & Hwait).
    by destruct (Hwait _ _ _ _ Hin).
Qed.

Lemma processing_wait_group_counts_callbacks_witness :
  processingMessagesWg (store (machine_after one_worker in_flight_acts)) = 1.
Proof.
  destruct (processing_wait_group_counts_callbacks one_worker in_flight_acts
              (machine_after one_worker in_flight_acts)) as (H & _).
  - vm_compute. reflexivity.
  - rewrite H. vm_compute. reflexivity.
Defined.

(** ** The mutex and the stages of [Close] *)

Ltac follows_gate_tac :=
  repeat (cbv beta;
    lazymatch goal with
    | |- follows _ _ (Return _) => simpl; eauto
    | |- follows _ _ (Do _ _) =>
      let Hop := fresh "Hop" in
      apply follows_Do; intros ? ? ? ? ? Hop; simpl in Hop; split_op Hop;
      try match goal with |- context [EvReadClosed ?b] => destruct b end;
      (eexists; split; [reflexivity|])
    | |- follows _ _ (Go _ _) => eapply follows_Go; [reflexivity| |]
    | |- follows _ _ (StanSubscribe _ _ _ _ _) =>
      apply follows_StanSubscribe;
      [intros ?|intros [?|?]; (eexists; split; [reflexivity|])]
    | |- follows _ _ (if ?b then _ else _) => destruct b
    | |- follows _ _ (match ?t with _ => _ end) => destruct t
    | _ => fail
    end).

Lemma follows_gate_callback cfg ctx msg out fields :
  follows gate_protocol GkFree (processMessage cfg ctx msg out fields).
Proof. unfold processMessage. follows_gate_tac. Qed.

Lemma follows_gate_watcher sub ctx out fields :
  follows gate_protocol GkFree (watcher sub ctx out fields).
Proof. unfold watcher. follows_gate_tac. Qed.

Lemma follows_gate_Subscribe_loop cfg ctx topic out todo i :
  follows gate_protocol GkFree (Subscribe_loop cfg ctx topic out todo i).
Proof.
  revert i. induction todo as [|todo IH]; intros i; [simpl; eauto|].
  rewrite Subscribe_loop_S. unfold subscribe.
  follows_gate_tac; auto using follows_gate_callback, follows_gate_watcher.
Qed.

Lemma follows_gate_methods cfg c :
  follows gate_protocol (of_method gate_protocol c) (method_body cfg c).
Proof.
  destruct c as [ctx topic|topic|]; cbn [method_body of_method gate_protocol].
  - unfold Subscribe. follows_gate_tac. apply follows_gate_Subscribe_loop.
  - unfold SubscribeInitialize, subscribe.
    follows_gate_tac; auto using follows_gate_callback.
  - unfold Close. follows_gate_tac.
Qed.

Lemma tally_gate_holders kds :
  (tally gk_unset kds + tally gk_set kds + tally gk_signalled kds
   <= tally gk_holds kds)%nat.
Proof.
  induction kds as [|kd kds IH]; simpl; [lia|]. destruct kd; simpl; lia.
Qed.

Lemma gate_inv_spawn m kds e p k0 :
  gate_inv m kds -> k0 = GkFree \/ k0 = GkClose ->
  gate_inv (spawn e p m) (kds ++ [k0]).
Proof.
  intros (Ha & Hb & Hc & Hd & He) Hk0.
  unfold gate_inv, conn_closes in *. simpl. rewrite !tally_app. simpl.
  destruct Hk0 as [-> | ->]; simpl; rewrite !Nat.add_0_r; auto.
Qed.

Lemma gate_inv_neutral m kds tid g p' s' ev :
  gate_inv m kds ->
  kds !! tid = Some GkFree ->
  subsLock s' = subsLock (store m) -> closed s' = closed (store m) ->
  closing s' = closing (store m) ->
  is_conn_close ev = false ->
  gate_inv {| store := s'; pool := update tid g p' (pool m);
              trace := trace m ++ [(tid, ev)]; panicked := None |}
           (<[tid := GkFree]> kds).
Proof.
  intros (Ha & Hb & Hc & Hd & He) Hkd Hl Hcl Hcg Hev.
  unfold gate_inv. rewrite conn_closes_snoc, Hev, Nat.add_0_r. simpl.
  by rewrite Hl, Hcl, Hcg, (list_insert_id _ _ _ Hkd).
Qed.

Lemma gate_inv_step cfg m kds m' kds' :
  gate_inv m kds -> kinded gate_protocol m kds -> panicked m = None ->
  kinded_step gate_protocol cfg m kds m' kds' ->
  kinded gate_protocol m' kds' ->
  gate_inv m' kds'.
Proof.
  intros Hinv Hk _ Hs _.
  destruct Hs as [c|n|sub msg b Hb' Ho Hc'|msg
                 |tid g kd kd' ev p' Hg Hkd Hen Hon
                 |tid g kd kc kk child k Hg Hkd Hbody Hon
                 |tid g kd kd' topic qg e p' Hg Hkd Hon
                 |tid g kd kd' topic qg cb opts p' Hg Hkd Hon].
  - apply gate_inv_spawn; [done|]. destruct c; auto.
  - done.
  - apply gate_inv_spawn; auto.
  - done.
  - destruct Hinv as (Ha & Hb & Hc & Hd & He).
    pose proof (tally_insert gk_holds _ _ _ kd' Hkd) as T1.
    pose proof (tally_insert gk_set _ _ _ kd' Hkd) as T2.
    pose proof (tally_insert gk_unset _ _ _ kd' Hkd) as T3.
    pose proof (tally_insert gk_signalled _ _ _ kd' Hkd) as T4.
    pose proof (tally_lookup gk_holds _ _ _ Hkd) as U0.
    pose proof (tally_lookup gk_unset _ _ _ Hkd) as U2.
    pose proof (tally_lookup gk_set _ _ _ Hkd) as U3.
    pose proof (tally_lookup gk_signalled _ _ _ Hkd) as U4.
    pose proof (tally_gate_holders kds) as L1.
    unfold gate_inv. rewrite conn_closes_snoc. simpl store. simpl pool.
    rewrite apply_event_subsLock, apply_event_closed, apply_event_closing.
    clear Hk Hg.
    simpl in Hon.
    destruct (subsLock (store m)) eqn:Hlock;
      destruct (closed (store m)) eqn:Hclosed;
      destruct (closing (store m)) eqn:Hclosing;
      first [specialize (Hc eq_refl)|clear Hc];
      first [specialize (Hd eq_refl)|clear Hd];
      first [specialize (He eq_refl); try discriminate He|clear He].
    all: destruct kd; try discriminate; destruct ev; simpl in Hon, Hen;
      try discriminate; rewrite ?Hlock, ?Hclosed, ?Hclosing in Hen; simplify_eq;
      simpl in *|-; simpl;
      (split; [|split; [|split; [|split]]]);
      try lia; try done; try (intros; lia); try (intros; discriminate).
  - simpl in Hon. destruct kd; simplify_eq.
    apply (gate_inv_spawn
             {| store := store m; pool := update tid g k (pool m);
                trace := trace m ++ [(tid, EvGo)]; panicked := None |}
             (<[tid := GkFree]> kds) (EntryGo tid) child GkFree); [|by left].
    by apply gate_inv_neutral.
  - simpl in Hon. destruct kd; simplify_eq. by apply gate_inv_neutral.
  - simpl in Hon. destruct kd; simplify_eq. by apply gate_inv_neutral.
Qed.

Lemma snoc_split {A : Type} (evs pre post : list A) ev x :
  evs ++ [ev] = pre ++ x :: post ->
  (post = [] /\ evs = pre /\ ev = x) \/
  exists post', post = post' ++ [ev] /\ evs = pre ++ x :: post'.
Proof.
  destruct post as [|y post _] using rev_ind; intros H.
  - left. apply app_inj_tail in H as [-> ->]. done.
  - right. exists post.
    replace (pre ++ x :: post ++ [y]) with ((pre ++ x :: post) ++ [y]) in H
      by (by rewrite <- app_assoc).
    apply app_inj_tail in H as [-> ->]. done.
Qed.

Lemma registered_app evs evs' :
  registered (evs ++ evs') = registered evs ++ registered evs'.
Proof.
  induction evs as [|ev evs IH]; [done|]. destruct ev; simpl; by rewrite ?IH.
Qed.

Lemma apply_event_subs_registered ev s :
  subs (apply_event ev s) = subs s ++ registered [ev].
Proof.
  destruct ev; simpl; rewrite ?app_nil_r; try done.
  - by destruct wg.
  - by destruct ctx.
  - destruct res; [done|]. unfold close_sub. by destruct (broker_subs s !! sub).
  - by destruct res.
Qed.

Lemma apply_event_conn_closed ev s :
  conn_open (apply_event ev s) = false ->
  conn_open s = false \/ ev = EvConnClose None.
Proof.
  destruct ev; simpl; auto.
  - destruct wg; auto.
  - destruct ctx; auto.
  - destruct res; auto. unfold close_sub. destruct (broker_subs s !! sub); auto.
  - destruct res; auto.
Qed.

Lemma gate_log_inv_spawn m kds e p k0 :
  gate_log_inv m kds -> gk_holds k0 = 0%nat ->
  gate_log_inv (spawn e p m) (kds ++ [k0]).
Proof.
  intros (L1 & L2 & L3 & L4 & L5) Hk0.
  split; [|split; [|split; [|split]]]; simpl; try done.
  - intros i kd Hkd. apply lookup_app_Some in Hkd as [Hkd|[Hge Hkd]]; [eauto|].
    apply list_lookup_singleton_Some in Hkd as [_ <-].
    rewrite (events_of_fresh i (trace m) (length kds)) by done.
    by rewrite Hk0.
  - intros t ev Hin. rewrite length_app. specialize (L2 _ _ Hin). simpl. lia.
Qed.

Lemma gate_log_inv_relabel m kds tid g kd kd' p' s' ev :
  gate_log_inv m kds ->
  kds !! tid = Some kd ->
  ((if is_lock ev then 1 else 0) + gk_holds kd
   = (if is_unlock ev then 1 else 0) + gk_holds kd')%nat ->
  (forall sub, ev = EvAppendSub sub -> gk_holds kd = 1%nat) ->
  (conn_open s' = false -> conn_open (store m) = false \/ ev = EvConnClose None) ->
  subs s' = subs (store m) ++ registered [ev] ->
  gate_log_inv {| store := s'; pool := update tid g p' (pool m);
                  trace := trace m ++ [(tid, ev)]; panicked := None |}
               (<[tid := kd']> kds).
Proof.
  intros (L1 & L2 & L3 & L4 & L5) Hkd Hev Happ Hconn Hsubs.
  split; [|split; [|split; [|split]]]; simpl.
  - intros i kdi Hkdi. rewrite events_of_snoc.
    apply list_lookup_insert_Some in Hkdi as [(-> & <- & _)|[Hne Hkdi]].
    + rewrite decide_True by done. rewrite !count_snoc.
      specialize (L1 _ _ Hkd). lia.
    + rewrite decide_False by done. eauto.
  - intros t e Hin. rewrite length_insert.
    apply elem_of_app in Hin as [Hin|Hin]; [eauto|].
    apply list_elem_of_singleton in Hin. simplify_eq. by eapply lookup_lt_Some.
  - intros t pre sub post. rewrite events_of_snoc.
    destruct (decide (tid = t)) as [->|Hne]; [|eauto].
    intros Hsplit. apply snoc_split in Hsplit as [(-> & Hpre & ->)|(post' & -> & Hevs)].
    + subst pre. specialize (L1 _ _ Hkd). rewrite (Happ _ eq_refl) in L1.
      unfold holds_lock. apply Nat.ltb_lt. lia.
    + eauto.
  - intros Hc. destruct (Hconn Hc) as [Hc'| ->].
    + destruct (L4 Hc') as [t Hin]. exists t. apply elem_of_app. by left.
    + exists tid. apply elem_of_app. right. by apply list_elem_of_singleton.
  - rewrite Hsubs, L5, fmap_app, registered_app. done.
Qed.

Lemma gate_log_inv_step cfg m kds m' kds' :
  gate_log_inv m kds -> kinded gate_protocol m kds -> panicked m = None ->
  kinded_step gate_protocol cfg m kds m' kds' ->
  kinded gate_protocol m' kds' ->
  gate_log_inv m' kds'.
Proof.
  intros Hinv Hk _ Hs _.
  destruct Hs as [c|n|sub msg b Hb' Ho Hc'|msg
                 |tid g kd kd' ev p' Hg Hkd Hen Hon
                 |tid g kd kc kk child k Hg Hkd Hbody Hon
                 |tid g kd kd' topic qg e p' Hg Hkd Hon
                 |tid g kd kd' topic qg cb opts p' Hg Hkd Hon].
  - apply gate_log_inv_spawn; [done|]. by destruct c.
  - done.
  - by apply gate_log_inv_spawn.
  - done.
  - simpl in Hon. eapply gate_log_inv_relabel; try done.
    + destruct kd; destruct ev; simpl in Hon; try discriminate; split_op Hon;
        simpl; lia.
    + intros sub ->. by destruct kd.
    + apply apply_event_conn_closed.
    + apply apply_event_subs_registered.
  - simpl in Hon. destruct kd; simplify_eq.
    apply (gate_log_inv_spawn
             {| store := store m; pool := update tid g k (pool m);
                trace := trace m ++ [(tid, EvGo)]; panicked := None |}
             (<[tid := GkFree]> kds) (EntryGo tid) child GkFree); [|done].
    eapply gate_log_inv_relabel; try done; simpl; auto. by rewrite app_nil_r.
  - simpl in Hon. destruct kd; simplify_eq.
    eapply gate_log_inv_relabel; try done; simpl; auto. by rewrite app_nil_r.
  - simpl in Hon. destruct kd; simplify_eq.
    eapply gate_log_inv_relabel; try done; simpl; auto. by rewrite app_nil_r.
Qed.

Lemma gate_inv_run cfg acts m :
  run cfg acts boot = Some m ->
  exists kds, kinded gate_protocol m kds /\ gate_inv m kds /\ gate_log_inv m kds.
Proof.
  apply (protocol_invariant gate_protocol cfg (follows_gate_methods cfg)
           (fun m kds => gate_inv m kds /\ gate_log_inv m kds)).
  - split.
    + unfold gate_inv, conn_closes. simpl. repeat split; done.
    + split; [|split; [|split; [|split]]]; simpl.
      * intros i kd Hkd. by rewrite lookup_nil in Hkd.
      * intros t ev Hin. by apply elem_of_nil in Hin.
      * intros t pre sub post H. by destruct pre.
      * done.
      * done.
  - intros m0 kds0 m1 kds1 [Hi Hl] Hk Hp Hs Hk'. split.
    + by eapply gate_inv_step.
    + by eapply gate_log_inv_step.
Qed.

(** X10: [subsLock] is locked exactly when one goroutine is between its
    [Lock] and its [Unlock], and no goroutine is when it is free; whoever
    appends to [s.subs] holds it at that moment; and [s.subs] is, in
    order, what was appended. *)
Theorem subs_lock_is_exclusive cfg acts m :
  run cfg acts boot = Some m ->
  holders m = (if subsLock (store m) then 1 else 0)%nat /\
  (forall t pre sub post,
     events_of t (trace m) = pre ++ EvAppendSub sub :: post ->
     holds_lock pre = true) /\
  subs (store m) = registered (snd <$> trace m).
Proof.
  intros Hrun.
  destruct (gate_inv_run _ _ _ Hrun)
    as (kds & Hk & (Ha & _) & L1 & L2 & L3 & L4 & L5).
  pose proof (kinded_length _ _ _ Hk) as Hlen.
  split; [|split; [done|done]].
  rewrite <- Ha. unfold holders. rewrite Hlen. symmetry.
  apply tally_filter_seq. intros i kd Hkd. simpl.
  specialize (L1 _ _ Hkd). unfold holds_lock.
  destruct (Nat.ltb_spec (count is_unlock (events_of i (trace m)))
              (count is_lock (events_of i (trace m))));
    destruct kd; simpl in *; lia.
Qed.

Lemma subs_lock_is_exclusive_witness :
  holders (machine_after one_worker locked_acts) = 1%nat /\
  subs (store (machine_after one_worker locked_acts)) = [0%nat].
Proof.
  destruct (subs_lock_is_exclusive one_worker locked_acts
              (machine_after one_worker locked_acts)) as (H1 & _ & H2).
  - vm_compute. reflexivity.
  - rewrite H1, H2. vm_compute. split; reflexivity.
Defined.

Lemma closing_stays cfg m acts m' :
  closing (store m) = true -> run cfg acts m = Some m' ->
  closing (store m') = true.
Proof.
  intros Hc Hrun.
  apply (run_invariant cfg (fun m1 => closing (store m1) = true))
    with (acts := acts) (m := m); [|done|done].
  intros m0 m1 Hc0 _ Ht.
  destruct Ht as [c|n|sub msg b Hb Ho Hc'|tid g r msg Hg He
                 |tid g X o k r x s' ev Hg Hbody Ho|tid g child k Hg Hbody
                 |tid g topic qg cb opts k e Hg Hbody
                 |tid g topic qg cb opts k Hg Hbody];
    simpl; try done.
  apply exec_op_sound in Ho as [-> _]. rewrite apply_event_closing.
  by rewrite Hc0.
Qed.

(** X11: [closed] is set before [s.closing] is closed, so whoever has seen
    the closing signal finds [closed] set; and neither of the two is ever
    undone, whatever runs afterwards. *)
Theorem shutdown_flags_only_rise cfg acts m acts' m' :
  run cfg acts boot = Some m ->
  run cfg acts' m = Some m' ->
  (closing (store m) = true -> closed (store m) = true) /\
  (closed (store m) = true -> closed (store m') = true) /\
  (closing (store m) = true -> closing (store m') = true).
Proof.
  intros Hrun Hrun'.
  destruct (gate_inv_run _ _ _ Hrun) as (kds & _ & (_ & _ & _ & _ & He) & _).
  split; [done|]. split.
  - intros Hc. by destruct (closed_stays _ _ _ _ Hc Hrun').
  - intros Hc. by eapply closing_stays.
Qed.

Lemma shutdown_flags_only_rise_witness :
  closed (store (machine_after one_worker close_acts)) = true /\
  closed (store (machine_after one_worker close_twice_acts)) = true.
Proof.
  destruct (shutdown_flags_only_rise one_worker close_acts
              (machine_after one_worker close_acts)
              (Call CallClose :: replicate 3 (Step 1 Proceed))
              (machine_after one_worker close_twice_acts)) as (H1 & H2 & _).
  - vm_compute. reflexivity.
  - vm_compute. reflexivity.
  - assert (Hc : closed (store (machine_after one_worker close_acts)) = true).
    { apply H1. vm_compute. reflexivity. }
    split; [exact Hc|exact (H2 Hc)].
Defined.

(** X12: when [conn.Close] has failed, nothing calls it again: [closed] is
    already set, the [Close] call that tried returns the error wrapped with
    "cannot close conn", and every other [Close] call returns nil having
    only taken the mutex, read the flag and released the mutex, so that the
    failure is reported once and to one caller. *)
Theorem failed_conn_close_is_final cfg acts m t e :
  run cfg acts boot = Some m ->
  (t, EvConnClose (Some e)) ∈ trace m ->
  closed (store m) = true /\
  conn_closes m = 1%nat /\
  (forall t' g v,
     pool m !! t' = Some g ->
     entry g = EntryCall CallClose ->
     body g = Return v ->
     (t' = t /\ v = VError (Some ("cannot close conn: " +:+ e))) \/
     (t' <> t /\ v = VError None /\
      events_of t' (trace m) = [EvLock; EvReadClosed true; EvUnlock])).
Proof.
  intros Hrun Hin.
  destruct (gate_inv_run _ _ _ Hrun)
    as (kds & Hk & (_ & Hb & _) & _).
  assert (Hpos : (1 <= conn_closes m)%nat).
  { apply (count_pos _ _ (EvConnClose (Some e))); [|done].
    apply list_elem_of_fmap. by exists (t, EvConnClose (Some e)). }
  assert (Hone : conn_closes m = 1%nat /\ closed (store m) = true)
    by (destruct (closed (store m)); split; (lia || done)).
  destruct Hone as [Hone Hclosed].
  assert (Honly : forall t0 res, (t0, EvConnClose res) ∈ trace m ->
            t0 = t /\ res = Some e).
  { intros t0 res Hin0.
    assert (Heq : (t0, EvConnClose res) = (t, EvConnClose (Some e))).
    { apply (count_at_most_once is_conn_close (trace m)); try done.
      fold (conn_closes m). lia. }
    by simplify_eq. }
  split; [done|]. split; [done|].
  intros t' g v Hg Hent Hbody.
  destruct (call_history _ _ _ _ _ _ _ Hrun Hg Hent Hbody) as (steps & Hr).
  simpl in Hr. apply Close_runs in Hr as [[Hevs ->]|(timedOut & res & Hevs & ->)].
  - right. split; [|done]. intros ->.
    assert (Hin' : EvConnClose (Some e) ∈ events_of t (trace m))
      by (by apply elem_of_events_of).
    rewrite Hevs in Hin'.
    repeat (apply elem_of_cons in Hin' as [?|Hin']; [done|]).
    by apply elem_of_nil in Hin'.
  - left. destruct (Honly t' res) as [-> ->]; [|done].
    apply elem_of_events_of. rewrite Hevs. do 6 right. left.
Qed.

Lemma failed_conn_close_is_final_witness :
  conn_closes (machine_after one_worker failed_close_acts) = 1%nat /\
  events_of 1 (trace (machine_after one_worker failed_close_acts))
  = [EvLock; EvReadClosed true; EvUnlock].
Proof.
  destruct (failed_conn_close_is_final one_worker failed_close_acts
              (machine_after one_worker failed_close_acts) 0%nat "broken pipe")
    as (_ & Hone & H).
  - vm_compute. reflexivity.
  - vm_compute. do 6 right. left.
  - split; [exact Hone|].
    destruct (H 1%nat {| entry := EntryCall CallClose; body := Return (VError None) |}
                (VError None)) as [[Heq _]|(_ & _ & Hevs)].
    + vm_compute. reflexivity.
    + reflexivity.
    + reflexivity.
    + discriminate Heq.
    + exact Hevs.
Defined.

(** ** The mutex, the closing channel and the wait groups in use *)

Lemma exec_CloseChan_open r c s :
  chans s !! c = Some false ->
  exec_op (CloseChan c) r s
  = Done tt (set_chans (<[c := true]> (chans s)) s) (EvCloseChan c).
Proof. intros H. simpl. by rewrite H. Qed.

Lemma replicate_last_open (c : nat) :
  chans (set_chans (replicate (S c) false) initial_state) !! c = Some false.
Proof. cbn [chans set_chans]. apply lookup_replicate_2. lia. Qed.



(** ** Watchers at their select *)

Lemma run_goroutine_nil steps p q :
  run_goroutine steps p = Some ([], q) -> steps = [] /\ q = p.
Proof.
  destruct steps as [|[r s] steps]; simpl; intros H; [by simplify_eq|].
  destruct (exec r s p) as [| |s1 p1 sp1 ev1]; try done.
  by destruct (run_goroutine steps p1) as [[evs1 q1]|].
Qed.

(** X14: a watcher that has not woken yet waits on the scope [ctx] of the
    [Subscribe] call that started it and on the closing signal: it cannot
    take a step as long as neither [s.closing] is closed nor [ctx] is
    done, and it can as soon as one of them is, whatever else goes on. *)
Theorem watcher_waits_for_a_signal cfg acts m j gj t :
  run cfg acts boot = Some m ->
  pool m !! j = Some gj ->
  entry gj = EntryGo t ->
  events_of j (trace m) = [] ->
  exists gt ctx topic,
    pool m !! t = Some gt /\
    entry gt = EntryCall (CallSubscribe ctx topic) /\
    (closing (store m) = false -> ctx_done (store m) ctx = false ->
     forall r, exec r (store m) (body gj) = TBlocked) /\
    (closing (store m) = true ->
     exists p', exec (Pick BClosing) (store m) (body gj)
                = TStepped (store m) p' [] (EvUnblocked ctx BClosing)) /\
    (ctx_done (store m) ctx = true ->
     exists p', exec (Pick BCtxDone) (store m) (body gj)
                = TStepped (store m) p' [] (EvUnblocked ctx BCtxDone)).
Proof.
  intros Hrun Hgj Hent Hnil.
  destruct (wiring_inv_run _ _ _ Hrun) as [Hw _].
  pose proof (Hw _ _ Hgj) as Hwj. unfold wiring in Hwj. rewrite Hent in Hwj.
  destruct Hwj as (_ & gt & ctx & topic & out & sub & fields & steps
                   & Hgt & Hentt & _ & _ & Hr).
  rewrite Hnil in Hr. apply run_goroutine_nil in Hr as [_ ->].
  exists gt, ctx, topic. split; [done|]. split; [done|].
  unfold watcher. simpl. split; [|split].
  - intros Hc Hd r. rewrite Hc, Hd. destruct r as [| |[]]; done.
  - intros ->. eauto.
  - intros ->. eauto.
Qed.

Lemma watcher_waits_for_a_signal_witness :
  exec (Pick BClosing) (store (machine_after one_worker topic_acts))
    (watcher 0%nat (Scope 0) 0%nat
       [("subscriber_num", LInt 0); ("topic", LStr "topic")])
  = TBlocked.
Proof.
  destruct (watcher_waits_for_a_signal one_worker topic_acts
              (machine_after one_worker topic_acts) 1%nat
              {| entry := EntryGo 0;
                 body := watcher 0%nat (Scope 0) 0%nat
                           [("subscriber_num", LInt 0); ("topic", LStr "topic")] |}
              0%nat)
    as (gt & ctx & topic & Hgt & Hent & Hblocked & _).
  - vm_compute. reflexivity.
  - vm_compute. reflexivity.
  - reflexivity.
  - vm_compute. reflexivity.
  - vm_compute in Hgt. simplify_eq. simpl in Hent. simplify_eq.
    apply Hblocked; vm_compute; reflexivity.
Defined.

(** ** One worker per call *)

Ltac follows_solo_tac :=
  repeat (cbv beta;
    lazymatch goal with
    | |- follows _ _ (Return _) => simpl; eauto 10
    | |- follows _ _ (Do _ _) =>
      let Hop := fresh "Hop" in
      apply follows_Do; intros ? ? ? ? ? Hop; simpl in Hop; split_op Hop;
      (eexists; split;
       [cbn [on_event solo_protocol solo_on_event];
        rewrite ?bool_decide_eq_true_2 by done; reflexivity|])
    | |- follows _ _ (Go _ _) => eapply follows_Go; [reflexivity| |]
    | |- follows _ _ (StanSubscribe _ _ _ _ _) =>
      apply follows_StanSubscribe;
      [intros ?|intros [?|?]; (eexists; split; [reflexivity|])]
    | |- follows _ _ (if ?b then _ else _) => destruct b
    | |- follows _ _ (match ?t with _ => _ end) => destruct t
    | _ => fail
    end).

Lemma follows_solo_callback cfg ctx msg out fields :
  follows solo_protocol SoOther (processMessage cfg ctx msg out fields).
Proof. unfold processMessage. follows_solo_tac. Qed.

Lemma follows_solo_watcher sub ctx out fields :
  follows solo_protocol (SoWatch out) (watcher sub ctx out fields).
Proof. unfold watcher. follows_solo_tac. Qed.

Lemma follows_solo_Subscribe_loop cfg ctx topic out todo i :
  (todo <= 1)%nat ->
  follows solo_protocol (SoOwns out) (Subscribe_loop cfg ctx topic out todo i).
Proof.
  intros Hle. destruct todo as [|[|todo]]; [simpl; eauto 10| |lia].
  rewrite Subscribe_loop_S. unfold subscribe. simpl Subscribe_loop.
  follows_solo_tac; auto using follows_solo_callback, follows_solo_watcher.
Qed.

Lemma follows_solo_methods cfg c :
  SubscribersCount cfg <= 1 ->
  follows solo_protocol (of_method solo_protocol c) (method_body cfg c).
Proof.
  intros Hone.
  destruct c as [ctx topic|topic|]; cbn [method_body of_method solo_protocol].
  - unfold Subscribe. follows_solo_tac. apply follows_solo_Subscribe_loop. lia.
  - unfold SubscribeInitialize, subscribe.
    follows_solo_tac; auto using follows_solo_callback.
  - unfold Close. follows_solo_tac.
Qed.

Lemma solo_inv_spawn m kds e p kd0 :
  solo_inv m kds -> length (pool m) = length kds ->
  so_chan kd0 = None ->
  (forall parent, e <> EntryGo parent) ->
  solo_inv (spawn e p m) (kds ++ [kd0]).
Proof.
  intros (S1 & S2 & S3) Hlen Hk0 He.
  assert (Hnew : forall j kj, (kds ++ [kd0]) !! j = Some kj ->
            kds !! j = Some kj \/ kj = kd0).
  { intros j kj Hj. apply lookup_app_Some in Hj as [?|[? Hj]]; [by left|].
    apply list_lookup_singleton_Some in Hj as [? <-]. by right. }
  split; [|split]; simpl.
  - intros i kd c Hkd Hc. destruct (Hnew _ _ Hkd) as [?| ->]; [eauto|congruence].
  - intros i j ki kj c Hi Hj Hci Hcj.
    destruct (Hnew _ _ Hi) as [?| ->]; [|congruence].
    destruct (Hnew _ _ Hj) as [?| ->]; [eauto|congruence].
  - intros i g kd parent Hg Hkd Hent.
    destruct (lookup_spawned _ _ _ _ _ _ _ Hlen Hg Hkd) as [[? ?]|[-> ->]];
      [eauto|]. by destruct (He parent).
Qed.

(** A step of goroutine [tid] from kind [kd] to [kd']. *)
Lemma solo_inv_relabel m kds tid g kd kd' p' s' ev :
  solo_inv m kds ->
  pool m !! tid = Some g -> kds !! tid = Some kd ->
  (forall c : ChanId, so_chan kd <> Some c ->
     chans (store m) !! c = Some false -> chans s' !! c = Some false) ->
  (forall c, so_chan kd' = Some c ->
     chans s' !! c = Some false /\
     (so_chan kd = Some c \/ forall j kj, kds !! j = Some kj -> so_chan kj <> Some c)) ->
  ((exists c, kd = SoWatch c) \/ kd = SoClosed ->
   (exists c, kd' = SoWatch c) \/ kd' = SoClosed) ->
  solo_inv {| store := s'; pool := update tid g p' (pool m);
              trace := trace m ++ [(tid, ev)]; panicked := None |}
           (<[tid := kd']> kds).
Proof.
  intros (S1 & S2 & S3) Hg Hkd Hkeep Hnew Htie.
  assert (Hcase : forall j kj, <[tid := kd']> kds !! j = Some kj ->
            (j = tid /\ kj = kd') \/ (j <> tid /\ kds !! j = Some kj)).
  { intros j kj Hj. apply list_lookup_insert_Some in Hj as [(-> & <- & _)|[? ?]]; auto. }
  split; [|split]; simpl.
  - intros i kdi c Hi Hc. destruct (Hcase _ _ Hi) as [[-> ->]|[Hne Hi']].
    + by destruct (Hnew _ Hc).
    + apply Hkeep; [|eauto]. intros Hc'. destruct Hne. eauto.
  - intros i j ki kj c Hi Hj Hci Hcj.
    destruct (Hcase _ _ Hi) as [[-> ->]|[Hni Hi']];
      destruct (Hcase _ _ Hj) as [[-> ->]|[Hnj Hj']]; try done.
    + destruct (Hnew _ Hci) as [_ [?|Hfresh]]; [eauto|]. by destruct (Hfresh _ _ Hj').
    + destruct (Hnew _ Hcj) as [_ [?|Hfresh]]; [eauto|]. by destruct (Hfresh _ _ Hi').
    + eauto.
  - intros i gi kdi parent Hgi Hkdi Hent. unfold update in Hgi.
    apply list_lookup_insert_Some in Hgi as [(-> & <- & _)|[Hne Hgi]].
    + rewrite list_lookup_insert_eq in Hkdi by (by eapply lookup_lt_Some).
      simplify_eq. simpl in Hent. eauto.
    + rewrite list_lookup_insert_ne in Hkdi by done. eauto.
Qed.

Lemma solo_inv_step cfg m kds m' kds' :
  solo_inv m kds -> kinded solo_protocol m kds -> panicked m = None ->
  kinded_step solo_protocol cfg m kds m' kds' ->
  kinded solo_protocol m' kds' ->
  solo_inv m' kds'.
Proof.
  intros Hinv Hk _ Hs _.
  pose proof (kinded_length _ _ _ Hk) as Hlen.
  destruct Hs as [c|n|sub msg b Hb' Ho Hc'|msg
                 |tid g kd kd' ev p' Hg Hkd Hen Hon
                 |tid g kd kc kk child k Hg Hkd Hbody Hon
                 |tid g kd kd' topic qg e p' Hg Hkd Hon
                 |tid g kd kd' topic qg cb opts p' Hg Hkd Hon].
  - apply solo_inv_spawn; try done. by destruct c.
  - done.
  - by apply solo_inv_spawn.
  - done.
  - pose proof Hinv as (S1 & S2 & S3). simpl in Hon.
    assert (Hfresh : forall j kj, kds !! j = Some kj ->
              so_chan kj <> Some (length (chans (store m)))).
    { intros j kj Hj Hc. specialize (S1 _ _ _ Hj Hc).
      apply lookup_lt_Some in S1. lia. }
    eapply solo_inv_relabel; try done.
    + intros c Hne Hopen. rewrite apply_event_chans.
      destruct kd; destruct ev; simpl in Hon; try discriminate; split_op Hon;
        try done; try (by apply lookup_app_l_Some).
      apply bool_decide_eq_true in Heqb. subst c1.
      rewrite list_lookup_insert_ne; [done|]. simpl in Hne. congruence.
    + intros c Hc. rewrite apply_event_chans.
      destruct kd; destruct ev; simpl in Hon; try discriminate; split_op Hon;
        simpl in Hc; try discriminate; simplify_eq.
      * simpl in Hen. subst c. split; [|by right].
        rewrite lookup_app_r by done. by rewrite Nat.sub_diag.
      * split; [|by left]. by eapply (S1 tid).
      * split; [|by left]. by eapply (S1 tid).
      * split; [|by left]. by eapply (S1 tid).
      * split; [|by left]. by eapply (S1 tid).
      * split; [|by left]. by eapply (S1 tid).
    + intros Hw.
      destruct kd; destruct ev; simpl in Hon; try discriminate; split_op Hon;
        eauto; destruct Hw as [[? ?]|?]; done.
  - destruct Hinv as (S1 & S2 & S3). simpl in Hon. destruct kd; simplify_eq.
    assert (Hcase : forall j kj, (<[tid := SoGave]> kds ++ [SoWatch c]) !! j = Some kj ->
              (j = tid /\ kj = SoGave) \/ (j <> tid /\ kds !! j = Some kj) \/
              (j = length kds /\ kj = SoWatch c)).
    { intros j kj Hj. apply lookup_app_Some in Hj as [Hj|[? Hj]].
      - apply list_lookup_insert_Some in Hj as [(-> & <- & _)|[? ?]]; auto.
      - apply list_lookup_singleton_Some in Hj as [? <-]. right. right.
        rewrite length_insert in *. split; [lia|done]. }
    split; [|split]; simpl.
    + intros i kdi c0 Hi Hc. destruct (Hcase _ _ Hi) as [[_ ->]|[[_ ?]|[_ ->]]].
      * done.
      * eauto.
      * simpl in Hc. simplify_eq. by eapply (S1 tid).
    + intros i j ki kj c0 Hi Hj Hci Hcj.
      destruct (Hcase _ _ Hi) as [[_ ->]|[[Hni Hi']|[-> ->]]]; [done| |];
        (destruct (Hcase _ _ Hj) as [[_ ->]|[[Hnj Hj']|[-> ->]]]; [done| |]);
        simpl in *; simplify_eq; eauto.
      -- destruct Hni. by eapply (S2 i tid ki (SoOwns c0)).
      -- destruct Hnj. by eapply (S2 j tid kj (SoOwns c0)).
    + intros i gi kdi parent Hgi Hkdi Hent.
      destruct (lookup_stepped _ _ _ _ _ _ [_] [_] _ _ _ Hlen eq_refl Hg Hgi Hkdi)
        as [(-> & -> & ->)|[(? & ? & ?)|(? & _ & Hx)]].
      * simpl in Hent. destruct (S3 _ _ _ _ Hg Hkd Hent) as [[? ?]|?]; done.
      * eauto.
      * apply list_lookup_singleton_Some in Hx as [_ <-]. eauto.
  - pose proof Hinv as (S1 & S2 & S3). simpl in Hon.
    destruct kd; simplify_eq;
      (eapply solo_inv_relabel; try done;
       try (intros c0 Hc; simpl in Hc; simplify_eq;
            split; [by eapply (S1 tid)|by left])).
  - pose proof Hinv as (S1 & S2 & S3). simpl in Hon.
    destruct kd; simplify_eq;
      (eapply solo_inv_relabel; try done;
       try (intros c0 Hc; simpl in Hc; simplify_eq;
            split; [by eapply (S1 tid)|by left])).
Qed.

Lemma solo_inv_run cfg acts m :
  SubscribersCount cfg <= 1 ->
  run cfg acts boot = Some m ->
  exists kds, kinded solo_protocol m kds /\ solo_inv m kds.
Proof.
  intros Hone.
  apply (protocol_invariant solo_protocol cfg
           (fun c => follows_solo_methods cfg c Hone) solo_inv).
  - split; [|split].
    + intros i kd c Hkd. by rewrite lookup_nil in Hkd.
    + intros i j ki kj c Hi. by rewrite lookup_nil in Hi.
    + intros i g kd parent Hg. simpl in Hg. by rewrite lookup_nil in Hg.
  - intros. by eapply solo_inv_step.
Qed.

(** X15: with at most one worker per [Subscribe] call, closing an output
    channel never panics: a goroutine about to close one finds it open,
    being the only one to close it, and the close goes through. *)
Theorem single_worker_close_finds_channel_open cfg acts m t g c k r :
  SubscribersCount cfg <= 1 ->
  run cfg acts boot = Some m ->
  pool m !! t = Some g ->
  body g = Do (CloseChan c) k ->
  chans (store m) !! c = Some false /\
  exec r (store m) (body g)
  = TStepped (set_chans (<[c := true]> (chans (store m))) (store m)) (k tt) []
      (EvCloseChan c).
Proof.
  intros Hone Hrun Hg Hbody.
  destruct (solo_inv_run _ _ _ Hone Hrun) as (skds & Hsk & S1 & _).
  destruct (kinded_lookup _ _ _ _ _ Hsk Hg) as (skd & Hskd & Hsfol).
  rewrite Hbody in Hsfol |- *. simpl in Hsfol.
  edestruct (Hsfol Proceed (set_chans (replicate (S c) false) initial_state))
    as (kd' & Hon & _).
  { exact (exec_CloseChan_open Proceed _ _ (replicate_last_open c)). }
  assert (Hopen : chans (store m) !! c = Some false).
  { apply (S1 t skd c Hskd).
    destruct skd; simpl in Hon; try discriminate.
    destruct (bool_decide (c = c0)) eqn:Hc; [|discriminate].
    apply bool_decide_eq_true in Hc. by subst c0. }
  split; [done|]. simpl. by rewrite Hopen.
Qed.

Lemma single_worker_close_finds_channel_open_witness :
  chans (store (machine_after one_worker watcher_closing_acts)) !! 0%nat
  = Some false.
Proof.
  apply (single_worker_close_finds_channel_open one_worker watcher_closing_acts
           (machine_after one_worker watcher_closing_acts) 1%nat
           {| entry := EntryGo 0;
              body := (CloseChan 0%nat ;; WgAdd WgOutputs (-1) ;; Return VUnit)%proc |}
           0%nat (fun _ => (WgAdd WgOutputs (-1) ;; Return VUnit)%proc) Proceed).
  - vm_compute. discriminate.
  - vm_compute. reflexivity.
  - vm_compute. reflexivity.
  - reflexivity.
Defined.
